(** * Closed-loop PID simulator: the numerical core of the three front-ends

    The repository holds three variants of one page script:
    - [Copia]     : "Pagina Corregida - copia/pid_controller.js"
    - [Profesor]  : "Pagina Profesor/pid_controller.js"
    - [Corregida] : "Pagina Corregida/pid_controller.js"

    The functions are embedded once, over an interface [Number] of the
    arithmetic the scripts use, and read at two instances: IEEE binary64
    ([Float64], what a JavaScript engine runs; it evaluates) and the real
    numbers ([Real], the exact arithmetic in which the formulas of the
    specification are written). *)

From Stdlib Require Import ZArith Reals Lra Lia String.
From Stdlib Require Import Floats.
From stdpp Require Import base list.

Set Default Proof Using "Type".

(** ** JavaScript numbers *)

Class Number (num : Type) := {
  of_Z : Z → num;                 (* an integer literal or loop counter *)
  add : num → num → num;
  sub : num → num → num;
  mul : num → num → num;
  div : num → num → num;
  opp : num → num;
  ltb : num → num → bool;         (* a < b *)
  leb : num → num → bool;         (* a <= b *)
  eqb : num → num → bool;         (* a === b *)
  floor : num → num;              (* Math.floor *)
  to_length : num → option nat;   (* an array length: an integer in [0, 2^32) *)
}.

Declare Scope js_scope.
Delimit Scope js_scope with js.
Infix "+" := add : js_scope.
Infix "-" := sub : js_scope.
Infix "*" := mul : js_scope.
Infix "/" := div : js_scope.
Notation "- x" := (opp x) : js_scope.
Infix "<?" := ltb : js_scope.
Infix "<=?" := leb : js_scope.
Infix "=?" := eqb : js_scope.
Notation "a >? b" := (ltb b a) (only parsing) : js_scope.
Notation "a >=? b" := (leb b a) (only parsing) : js_scope.

(** The sine of the engine's Math object, which ECMAScript leaves
    implementation-approximated, and its constant PI. *)
Class MathLib (num : Type) := {
  Math_sin : num → num;
  Math_PI : num;
}.

(** What a script throws. *)
Inductive exn :=
  | RangeError                    (* "Invalid array length" *)
  | Error (msg : string).

Inductive result (A : Type) :=
  | Ok (a : A)
  | Throw (e : exn).
Arguments Ok {A} a.
Arguments Throw {A} e.

Section Generic.
Context {num : Type} `{Number num}.
Local Open Scope js_scope.

(** Integer literals, and a loop counter or array length as a number. *)
Definition lit (z : Z) : num := of_Z z.
Definition of_nat (n : nat) : num := of_Z (Z.of_nat n).
(** A decimal literal [n/d], [d] a power of ten: the quotient of two exact
    integers is correctly rounded, hence the literal's value. *)
Definition dec (n d : Z) : num := of_Z n / of_Z d.

(** [undefined] coerced to a number, and [-Infinity]. *)
Definition NaN : num := lit 0 / lit 0.
Definition neg_Infinity : num := lit (-1) / lit 0.

Definition isNaN (v : num) : bool := negb (v =? v).

(** [a[i]] for a natural index: [undefined], read as a number, when out of range. *)
Definition aget (a : list num) (i : nat) : num := default NaN (a !! i).

(** [v || 0] for a number or undefined: 0, -0 and NaN are falsy. *)
Definition or_zero (v : option num) : num :=
  match v with
  | None => lit 0
  | Some v => if (v =? lit 0) || isNaN v then lit 0 else v
  end.

(** [Math.max(a, b)]: NaN if either is, and +0 above -0. *)
Definition max2 (a b : num) : num :=
  if isNaN a then a else if isNaN b then b
  else if a <? b then b else if b <? a then a
  else if a =? lit 0 then a + b else a.

(** [Math.max(...xs)]: -Infinity for no argument; with arguments, the fold
    of [max2] from -Infinity is the fold from the first one. *)
Definition Math_max (xs : list num) : num :=
  match xs with
  | [] => neg_Infinity
  | v :: xs => foldl max2 v xs
  end.

(** [Math.min(a, b)], same conventions. *)
Definition Math_min (a b : num) : num :=
  if isNaN a then a else if isNaN b then b
  else if a <? b then a else if b <? a then b
  else if a =? lit 0 then - ((- a) + (- b)) else a.

(** [Math.sign]: the argument itself at 0, -0 and NaN. *)
Definition Math_sign (v : num) : num :=
  if lit 0 <? v then lit 1 else if v <? lit 0 then lit (-1) else v.

(** [Math.abs]: +0 at both zeros, NaN at NaN. *)
Definition Math_abs (v : num) : num :=
  if v <? lit 0 then - v else if v =? lit 0 then lit 0 else v.

(** A variable that holds a number or [undefined], compared with [=== -1]
    (the "not found yet" mark of the metrics), and read as a number. *)
Definition is_minus_one (t : option num) : bool :=
  match t with
  | Some v => v =? lit (-1)
  | None => false
  end.

Definition to_number (t : option num) : num := default NaN t.
End Generic.

(** ** State-space models *)

Record StateSpace (num : Type) := {
  A : list (list num);
  B : list num;
  C : list num;
  D : num;
}.
Arguments A {num} _.
Arguments B {num} _.
Arguments C {num} _.
Arguments D {num} _.

Section Plant.
Context {num : Type} `{Number num}.
Local Open Scope js_scope.

(** [M[i][j] = v]; both indices are in range wherever the scripts write. *)
Definition set2 (M : list (list num)) (i j : nat) (v : num) : list (list num) :=
  alter (λ row, <[j := v]> row) i M.

(** The companion matrix both [tfToStateSpace] build: [n] rows of [n] zeros,
    then the two loops.  [coef i] is the denominator coefficient the second
    loop negates into [A[n-1][i]]. *)
Definition companion (n : nat) (coef : nat → num) : list (list num) :=
  let A0 := replicate n (replicate n (lit 0)) in
  let A1 := foldl (λ M i, set2 M i (i + 1) (lit 1)) A0 (seq 0 (n - 1)) in
  foldl (λ M i, set2 M (n - 1) i (- coef i)) A1 (seq 0 n).

(** [new Array(n).fill(0); B[n-1] = 1].  For [n = 0] the write goes to the
    property "-1", which is no element: the array stays empty. *)
Definition unit_last (n : nat) : list num :=
  match n with
  | O => []
  | S m => <[m := lit 1]> (replicate n (lit 0))
  end.

(** [[...Array(n - len + 1).fill(0), ...num]]: [Array] of a negative length throws. *)
Definition pad_numerator (n : nat) (nm : list num) : result (list num) :=
  if (n + 1 <? length nm)%nat then Throw RangeError
  else Ok (replicate (n + 1 - length nm) (lit 0) ++ nm).
End Plant.

(** ** The integrator

    [rungeKutta]: lines 482-501 of Copia, 405-424 of Profesor (the same text).
    Every caller passes [A] with [A.length = x.length]; a missing row [A[i]],
    a TypeError in the script, reads here as an empty row. *)

Section Integrator.
Context {num : Type} `{Number num}.
Local Open Scope js_scope.

Definition row (A : list (list num)) (i : nat) : list num := default [] (A !! i).

(** The closure [f]: [res[i]] accumulates [A[i][j] * x_vec[j]] over [j], then [B[i] * u]. *)
Definition rungeKutta_f (A : list (list num)) (B : list num) (u : num) (n : nat)
    (x_vec : list num) : list num :=
  (λ i, foldl (λ acc j, acc + aget (row A i) j * aget x_vec j) (lit 0) (seq 0 n)
        + aget B i * u)
  <$> seq 0 n.

Definition rungeKutta (A : list (list num)) (B : list num) (x : list num) (u dt : num)
    : list num :=
  let n := length x in
  let f := rungeKutta_f A B u n in
  let k1 := (λ v, v * dt) <$> f x in
  let k2 := (λ v, v * dt) <$> f (imap (λ i v, v + dec 5 10 * aget k1 i) x) in
  let k3 := (λ v, v * dt) <$> f (imap (λ i v, v + dec 5 10 * aget k2 i) x) in
  let k4 := (λ v, v * dt) <$> f (imap (λ i v, v + aget k3 i) x) in
  imap (λ i v, v + (aget k1 i + lit 2 * aget k2 i + lit 2 * aget k3 i + aget k4 i) / lit 6) x.
End Integrator.

(** ** Results of a run: the object [simulationData] *)

Record SimulationData (num : Type) := {
  time : list num;
  reference : list num;
  output : list num;
  error : list num;
  control : list num;
}.
Arguments time {num} _.
Arguments reference {num} _.
Arguments output {num} _.
Arguments error {num} _.
Arguments control {num} _.

(** How a call of [runSimulation] ends: it assigns [simulationData], or returns
    before touching it, or throws. *)
Inductive outcome (num : Type) :=
  | Completed (data : SimulationData num)
  | Rejected
  | Thrown (e : exn).
Arguments Completed {num} data.
Arguments Rejected {num}.
Arguments Thrown {num} e.

(** ** Pagina Corregida - copia *)

Module Copia.
Section Script.
Context {num : Type} `{Number num} `{MathLib num}.
Local Open Scope js_scope.

(** tfToStateSpace, lines 448-471. *)
Definition tfToStateSpace (nm den : list num) : result (StateSpace num) :=
  match den with
  | [] =>
      (* den[0] is undefined, which is not === 0; n = -1 *)
      Throw (Error "Invalid denominator.")
  | den_norm :: _ =>
      if den_norm =? lit 0
      then Throw (Error "Denominator highest order coefficient cannot be zero.")
      else
        let den := (λ d, d / den_norm) <$> den in
        let nm := (λ c, c / den_norm) <$> nm in
        let n := (length den - 1)%nat in
        match pad_numerator n nm with
        | Throw e => Throw e
        | Ok num_padded =>
            Ok {| A := companion n (λ i, aget den (n - i));
                  B := unit_last n;
                  C := drop 1 num_padded;
                  D := aget num_padded 0 |}
        end
  end.

(** generateReference, lines 432-440. *)
Definition generateReference (t : num) (type : string) (amp freq : num) : num :=
  if String.eqb type "step" then amp
  else if String.eqb type "ramp" then amp * t
  else if String.eqb type "sine" then amp * Math_sin (lit 2 * Math_PI * freq * t)
  else if String.eqb type "square"
    then amp * Math_sign (Math_sin (lit 2 * Math_PI * freq * t))
  else amp.

(** What [runSimulation] reads from the page, the coefficient lists already
    split and parsed. *)
Record Config := {
  numerator : list num;
  denominator : list num;
  kp : num; ki : num; kd : num;
  simTime : num; dt : num;
  controlType : string;
  amplitude : num; frequency : num;
  antiWindupType : string;
  derivativeFilterType : string;
  disturbanceAmplitude : num;
}.

(** The controller, lines 369-405 of the loop body: from the step index, the
    error and the three accumulators to the control value [u] and the new
    [integral] and [filteredDerivative]. *)
Definition controller (cfg : Config) (i : nat)
    (currentError integral prevError filteredDerivative : num) : num * num * num :=
  let integral := integral + currentError * dt cfg in
  let derivative :=
    if (0 <? i)%nat then (currentError - prevError) / dt cfg else lit 0 in
  let '(derivative, filteredDerivative) :=
    if String.eqb (derivativeFilterType cfg) "firstOrder" then
      let tau_d := dec 5 100 in
      let alpha := dt cfg / (tau_d + dt cfg) in
      let filteredDerivative :=
        alpha * derivative + (lit 1 - alpha) * filteredDerivative in
      (filteredDerivative, filteredDerivative)
    else (derivative, filteredDerivative) in
  let u_unclamped := kp cfg * currentError + ki cfg * integral + kd cfg * derivative in
  let u := u_unclamped in
  if String.eqb (antiWindupType cfg) "clamping" then
    let u_max := lit 5 in
    let u_min := - lit 5 in
    if u >? u_max then
      let u := u_max in
      (u,
       if u_unclamped >? u_max then integral - (u_unclamped - u) / ki cfg else integral,
       filteredDerivative)
    else if u <? u_min then
      let u := u_min in
      (u,
       if u_unclamped <? u_min then integral - (u_unclamped - u) / ki cfg else integral,
       filteredDerivative)
    else (u, integral, filteredDerivative)
  else (u, integral, filteredDerivative).

(** The variables the loop of [runSimulation] updates. *)
Record Loop := {
  x : list num;
  integral : num;
  prevError : num;
  filteredDerivative : num;
  data : SimulationData num;
}.

(** One iteration, lines 352-412; [rand i] is what [Math.random()] returns in it. *)
Definition iteration (cfg : Config) (ss : StateSpace num) (rand : nat → num)
    (s : Loop) (i : nat) : Loop :=
  let t := aget (time (data s)) i in
  let reference :=
    <[i := generateReference t (controlType cfg) (amplitude cfg) (frequency cfg)]>
      (reference (data s)) in
  let y_plant :=
    foldl (λ sum j, sum + aget (C ss) j * aget (x s) j) (lit 0) (seq 0 (length (C ss)))
    + D ss * or_zero (match i with O => None | S i' => control (data s) !! i' end) in
  let y_disturbance :=
    y_plant + (rand i - dec 5 10) * lit 2 * disturbanceAmplitude cfg in
  let output := <[i := y_disturbance]> (output (data s)) in
  let currentError := aget reference i - aget output i in
  let error := <[i := currentError]> (error (data s)) in
  let '(u, integral, filteredDerivative) :=
    controller cfg i currentError (integral s) (prevError s) (filteredDerivative s) in
  let control := <[i := u]> (control (data s)) in
  {| x := rungeKutta (A ss) (B ss) (x s) u (dt cfg);
     integral := integral;
     prevError := currentError;
     filteredDerivative := filteredDerivative;
     data := {| time := time (data s); reference := reference; output := output;
                error := error; control := control |} |}.

(** runSimulation, lines 305-422, without the page: its reads are [cfg], its
    draws [rand], and what it plots and displays is [simulationData]. *)
Definition runSimulation (cfg : Config) (rand : nat → num) : outcome num :=
  if (length (denominator cfg) =? 0)%nat || (length (numerator cfg) =? 0)%nat
     || existsb isNaN (denominator cfg) || existsb isNaN (numerator cfg)
  then Rejected
  else
    match tfToStateSpace (numerator cfg) (denominator cfg) with
    | Throw e => Thrown e
    | Ok ss =>
        match to_length (floor (simTime cfg / dt cfg)) with
        | None => Thrown RangeError     (* Array.from / new Array(steps) *)
        | Some steps =>
            let s0 :=
              {| x := replicate (length (A ss)) (lit 0);
                 integral := lit 0; prevError := lit 0; filteredDerivative := lit 0;
                 data := {| time := (λ i, of_nat i * dt cfg) <$> seq 0 steps;
                            reference := replicate steps (lit 0);
                            output := replicate steps (lit 0);
                            error := replicate steps (lit 0);
                            control := replicate steps (lit 0) |} |} in
            Completed (data (foldl (iteration cfg ss rand) s0 (seq 0 steps)))
        end
    end.

(** displayMetrics, lines 685-691: the overshoot it displays. *)
Definition overshoot (d : SimulationData num) : num :=
  let finalValue := default NaN (last (reference d)) in
  let peakValue := Math_max (output d) in
  if finalValue >? lit 0 then
    let overshoot := (peakValue - finalValue) / finalValue * lit 100 in
    if overshoot <? lit 0 then lit 0 else overshoot
  else lit 0.

(** findTu, lines 883-904: the scan for peaks, then the period. *)
Definition findTu_peaks (output time : list num) : list num :=
  fst (fst (foldl (λ '(peaks, prevValue, rising) i,
                let '(peaks, rising) :=
                  if aget output i >? prevValue then (peaks, true)
                  else if (aget output i <? prevValue) && rising
                       then (peaks ++ [aget time i], false)
                       else (peaks, rising) in
                (peaks, aget output i, rising))
             ([], aget output 0, false) (seq 1 (length output - 1)))).

Definition findTu (output time : list num) : num :=
  let peaks := findTu_peaks output time in
  if (2 <=? length peaks)%nat
  then aget peaks (length peaks - 1) - aget peaks (length peaks - 2)
  else lit 0.

(** displayMetrics, lines 693-703: the settling time.  [settling_scan n] is
    the loop from [i = n - 1] down to 0; it returns the [time[i]] of its
    break, which is [undefined] ([None]) where [time] has no such entry. *)
Fixpoint settling_scan (output time : list num) (finalValue tolerance : num) (n : nat)
    : option (option num) :=
  match n with
  | O => None
  | S i =>
      if Math_abs (aget output i - finalValue) >? tolerance
      then Some (time !! i)
      else settling_scan output time finalValue tolerance i
  end.

Definition settlingTime (d : SimulationData num) : option num :=
  let finalValue := to_number (last (reference d)) in
  let tolerance := dec 5 100 * finalValue in
  match settling_scan (output d) (time d) finalValue tolerance (length (output d)) with
  | Some t => t
  | None => last (time d)
  end.

(** displayMetrics, lines 705-718: the rise time, [None] where the page shows
    "-".  [rise_scan] is the loop over the indices [ix], with its break. *)
Fixpoint rise_scan (output time : list num) (val10 val90 : num) (ix : list nat)
    (t10 t90 : option num) : option num * option num :=
  match ix with
  | [] => (t10, t90)
  | i :: ix =>
      let t10 := if is_minus_one t10 && (aget output i >=? val10) then time !! i else t10 in
      let t90 := if is_minus_one t90 && (aget output i >=? val90) then time !! i else t90 in
      if negb (is_minus_one t10) && negb (is_minus_one t90) then (t10, t90)
      else rise_scan output time val10 val90 ix t10 t90
  end.

Definition riseTime (d : SimulationData num) : option num :=
  let finalValue := to_number (last (reference d)) in
  let val10 := dec 1 10 * finalValue in
  let val90 := dec 9 10 * finalValue in
  let '(t10, t90) :=
    rise_scan (output d) (time d) val10 val90 (seq 0 (length (output d)))
      (Some (lit (-1))) (Some (lit (-1))) in
  if negb (is_minus_one t10) && negb (is_minus_one t90)
  then Some (to_number t90 - to_number t10)
  else None.

(** displayMetrics, lines 720-722. *)
Definition steadyStateError (d : SimulationData num) : num :=
  let finalValue := to_number (last (reference d)) in
  let lastOutputValue := to_number (last (output d)) in
  Math_abs (finalValue - lastOutputValue).

(** suggestZNPIDValues, lines 911-938: the object [{ kp, ki, kd }] as a
    triple; [tuningMethod] is the page's selection. *)
Definition suggestZNPIDValues (tuningMethod : string) (Ku Tu : num) : num * num * num :=
  if String.eqb tuningMethod "ziegler-nichols" then
    (dec 6 10 * Ku, dec 12 10 * Ku / Tu, dec 75 1000 * Ku * Tu)
  else if String.eqb tuningMethod "cohen-coon" then
    ((dec 9 10 * Ku) / dec 135 100,
     (dec 135 100 * Ku) / (dec 25 10 * Tu),
     (dec 27 100 * Ku * Tu) / dec 135 100)
  else if String.eqb tuningMethod "imc" then
    (dec 5 10 * Ku, dec 5 10 * Ku / Tu, dec 125 1000 * Ku * Tu)
  else
    (dec 6 10 * Ku, dec 12 10 * Ku / Tu, dec 75 1000 * Ku * Tu).

(** updateRange, lines 193-209, on the three numbers it parses: [None] when
    the range is refused; otherwise the range is applied and the result is the
    value the script assigns to the slider, if it assigns one. *)
Definition updateRange (min max currentValue : num) : option (option num) :=
  if negb (isNaN min) && negb (isNaN max) && (min <=? max) then
    Some (if (currentValue <? min) || (currentValue >? max)
          then Some (max2 min (Math_min max currentValue))
          else None)
  else None.
End Script.
End Copia.

(** ** Pagina Profesor *)

Module Profesor.
Section Script.
Context {num : Type} `{Number num} `{MathLib num}.
Local Open Scope js_scope.

(** tfToStateSpace, lines 363-394.  No guard: an empty denominator divides
    by [undefined], a zero leading coefficient by zero. *)
Definition tfToStateSpace (nm den : list num) : result (StateSpace num) :=
  let den_norm := aget den 0 in
  let den := (λ d, d / den_norm) <$> den in
  let nm := (λ c, c / den_norm) <$> nm in
  let den := drop 1 den in                       (* den.shift() *)
  let n := length den in
  match pad_numerator n nm with
  | Throw e => Throw e
  | Ok num_padded =>
      let A := companion n (λ i, aget den (n - 1 - i)) in
      let d_c := aget num_padded 0 in
      let C0 := replicate n (lit 0) in
      let C1 := foldl (λ C i,
                  <[i := aget num_padded (i + 1)
                         - d_c * (aget (row A (n - 1)) i
                                  / (- aget den (n - 1 - i)) * aget den i)]> C)
                  C0 (seq 0 n) in
      (* "A simple approximation for C if the above fails" *)
      let C2 := foldl (λ C i,
                  <[i := aget num_padded (length num_padded - 1 - i)
                         - aget num_padded 0 * aget den (n - 1 - i)]> C)
                  C1 (seq 0 n) in
      Ok {| A := A; B := unit_last n; C := C2; D := d_c |}
  end.

(** generateReference, lines 347-355. *)
Definition generateReference (t : num) (type : string) (amp freq : num) : num :=
  if String.eqb type "step" then amp
  else if String.eqb type "ramp" then amp * Math_min (lit 1) t
  else if String.eqb type "sine" then amp * Math_sin (lit 2 * Math_PI * freq * t)
  else if String.eqb type "square"
    then amp * Math_sign (Math_sin (lit 2 * Math_PI * freq * t))
  else amp.

(** What [runSimulation] reads from the page; the coefficient lists are
    parsed and already filtered of NaN (lines 280-281). *)
Record Config := {
  numerator : list num;
  denominator : list num;
  kp : num; ki : num; kd : num;
  simTime : num; dt : num;
  controlType : string;
  amplitude : num; frequency : num;
}.

Record Loop := {
  x : list num;
  integral : num;
  prevError : num;
  data : SimulationData num;
}.

(** One iteration, lines 305-329. *)
Definition iteration (cfg : Config) (ss : StateSpace num) (s : Loop) (i : nat) : Loop :=
  let t := aget (time (data s)) i in
  let reference :=
    <[i := generateReference t (controlType cfg) (amplitude cfg) (frequency cfg)]>
      (reference (data s)) in
  let y :=
    foldl (λ sum j, sum + aget (C ss) j * aget (x s) j) (lit 0) (seq 0 (length (C ss)))
    + D ss * or_zero (match i with O => None | S i' => control (data s) !! i' end) in
  let output := <[i := y]> (output (data s)) in
  let currentError := aget reference i - y in
  let error := <[i := currentError]> (error (data s)) in
  let integral := integral s + currentError * dt cfg in
  let derivative :=
    if (0 <? i)%nat then (currentError - prevError s) / dt cfg else lit 0 in
  let u := kp cfg * currentError + ki cfg * integral + kd cfg * derivative in
  let control := <[i := u]> (control (data s)) in
  {| x := rungeKutta (A ss) (B ss) (x s) u (dt cfg);
     integral := integral;
     prevError := currentError;
     data := {| time := time (data s); reference := reference; output := output;
                error := error; control := control |} |}.

(** runSimulation, lines 266-337. *)
Definition runSimulation (cfg : Config) : outcome num :=
  if (length (denominator cfg) =? 0)%nat || (length (numerator cfg) =? 0)%nat
  then Rejected
  else
    match tfToStateSpace (numerator cfg) (denominator cfg) with
    | Throw e => Thrown e
    | Ok ss =>
        match to_length (floor (simTime cfg / dt cfg)) with
        | None => Thrown RangeError
        | Some steps =>
            let s0 :=
              {| x := replicate (length (A ss)) (lit 0);
                 integral := lit 0; prevError := lit 0;
                 data := {| time := (λ i, of_nat i * dt cfg) <$> seq 0 steps;
                            reference := replicate steps (lit 0);
                            output := replicate steps (lit 0);
                            error := replicate steps (lit 0);
                            control := replicate steps (lit 0) |} |} in
            Completed (data (foldl (iteration cfg ss) s0 (seq 0 steps)))
        end
    end.

(** displayMetrics, lines 501-506: the overshoot it displays; [controlType]
    is the page's selection, the one the run read. *)
Definition overshoot (controlType : string) (d : SimulationData num) : num :=
  let finalRef := default NaN (last (reference d)) in
  if String.eqb controlType "step" then
    let maxValue := Math_max (output d) in
    if finalRef >? lit 0 then (maxValue - finalRef) / finalRef * lit 100 else lit 0
  else lit 0.

(** findTu, lines 619-650: the scan of the latter half for peaks above 1,
    then the period [tu], shown as N/A unless positive. *)
Definition findTu_peaks (output time : list num) : list num :=
  let start := (length output / 2)%nat in
  foldl (λ peaks i,
           if (aget output i >? aget output (i - 1))
              && (aget output i >? aget output (i + 1))
              && (aget output i >? lit 1)
           then peaks ++ [aget time i] else peaks)
        [] (seq start (length output - 1 - start)).

Definition findTu_period (peaks : list num) : num :=
  if (2 <=? length peaks)%nat then
    let totalPeriod :=
      foldl (λ totalPeriod i, totalPeriod + (aget peaks (i + 1) - aget peaks i))
            (lit 0) (seq 0 (length peaks - 1)) in
    totalPeriod / of_nat (length peaks - 1)
  else lit 0.

Definition findTu (output time : list num) : num :=
  findTu_period (findTu_peaks output time).

(** displayMetrics, lines 497-499. *)
Definition steadyStateError (d : SimulationData num) : num :=
  let finalRef := to_number (last (reference d)) in
  let steadyStateValue := to_number (last (output d)) in
  finalRef - steadyStateValue.

(** displayMetrics, lines 508-517: the rise time.  The two marks are only
    compared with 0 and subtracted, where [undefined] reads as NaN. *)
Fixpoint rise_scan (output time : list num) (finalRef : num) (ix : list nat)
    (t10 t90 : num) : num * num :=
  match ix with
  | [] => (t10, t90)
  | i :: ix =>
      let t10 :=
        if (t10 <? lit 0) && (aget output i >=? dec 1 10 * finalRef)
        then aget time i else t10 in
      if (t90 <? lit 0) && (aget output i >=? dec 9 10 * finalRef)
      then (t10, aget time i)
      else rise_scan output time finalRef ix t10 t90
  end.

Definition riseTime (d : SimulationData num) : num :=
  let finalRef := to_number (last (reference d)) in
  let '(t10, t90) :=
    rise_scan (output d) (time d) finalRef (seq 0 (length (output d)))
      (lit (-1)) (lit (-1)) in
  if (t10 >=? lit 0) && (t90 >=? lit 0) then t90 - t10 else lit 0.

(** displayMetrics, lines 519-526: the settling time; [None] is the
    [undefined] of a missing entry of [time]. *)
Fixpoint settling_scan (output time : list num) (steadyStateValue finalRef : num)
    (n : nat) : option num :=
  match n with
  | O => Some (lit 0)
  | S i =>
      if Math_abs (aget output i - steadyStateValue) >? dec 2 100 * Math_abs finalRef
      then time !! i
      else settling_scan output time steadyStateValue finalRef i
  end.

Definition settlingTime (d : SimulationData num) : option num :=
  let finalRef := to_number (last (reference d)) in
  let steadyStateValue := to_number (last (output d)) in
  settling_scan (output d) (time d) steadyStateValue finalRef (length (output d)).

(** suggestZNPIDValues, lines 657-662: the object [suggestions], each rule
    as the triple of its [Kp], [Ki] and [Kd]. *)
Record Suggestions := {
  P : num * num * num;
  PI : num * num * num;
  PID : num * num * num;
}.

Definition suggestZNPIDValues (Ku Tu : num) : Suggestions :=
  {| P := (dec 5 10 * Ku, lit 0, lit 0);
     PI := (dec 45 100 * Ku, (dec 45 100 * Ku) / (Tu / dec 12 10), lit 0);
     PID := (dec 6 10 * Ku, (dec 6 10 * Ku) / (Tu / lit 2),
             (dec 6 10 * Ku) * (Tu / lit 8)) |}.

(** updateRange, lines 160-182: as in Copia, with the two assignments of the
    script in their order. *)
Definition updateRange (min max currentValue : num) : option (option num) :=
  if negb (isNaN min) && negb (isNaN max) && (min <=? max) then
    let value := if currentValue <? min then Some min else None in
    let value := if currentValue >? max then Some max else value in
    Some value
  else None.
End Script.
End Profesor.

(** ** Pagina Corregida *)

Module Corregida.
Section Script.
Context {num : Type} `{Number num}.
Local Open Scope js_scope.

(** The six inputs [simulatePID] parses. *)
Record Config := {
  kp : num; ki : num; kd : num;
  setpoint : num;
  timeStep : num;
  simulationTime : num;
}.

(** The variables of the enclosing closure, lines 22-30. *)
Record State := {
  theta : num;
  omega : num;
  integralError : num;
  previousError : num;
  time : num;
  timeHistory : list num;
  systemOutputHistory : list num;
  controlSignalHistory : list num;
  referenceSignalHistory : list num;
}.

Definition g : num := dec 98 10.
Definition L : num := lit 1.

(** The plant update, lines 76-78: from [theta], [omega] and the control
    signal to the new pair. *)
Definition plant (theta omega controlSignal timeStep : num) : num * num :=
  let alpha := (- g / L) * theta + controlSignal in
  let omega := omega + alpha * timeStep in
  let theta := theta + omega * timeStep in
  (theta, omega).

(** The loop body, lines 68-83. *)
Definition iteration (cfg : Config) (s : State) : State :=
  let error := setpoint cfg - theta s in
  let integralError := integralError s + error * timeStep cfg in
  let derivativeError := (error - previousError s) / timeStep cfg in
  let controlSignal :=
    kp cfg * error + ki cfg * integralError + kd cfg * derivativeError in
  let '(theta, omega) := plant (theta s) (omega s) controlSignal (timeStep cfg) in
  let time := time s + timeStep cfg in
  {| theta := theta; omega := omega;
     integralError := integralError; previousError := error;
     time := time;
     timeHistory := timeHistory s ++ [time];
     systemOutputHistory := systemOutputHistory s ++ [theta];
     controlSignalHistory := controlSignalHistory s ++ [controlSignal];
     referenceSignalHistory := referenceSignalHistory s ++ [setpoint cfg] |}.





(** calculateMetrics, lines 196-266, on the set point of the page and the
    two histories it reads; each metric is the value the page formats. *)

(** Lines 201-207. *)
Definition overshoot (setpoint : num) (systemOutput : list num) : num :=
  let maxOutput := Math_max systemOutput in
  if maxOutput >? setpoint then ((maxOutput - setpoint) / setpoint) * lit 100
  else lit 0.

(** Lines 209-230: the rise time, [None] for "N/A". *)
Fixpoint rise_scan (systemOutput time : list num) (tenPercentValue ninetyPercentValue : num)
    (ix : list nat) (time10 time90 : option num) : option num * option num :=
  match ix with
  | [] => (time10, time90)
  | i :: ix =>
      let time10 :=
        if is_minus_one time10 && (aget systemOutput i >=? tenPercentValue)
        then time !! i else time10 in
      if is_minus_one time90 && (aget systemOutput i >=? ninetyPercentValue)
      then (time10, time !! i)
      else rise_scan systemOutput time tenPercentValue ninetyPercentValue ix time10 time90
  end.

Definition riseTime (setpoint : num) (systemOutput time : list num) : option num :=
  let startValue := aget systemOutput 0 in
  let endValue := setpoint in
  let tenPercentValue := startValue + dec 1 10 * (endValue - startValue) in
  let ninetyPercentValue := startValue + dec 9 10 * (endValue - startValue) in
  let '(time10, time90) :=
    rise_scan systemOutput time tenPercentValue ninetyPercentValue
      (seq 0 (length systemOutput)) (Some (lit (-1))) (Some (lit (-1))) in
  if negb (is_minus_one time10) && negb (is_minus_one time90)
  then Some (to_number time90 - to_number time10)
  else None.

(** [systemOutput.indexOf(v)]: the first index whose entry is [=== v]. *)
Fixpoint indexOf (l : list num) (v : num) : option nat :=
  match l with
  | [] => None
  | a :: l => if a =? v then Some O else S <$> indexOf l v
  end.

(** Lines 232-238: the peak time, [None] for "N/A"; inside, [None] is the
    [undefined] of an entry of [time] that is not there. *)
Definition peakTime (setpoint : num) (systemOutput time : list num)
    : option (option num) :=
  let maxOutput := Math_max systemOutput in
  if maxOutput >? setpoint then
    Some (match indexOf systemOutput maxOutput with
          | Some maxIndex => time !! maxIndex
          | None => None
          end)
  else None.

(** Lines 240-260: the settling time, [None] for "N/A".  [settling_scan n
    settled] is the loop from [i = n - 1] down to 0. *)
Fixpoint settling_scan (systemOutput time : list num) (lowerBand upperBand : num)
    (n : nat) (settled : bool) : option (option num) :=
  match n with
  | O => None
  | S i =>
      if (aget systemOutput i >=? lowerBand) && (aget systemOutput i <=? upperBand)
      then
        if (i =? 0)%nat then Some (time !! 0%nat)
        else settling_scan systemOutput time lowerBand upperBand i true
      else
        if settled then Some (time !! (i + 1)%nat)
        else settling_scan systemOutput time lowerBand upperBand i false
  end.

Definition settlingTime (setpoint : num) (systemOutput time : list num)
    : option (option num) :=
  let tolerance := dec 2 100 * setpoint in
  let upperBand := setpoint + tolerance in
  let lowerBand := setpoint - tolerance in
  settling_scan systemOutput time lowerBand upperBand (length systemOutput) false.

(** Lines 262-264. *)
Definition steadyStateError (setpoint : num) (systemOutput : list num) : num :=
  let finalOutput := to_number (last systemOutput) in
  setpoint - finalOutput.
End Script.
End Corregida.

(** ** The two readings of [Number] *)

Module Float64.
Local Open Scope float_scope.

(** The integer [z] as a double, rounded to nearest. *)
Definition Z2float (z : Z) : float := SF2Prim (binary_normalize prec emax z 0 false).

(** [Math.floor]: integers, zeros, infinities and NaN are their own floor. *)
Definition float_floor (f : float) : float :=
  match Prim2SF f with
  | S754_finite s m e =>
      if (0 <=? e)%Z then f
      else
        let q := Z.shiftr (Zpos m) (- e) in
        let exact := (Z.shiftl q (- e) =? Zpos m)%Z in
        if s then Z2float (- (if exact then q else q + 1)) else Z2float q
  | _ => f
  end.

(** The value as an array length, when it is one. *)
Definition float_to_length (f : float) : option nat :=
  match Prim2SF f with
  | S754_zero _ => Some O
  | S754_finite false m e =>
      let v := if (0 <=? e)%Z then Z.shiftl (Zpos m) e else Z.shiftr (Zpos m) (- e) in
      let exact := if (0 <=? e)%Z then true else (Z.shiftl v (- e) =? Zpos m)%Z in
      if exact && (v <? 2 ^ 32)%Z then Some (Z.to_nat v) else None
  | _ => None
  end.

#[global] Instance number : Number float := {|
  of_Z := Z2float;
  add := PrimFloat.add; sub := PrimFloat.sub;
  mul := PrimFloat.mul; div := PrimFloat.div;
  opp := PrimFloat.opp;
  ltb := PrimFloat.ltb; leb := PrimFloat.leb; eqb := PrimFloat.eqb;
  floor := float_floor;
  to_length := float_to_length;
|}.

(** [Math.PI] is the double nearest to pi; [Math.sin] is whatever the engine has. *)
Definition math (sin : float → float) : MathLib float :=
  {| Math_sin := sin; Math_PI := 0x1.921fb54442d18p+1 |}.
End Float64.

Module Real.
Local Open Scope R_scope.

Definition Rltb (a b : R) : bool := if Rlt_dec a b then true else false.
Definition Rleb (a b : R) : bool := if Rle_dec a b then true else false.
Definition Reqb (a b : R) : bool := if Req_dec_T a b then true else false.
Definition Rfloor (a : R) : R := IZR (Int_part a).
Definition R_to_length (a : R) : option nat :=
  let z := Int_part a in
  if Req_dec_T a (IZR z)
  then (if (0 <=? z)%Z && (z <? 2 ^ 32)%Z then Some (Z.to_nat z) else None)
  else None.

#[global] Instance number : Number R := {|
  of_Z := IZR;
  add := Rplus; sub := Rminus; mul := Rmult; div := Rdiv; opp := Ropp;
  ltb := Rltb; leb := Rleb; eqb := Reqb;
  floor := Rfloor;
  to_length := R_to_length;
|}.

#[global] Instance math : MathLib R := {| Math_sin := sin; Math_PI := PI |}.
End Real.

(** * The vocabulary of the specification *)

(** The words of the specification: a coefficient list normalized by the
    leading denominator coefficient, and the numerator padded with zeros on
    the left to [n + 1] coefficients. *)
Definition normalized {num : Type} `{Number num} (d0 : num) (l : list num) : list num :=
  (λ c, div c d0) <$> l.

Definition padded {num : Type} `{Number num} (n : nat) (nm : list num) : list num :=
  replicate (n + 1 - length nm) (lit 0) ++ nm.

(** [M] is an [n] by [n] matrix whose entry [(i, j)] is [g i j]. *)
Definition matrix_is {num : Type} (n : nat) (M : list (list num))
    (g : nat → nat → num) : Prop :=
  length M = n ∧
  ∀ i, (i < n)%nat → ∃ r, M !! i = Some r ∧ length r = n ∧
    ∀ j, (j < n)%nat → r !! j = Some (g i j).

(** The companion pattern of the specification: ones on the superdiagonal,
    in the bottom row at column [j] minus the normalized denominator
    coefficient at position [n - j], zeros elsewhere. *)
Definition companion_entry {num : Type} `{Number num} (n : nat) (den : list num)
    (i j : nat) : num :=
  if decide (i = (n - 1)%nat) then opp (aget den (n - j))
  else if decide (j = (i + 1)%nat) then lit 1 else lit 0.

(** The unit vector of length [n] with its 1 in the last position. *)
Definition unit_entry {num : Type} `{Number num} (n i : nat) : num :=
  if decide (i = (n - 1)%nat) then lit 1 else lit 0.

(** Vectors added and scaled, the product of a matrix row with the state,
    and the derivative [f(x) = A x + B u], over the reals. *)
Definition vadd (a b : list R) : list R := zip_with Rplus a b.

Definition vscale (c : R) (a : list R) : list R := Rmult c <$> a.

Definition dot (a b : list R) : R := foldr Rplus 0%R (zip_with Rmult a b).

Definition state_derivative (A : list (list R)) (B : list R) (u : R) (x : list R)
    : list R :=
  zip_with (λ r b, (dot r x + b * u)%R) A B.

(** The standard fourth-order Runge-Kutta update of [x' = A x + B u] over one
    step [dt] with [u] held. *)
Definition rk4_update (A : list (list R)) (B x : list R) (u dt : R) : list R :=
  let f := state_derivative A B u in
  let k1 := f x in
  let k2 := f (vadd x (vscale (dt / 2)%R k1)) in
  let k3 := f (vadd x (vscale (dt / 2)%R k2)) in
  let k4 := f (vadd x (vscale dt k3)) in
  vadd x (vscale (dt / 6)%R (vadd (vadd (vadd k1 (vscale 2%R k2)) (vscale 2%R k3)) k4)).

(** The same words in any arithmetic, where the order of the operations
    counts: vectors added and scaled entry by entry, the product of a row
    with the state added up from 0 in the order of the columns, and the
    derivative [f(x) = A x + B u]. *)
Definition vec_add {num : Type} `{Number num} (a b : list num) : list num :=
  zip_with add a b.

Definition vec_scale {num : Type} `{Number num} (c : num) (a : list num) : list num :=
  mul c <$> a.

Definition row_product {num : Type} `{Number num} (r x : list num) : num :=
  foldl add (lit 0) (zip_with mul r x).

Definition derivative_of {num : Type} `{Number num} (A : list (list num)) (B : list num)
    (u : num) (x : list num) : list num :=
  zip_with (λ r b, add (row_product r x) (mul b u)) A B.

(** The update as the specification groups it,
    [x + dt/6 (k1 + 2 k2 + 2 k3 + k4)] with [k] the derivative at [x],
    [x + dt/2 k1], [x + dt/2 k2] and [x + dt k3]. *)
Definition rk4_standard {num : Type} `{Number num} (A : list (list num)) (B x : list num)
    (u dt : num) : list num :=
  let f := derivative_of A B u in
  let k1 := f x in
  let k2 := f (vec_add x (vec_scale (div dt (lit 2)) k1)) in
  let k3 := f (vec_add x (vec_scale (div dt (lit 2)) k2)) in
  let k4 := f (vec_add x (vec_scale dt k3)) in
  vec_add x (vec_scale (div dt (lit 6))
               (vec_add (vec_add (vec_add k1 (vec_scale (lit 2) k2))
                           (vec_scale (lit 2) k3)) k4)).

(** The same update with every stage scaled by the step first,
    [x + (K1 + 2 K2 + 2 K3 + K4) / 6] with [K] the derivative times [dt] at
    [x], [x + 0.5 K1], [x + 0.5 K2] and [x + K3]: the same numbers over the
    reals, other roundings in binary64. *)
Definition rk4_scaled {num : Type} `{Number num} (A : list (list num)) (B x : list num)
    (u dt : num) : list num :=
  let f v := (λ w, mul w dt) <$> derivative_of A B u v in
  let k1 := f x in
  let k2 := f (vec_add x (vec_scale (dec 5 10) k1)) in
  let k3 := f (vec_add x (vec_scale (dec 5 10) k2)) in
  let k4 := f (vec_add x k3) in
  zip_with (λ v k, add v (div k (lit 6))) x
    (vec_add (vec_add (vec_add k1 (vec_scale (lit 2) k2)) (vec_scale (lit 2) k3)) k4).

(** The plant wired into Corregida's [simulatePID], lines 20-21 and 76:
    [theta' = omega], [omega' = -(g / L) theta + u] with [g = 9.8], [L = 1],
    as a state-space model over the state [(theta, omega)]. *)
Definition pendulum_A : list (list R) := [[0; 1]; [- (98 / 10); 0]]%R.

Definition pendulum_B : list R := [0; 1]%R.

Definition completed_data {num : Type} (o : outcome num) : option (SimulationData num) :=
  match o with
  | Completed d => Some d
  | _ => None
  end.

(** The five series of a run of [steps] steps of size [dt]. *)
Definition run_shape {num : Type} `{Number num} (steps : nat) (dt : num)
    (d : SimulationData num) : Prop :=
  time d = (λ i, mul (of_nat i) dt) <$> seq 0 steps
  ∧ length (reference d) = steps ∧ length (output d) = steps
  ∧ length (error d) = steps ∧ length (control d) = steps.


(** The words of the specification: the differences of consecutive peak
    times, and the mean of a series. *)
Definition consecutive_differences {num : Type} `{Number num} (peaks : list num)
    : list num :=
  zip_with sub (drop 1 peaks) peaks.

Definition mean {num : Type} `{Number num} (l : list num) : num :=
  div (foldl add (lit 0) l) (of_nat (length l)).

(** The words of the PID law on a recorded error series [e]: the sum the
    integral term holds after [k] steps, added in the order of the steps, and
    the law at step [i], whose derivative term is 0 at step 0. *)
Definition accumulated_error {num : Type} `{Number num} (e : list num) (dt : num)
    (k : nat) : num :=
  foldl (λ integral j, add integral (mul (aget e j) dt)) (lit 0) (seq 0 k).

Definition pid_law {num : Type} `{Number num} (kp ki kd dt : num) (e : list num)
    (i : nat) : num :=
  add (add (mul kp (aget e i)) (mul ki (accumulated_error e dt (S i))))
      (mul kd (if (0 <? i)%nat then div (sub (aget e i) (aget e (i - 1))) dt
               else lit 0)).

(** A loop at rest: the state of the plant, the accumulators of the
    controller and the four series are all 0. *)
Definition at_rest (x : list R) (accumulators : list R) (d : SimulationData R) : Prop :=
  Forall (λ v, v = 0%R) x ∧ Forall (λ v, v = 0%R) accumulators
  ∧ Forall (λ v, v = 0%R) (reference d) ∧ Forall (λ v, v = 0%R) (output d)
  ∧ Forall (λ v, v = 0%R) (error d) ∧ Forall (λ v, v = 0%R) (control d).

(** The marks of a rise-time scan that has read the samples below [k]: none
    set; or the 10 percent mark set at a sample [j10] and the 90 percent mark
    not set, or set at a sample [j90] not before [j10]. *)
Definition rise_marks (time : list R) (k : nat) (t10 t90 : option R) : Prop :=
  (t10 = Some (-1)%R ∧ t90 = Some (-1)%R)
  ∨ ∃ j10, (j10 < k)%nat ∧ t10 = Some (aget time j10)
      ∧ (t90 = Some (-1)%R
         ∨ ∃ j90, (j10 ≤ j90 < k)%nat ∧ t90 = Some (aget time j90)).

(** A polynomial in [s], its coefficients highest order first as the scripts
    read them (Horner's rule), and the powers [1, s, ..., s^(n-1)]. *)
Definition poly_eval (p : list R) (s : R) : R :=
  foldl (λ acc c, (acc * s + c)%R) 0%R p.

Definition powers (s : R) (n : nat) : list R := (λ i, (s ^ i)%R) <$> seq 0 n.

(** The model [ss] realises the transfer function [nm / den], [den] monic:
    at every [s] the state [X = (1, s, ..., s^(n-1))] satisfies
    [s X = A X + B den(s)] and [C X + D den(s) = nm(s)].  Where [den(s)] is
    not 0, [X / den(s)] then solves [s x = A x + B] and gives the output
    [nm(s) / den(s)]. *)
Definition realises (ss : StateSpace R) (nm den : list R) : Prop :=
  ∀ s : R,
    let X := powers s (length (A ss)) in
    state_derivative (A ss) (B ss) (poly_eval den s) X = vscale s X
    ∧ (dot (C ss) X + D ss * poly_eval den s)%R = poly_eval nm s.

(** Words for binary64 values: the number is -0; it is a zero, of either
    sign; it is a zero or a finite number, neither an infinity nor NaN. *)
Definition is_minus_zero (v : float) : bool :=
  match Prim2SF v with S754_zero true => true | _ => false end.

Definition is_zero (v : float) : bool :=
  match Prim2SF v with S754_zero _ => true | _ => false end.

Definition finite_double (v : float) : bool :=
  match Prim2SF v with S754_zero _ | S754_finite _ _ _ => true | _ => false end.

(** * Inputs of the examples *)

(** Proportional control of [1 / (s + 1)] with the clamp on: gain 10, no
    integral and no derivative action, a unit step, 5 steps of 0.01. *)
Definition saturating_P : Copia.Config (num := float) :=
  {| Copia.numerator := [1%float];
     Copia.denominator := [1%float; 1%float];
     Copia.kp := 10%float; Copia.ki := 0%float; Copia.kd := 0%float;
     Copia.simTime := dec 5 100; Copia.dt := dec 1 100;
     Copia.controlType := "step";
     Copia.amplitude := 1%float; Copia.frequency := 1%float;
     Copia.antiWindupType := "clamping";
     Copia.derivativeFilterType := "none";
     Copia.disturbanceAmplitude := 0%float |}.

(** Proportional control of the degenerate plant [1 / (0 s + 1)], three
    steps of 0.01. *)
Definition degenerate_plant : Profesor.Config (num := float) :=
  {| Profesor.numerator := [1%float];
     Profesor.denominator := [0%float; 1%float];
     Profesor.kp := 1%float; Profesor.ki := 0%float; Profesor.kd := 0%float;
     Profesor.simTime := dec 3 100; Profesor.dt := dec 1 100;
     Profesor.controlType := "step";
     Profesor.amplitude := 1%float; Profesor.frequency := 1%float |}.

(** A PI loop around [1 / (s + 1)] with the disturbance off, 5 steps of 0.01. *)
Definition quiet_PI : Copia.Config (num := float) :=
  {| Copia.numerator := [1%float];
     Copia.denominator := [1%float; 1%float];
     Copia.kp := 2%float; Copia.ki := 1%float; Copia.kd := 0.5%float;
     Copia.simTime := dec 5 100; Copia.dt := dec 1 100;
     Copia.controlType := "step";
     Copia.amplitude := 1%float; Copia.frequency := 1%float;
     Copia.antiWindupType := "clamping";
     Copia.derivativeFilterType := "firstOrder";
     Copia.disturbanceAmplitude := 0%float |}.


(** A PI loop around [1 / (s + 1)] over the reals: two steps of 1. *)
Definition unit_lag_real : Copia.Config (num := R) :=
  {| Copia.numerator := [1%R];
     Copia.denominator := [1%R; 1%R];
     Copia.kp := 2%R; Copia.ki := 1%R; Copia.kd := 0%R;
     Copia.simTime := 2%R; Copia.dt := 1%R;
     Copia.controlType := "step";
     Copia.amplitude := 1%R; Copia.frequency := 1%R;
     Copia.antiWindupType := "clamping";
     Copia.derivativeFilterType := "firstOrder";
     Copia.disturbanceAmplitude := 0%R |}.


Definition sluggish_run : SimulationData float :=
  {| time := [0%float; 1%float]; reference := [1%float; 1%float];
     output := [0%float; 0.5%float]; error := [1%float; 0.5%float];
     control := [0%float; 0%float] |}.

Definition overshooting_run : SimulationData R :=
  {| time := [0%R; 1%R]; reference := [1%R; 1%R];
     output := [0%R; (3 / 2)%R]; error := [1%R; (- (1 / 2))%R];
     control := [0%R; 0%R] |}.

(** An output that rises and falls three times, the last time a sample
    late, and an output that peaks at 2 every two samples in its latter
    half; the time is the sample number. *)
Definition uneven_output : list float :=
  [0; 1; 0; 1; 0; 0; 1; 0]%float.

Definition uneven_time : list float :=
  [0; 1; 2; 3; 4; 5; 6; 7]%float.

Definition oscillation : list float :=
  [0; 0; 0; 0; 0; 0; 0; 0; 0; 0; 2; 0; 2; 0; 2; 0; 2; 0]%float.

Definition oscillation_time : list float :=
  [0; 1; 2; 3; 4; 5; 6; 7; 8; 9; 10; 11; 12; 13; 14; 15; 16; 17]%float.

(** Profesor's page on [1 / (s + 1)] over the reals: PI control, two steps
    of 1, under a step of the given amplitude. *)
Definition unit_lag_Profesor (amplitude : R) : Profesor.Config (num := R) :=
  {| Profesor.numerator := [1%R];
     Profesor.denominator := [1%R; 1%R];
     Profesor.kp := 2%R; Profesor.ki := 1%R; Profesor.kd := 0%R;
     Profesor.simTime := 2%R; Profesor.dt := 1%R;
     Profesor.controlType := "step";
     Profesor.amplitude := amplitude; Profesor.frequency := 1%R |}.


(** An output that swings between 0 and 1, and one that never falls. *)
Definition low_oscillation : list float :=
  [0; 1; 0; 1; 0; 1; 0; 1]%float.

Definition rising_output : list float :=
  [0; 1; 1; 2; 2; 3; 3; 3]%float.

(** A run under the reference -1 whose output climbs from -1 to 0. *)
Definition climbing_run : SimulationData float :=
  {| time := [0; 1; 2]%float; reference := [-1; -1; -1]%float;
     output := [-1; -0.5; 0]%float; error := [0; -0.5; -1]%float;
     control := [0; 0; 0]%float |}.

(** A damped plant [x1' = x2, x2' = -2 x1 - 3 x2 + u] in binary64, at the
    state (0.1, -0.2). *)
Definition damped_A : list (list float) := [[0%float; 1%float]; [(-2)%float; (-3)%float]].

Definition damped_B : list float := [0%float; 1%float].

Definition damped_x : list float := [dec 1 10; dec (-2) 10].

(** * Properties *)

(** ** The plant *)

Section PlantFacts.
Context {num : Type} `{Number num}.
Local Open Scope js_scope.

Lemma matrix_is_ext n (M : list (list num)) g g' :
  (∀ i j, (i < n)%nat → (j < n)%nat → g i j = g' i j) →
  matrix_is n M g → matrix_is n M g'.
Proof.
  intros Hg [Hlen Hrows]. split; [done|].
  intros i Hi. destruct (Hrows i Hi) as (r & Hr & Hlr & Hent).
  exists r. split_and!; [done..|]. intros j Hj. rewrite Hent, Hg; done.
Qed.

Lemma matrix_is_zero n :
  matrix_is n (replicate n (replicate n (lit (num := num) 0))) (λ _ _, lit 0).
Proof.
  split; [by rewrite length_replicate|].
  intros i Hi. exists (replicate n (lit 0)).
  split_and!; [by apply lookup_replicate_2 | by rewrite length_replicate |].
  intros j Hj. by apply lookup_replicate_2.
Qed.

Lemma matrix_is_set2 n (M : list (list num)) g i j v :
  (i < n)%nat → (j < n)%nat → matrix_is n M g →
  matrix_is n (set2 M i j v)
    (λ r c, if decide (r = i ∧ c = j) then v else g r c).
Proof.
  intros Hi Hj [Hlen Hrows]. unfold set2. split; [by rewrite length_alter|].
  intros r Hr. destruct (Hrows r Hr) as (rw & Hrw & Hlrw & Hent).
  rewrite list_lookup_alter. destruct (decide (i = r)) as [->|Hne].
  - rewrite Hrw. simpl. eexists. split_and!; [done | by rewrite length_insert |].
    intros c Hc. rewrite list_lookup_insert.
    destruct (decide (j = c ∧ (j < length rw)%nat)) as [[-> _]|Hn].
    + by rewrite decide_True.
    + rewrite decide_False by (intros [_ ->]; apply Hn; split; [done | lia]).
      by apply Hent.
  - exists rw. split_and!; [done..|]. intros c Hc.
    rewrite decide_False by (intros [-> _]; done). by apply Hent.
Qed.

(** The two loops of [companion], one iteration after another. *)
Lemma companion_superdiagonal n k :
  (k ≤ n - 1)%nat →
  matrix_is n
    (foldl (λ M i, set2 M i (i + 1) (lit 1)) (replicate n (replicate n (lit 0))) (seq 0 k))
    (λ r c, if decide ((r < k)%nat ∧ c = (r + 1)%nat) then lit 1 else lit 0).
Proof.
  induction k as [|k IH]; intros Hk.
  - simpl. eapply matrix_is_ext; [|apply matrix_is_zero].
    intros i j _ _. cbv beta. repeat case_decide; done || lia.
  - rewrite seq_S, foldl_app. simpl.
    eapply matrix_is_ext; [|apply matrix_is_set2; [..|apply IH]]; [|lia..].
    intros i j _ _. cbv beta. repeat case_decide; try done; lia.
Qed.

Lemma companion_bottom_row n coef k :
  (k ≤ n)%nat →
  matrix_is n
    (foldl (λ M i, set2 M (n - 1) i (- coef i))
       (foldl (λ M i, set2 M i (i + 1) (lit 1)) (replicate n (replicate n (lit 0)))
          (seq 0 (n - 1)))
       (seq 0 k))
    (λ r c, if decide (r = (n - 1)%nat ∧ (c < k)%nat) then - coef c
            else if decide ((r < n - 1)%nat ∧ c = (r + 1)%nat) then lit 1 else lit 0).
Proof.
  induction k as [|k IH]; intros Hk.
  - simpl. eapply matrix_is_ext; [|apply companion_superdiagonal; lia].
    intros i j _ _. cbv beta. repeat case_decide; done || lia.
  - rewrite seq_S, foldl_app. simpl.
    eapply matrix_is_ext; [|apply matrix_is_set2; [..|apply IH]]; [|lia..].
    intros i j Hi Hj. cbv beta. repeat case_decide; try done; try lia.
    all: destruct_and?; subst; done.
Qed.

(** The matrix [companion] builds: ones on the superdiagonal, the negated
    coefficients in the bottom row, zeros elsewhere. *)
Lemma companion_spec n coef :
  matrix_is n (companion n coef)
    (λ i j, if decide (i = (n - 1)%nat) then - coef j
            else if decide (j = (i + 1)%nat) then lit 1 else lit 0).
Proof.
  unfold companion. eapply matrix_is_ext; [|apply (companion_bottom_row n coef n); lia].
  intros i j Hi Hj. cbv beta. repeat case_decide; try done; lia.
Qed.

Lemma unit_last_spec n :
  length (unit_last n) = n ∧
  ∀ i, (i < n)%nat →
    unit_last (num:=num) n !! i = Some (if decide (i = (n - 1)%nat) then lit 1 else lit 0).
Proof.
  destruct n as [|m]; [split; [done | lia]|].
  unfold unit_last. split; [by rewrite length_insert, length_replicate|].
  intros i Hi. rewrite list_lookup_insert, length_replicate.
  replace (S m - 1)%nat with m by lia.
  destruct (decide (i = m)) as [->|Hne].
  - by rewrite decide_True by (split; [done | lia]).
  - rewrite decide_False by (intros [-> _]; done).
    apply lookup_replicate_2. lia.
Qed.
End PlantFacts.

Section ConversionFacts.
Context {num : Type} `{Number num}.
Local Open Scope js_scope.

Lemma pad_numerator_proper n (nm : list num) :
  (length nm ≤ n + 1)%nat → pad_numerator n nm = Ok (padded n nm).
Proof.
  intros Hlen. unfold pad_numerator.
  by rewrite (proj2 (Nat.ltb_ge _ _) Hlen).
Qed.

Lemma pad_numerator_improper n (nm : list num) :
  (n + 1 < length nm)%nat → pad_numerator n nm = Throw RangeError.
Proof.
  intros Hlen. unfold pad_numerator.
  by rewrite (proj2 (Nat.ltb_lt _ _) Hlen).
Qed.

Lemma length_padded n (nm : list num) :
  (length nm ≤ n + 1)%nat → length (padded n nm) = S n.
Proof.
  intros Hlen. unfold padded. rewrite length_app, length_replicate. lia.
Qed.

Lemma length_normalized d0 (l : list num) : length (normalized d0 l) = length l.
Proof. apply length_fmap. Qed.

(** A loop [for (i = 0; i < n; i++) C[i] = g(i)] over an array of length [n]. *)
Lemma foldl_insert_seq (g : nat → num) (l : list num) k :
  (k ≤ length l)%nat →
  foldl (λ C i, <[i := g i]> C) l (seq 0 k) = (g <$> seq 0 k) ++ drop k l.
Proof.
  induction k as [|k IH]; intros Hk; [by rewrite drop_0|].
  rewrite seq_S, foldl_app, IH by lia. simpl.
  destruct (lookup_lt_is_Some_2 l k) as [y Hy]; [lia|].
  rewrite (drop_S _ _ _ Hy), fmap_app, <- app_assoc. simpl.
  rewrite insert_app_r_alt by (rewrite length_fmap, length_seq; lia).
  rewrite length_fmap, length_seq, Nat.sub_diag. done.
Qed.

Lemma foldl_insert_all (g : nat → num) (l : list num) n :
  length l = n →
  foldl (λ C i, <[i := g i]> C) l (seq 0 n) = g <$> seq 0 n.
Proof.
  intros <-. rewrite foldl_insert_seq by done. by rewrite drop_all, app_nil_r.
Qed.

Lemma length_foldl_insert (g : nat → num) (xs : list nat) (l : list num) :
  length (foldl (λ C i, <[i := g i]> C) l xs) = length l.
Proof.
  revert l. induction xs as [|i xs IH]; intros l; [done|].
  simpl. by rewrite IH, length_insert.
Qed.

(** What Copia's conversion returns on a proper transfer function. *)
Lemma Copia_tfToStateSpace_proper (nm rest : list num) (d0 : num) :
  (d0 =? lit 0) = false → (length nm ≤ S (length rest))%nat →
  let n := length rest in
  Copia.tfToStateSpace nm (d0 :: rest) =
    Ok {| A := companion n (λ i, aget (normalized d0 (d0 :: rest)) (n - i));
          B := unit_last n;
          C := drop 1 (padded n (normalized d0 nm));
          D := aget (padded n (normalized d0 nm)) 0 |}.
Proof.
  intros Hd0 Hlen n. unfold Copia.tfToStateSpace. rewrite Hd0.
  rewrite length_fmap.
  replace (length (d0 :: rest) - 1)%nat with (length rest) by (simpl; lia).
  fold (normalized d0 nm). fold (normalized d0 (d0 :: rest)).
  rewrite pad_numerator_proper by (rewrite length_normalized; lia).
  done.
Qed.

(** What Profesor's conversion returns on a proper transfer function. *)
Lemma Profesor_tfToStateSpace_proper (nm rest : list num) (d0 : num) :
  (length nm ≤ S (length rest))%nat →
  let n := length rest in
  let num_padded := padded n (normalized d0 nm) in
  Profesor.tfToStateSpace nm (d0 :: rest) =
    Ok {| A := companion n (λ i, aget (normalized d0 rest) (n - 1 - i));
          B := unit_last n;
          C := (λ i, aget num_padded (n - i)
                     - aget num_padded 0 * aget (normalized d0 rest) (n - 1 - i))
               <$> seq 0 n;
          D := aget num_padded 0 |}.
Proof.
  intros Hlen n num_padded. unfold Profesor.tfToStateSpace.
  change (aget (d0 :: rest) 0) with d0.
  rewrite fmap_cons. simpl drop. rewrite drop_0.
  fold (normalized d0 nm). fold (normalized d0 rest).
  rewrite length_normalized. fold n.
  rewrite pad_numerator_proper by (rewrite length_normalized; lia).
  fold num_padded. f_equal. f_equal.
  etrans.
  { apply foldl_insert_all.
    etrans; [apply length_foldl_insert | apply length_replicate]. }
  apply list_fmap_ext. intros i j Hj.
  apply lookup_seq in Hj as [-> Hj].
  unfold num_padded. rewrite length_padded by (rewrite length_normalized; lia).
  do 2 f_equal. lia.
Qed.
End ConversionFacts.

(** ** Claims on the conversion *)

(** C1, as stated, fails on a transfer function the specification accepts: a
    numerator longer than the denominator makes the padding ask for an array
    of negative length, and the conversion throws before it builds [A]. *)
Lemma tfToStateSpace_improper_throws :
  Copia.tfToStateSpace [1%float; 2%float; 3%float] [1%float; 1%float] = Throw RangeError
  ∧ Profesor.tfToStateSpace [1%float; 2%float; 3%float] [1%float; 1%float]
    = Throw RangeError.
Proof. split; vm_compute; reflexivity. Qed.

(** C1 (amended): for every transfer function with a non-empty denominator, a
    non-zero leading coefficient and a numerator of at most [n + 1]
    coefficients, both conversions return a model whose [A] is the [n] by [n]
    companion matrix and whose [B] is the unit vector with 1 in the last
    position; and for the denominator [1, 3, 2] they return
    [A = [[0,1],[-2,-3]]] and [B = [0,1]]. *)
Theorem tfToStateSpace_companion_form :
  (∀ (num : Type) (H : Number num) (nm rest : list num) (d0 : num),
     eqb d0 (lit 0) = false → (length nm ≤ S (length rest))%nat →
     ∃ ssC ssP,
       Copia.tfToStateSpace nm (d0 :: rest) = Ok ssC
       ∧ Profesor.tfToStateSpace nm (d0 :: rest) = Ok ssP
       ∧ matrix_is (length rest) (A ssC)
           (companion_entry (length rest) (normalized d0 (d0 :: rest)))
       ∧ matrix_is (length rest) (A ssP)
           (companion_entry (length rest) (normalized d0 (d0 :: rest)))
       ∧ B ssP = B ssC
       ∧ length (B ssC) = length rest
       ∧ ∀ i, (i < length rest)%nat → B ssC !! i = Some (unit_entry (length rest) i))
  ∧ (∀ nm : list float, (length nm ≤ 3)%nat →
       ∃ ssC ssP,
         Copia.tfToStateSpace nm [1%float; 3%float; 2%float] = Ok ssC
         ∧ Profesor.tfToStateSpace nm [1%float; 3%float; 2%float] = Ok ssP
         ∧ A ssC = [[0%float; 1%float]; [(-2)%float; (-3)%float]]
         ∧ B ssC = [0%float; 1%float]
         ∧ A ssP = A ssC ∧ B ssP = B ssC).
Proof.
  split.
  - intros num H nm rest d0 Hd0 Hlen.
    eexists _, _. split; [by apply Copia_tfToStateSpace_proper|].
    split; [by apply Profesor_tfToStateSpace_proper|]. simpl.
    split_and!.
    + eapply matrix_is_ext; [|apply companion_spec]. done.
    + eapply matrix_is_ext; [|apply companion_spec].
      intros i j Hi Hj. unfold companion_entry. cbv beta.
      case_decide; [|done]. apply (f_equal opp). unfold aget, normalized.
      replace (length rest - j)%nat with (S (length rest - 1 - j)) by lia.
      done.
    + done.
    + apply unit_last_spec.
    + apply unit_last_spec.
  - intros nm Hlen.
    destruct nm as [|a [|b [|c [|? ?]]]]; simpl in Hlen; try lia;
      (eexists _, _; split; [vm_compute; reflexivity|];
       split; [vm_compute; reflexivity|]; split_and!; reflexivity).
Qed.

(** The general part of C1 at the denominator [1, 3, 2] and numerator [1]. *)
Lemma tfToStateSpace_companion_form_witness :
  eqb 1%float (lit 0) = false ∧ (length [1%float] ≤ 3)%nat ∧
  ∃ ssC ssP,
    Copia.tfToStateSpace [1%float] [1%float; 3%float; 2%float] = Ok ssC
    ∧ Profesor.tfToStateSpace [1%float] [1%float; 3%float; 2%float] = Ok ssP
    ∧ matrix_is 2 (A ssC) (companion_entry 2 (normalized 1%float [1%float; 3%float; 2%float]))
    ∧ matrix_is 2 (A ssP) (companion_entry 2 (normalized 1%float [1%float; 3%float; 2%float]))
    ∧ B ssP = B ssC
    ∧ length (B ssC) = 2%nat
    ∧ ∀ i, (i < 2)%nat → B ssC !! i = Some (unit_entry 2 i).
Proof.
  split; [reflexivity|]. split; [simpl; lia|].
  apply (proj1 tfToStateSpace_companion_form float _ [1%float] [3%float; 2%float] 1%float).
  - reflexivity.
  - simpl; lia.
Defined.

(** C2, as stated, fails on Profesor's conversion: for [1 / (s^2 + 3 s + 2)]
    the padded numerator is [0, 0, 1], its tail is [0, 1], and Profesor
    returns [C = [1, 0]]. *)
Lemma Profesor_C_is_not_the_padded_tail :
  ∃ ss, Profesor.tfToStateSpace [1%float] [1%float; 3%float; 2%float] = Ok ss
    ∧ C ss = [1%float; 0%float]
    ∧ drop 1 (padded 2 (normalized 1%float [1%float])) = [0%float; 1%float]
    ∧ C ss ≠ drop 1 (padded 2 (normalized 1%float [1%float])).
Proof.
  eexists. split; [vm_compute; reflexivity|]. split; [reflexivity|].
  split; [vm_compute; reflexivity|].
  intros Heq.
  apply (f_equal (λ l : list float,
            match l with v :: _ => PrimFloat.eqb v 1 | [] => false end)) in Heq.
  vm_compute in Heq. discriminate.
Qed.

(** C2 (amended): for every transfer function with a non-zero leading
    denominator coefficient and a numerator of at most [n + 1] coefficients,
    with both lists normalized and the numerator padded to [n + 1]: both
    conversions return [D] equal to the first padded coefficient; Copia
    returns [C] equal to the padded numerator without its first element, in
    that order; Profesor returns [C[i] = padded[n-i] - padded[0] * den[n-i]]. *)
Theorem tfToStateSpace_output_row (num : Type) (H : Number num)
    (nm rest : list num) (d0 : num) :
  eqb d0 (lit 0) = false → (length nm ≤ S (length rest))%nat →
  let n := length rest in
  let den := normalized d0 (d0 :: rest) in
  let num_padded := padded n (normalized d0 nm) in
  length num_padded = S n
  ∧ (∃ ss, Copia.tfToStateSpace nm (d0 :: rest) = Ok ss
       ∧ C ss = drop 1 num_padded
       ∧ num_padded !! 0%nat = Some (D ss))
  ∧ (∃ ss, Profesor.tfToStateSpace nm (d0 :: rest) = Ok ss
       ∧ C ss = (λ i, sub (aget num_padded (n - i))
                          (mul (aget num_padded 0) (aget den (n - i)))) <$> seq 0 n
       ∧ num_padded !! 0%nat = Some (D ss)).
Proof.
  intros Hd0 Hlen n den num_padded.
  assert (Hl : length num_padded = S n)
    by (apply length_padded; rewrite length_normalized; lia).
  assert (H0 : num_padded !! 0%nat = Some (aget num_padded 0)).
  { unfold aget. destruct (lookup_lt_is_Some_2 num_padded 0) as [y ->]; [lia | done]. }
  split; [done|]. split.
  - eexists. split; [by apply Copia_tfToStateSpace_proper|]. by simpl.
  - eexists. split; [by apply Profesor_tfToStateSpace_proper|]. simpl.
    split; [|done]. apply list_fmap_ext. intros i j Hj.
    apply lookup_seq in Hj as [-> Hj]. do 2 f_equal.
    unfold den, aget, normalized. rewrite fmap_cons. cbn [Nat.add].
    replace (n - i)%nat with (S (n - 1 - i)) by lia. done.
Qed.

(** C2 (amended) at [1 / (s^2 + 3 s + 2)]. *)
Lemma tfToStateSpace_output_row_witness :
  (∃ ss, Copia.tfToStateSpace [1%float] [1%float; 3%float; 2%float] = Ok ss
     ∧ C ss = [0%float; 1%float] ∧ D ss = 0%float)
  ∧ (∃ ss, Profesor.tfToStateSpace [1%float] [1%float; 3%float; 2%float] = Ok ss
     ∧ C ss = [1%float; 0%float] ∧ D ss = 0%float).
Proof.
  destruct (tfToStateSpace_output_row float _ [1%float] [3%float; 2%float] 1%float)
    as (_ & (ssC & HC & HCc & HCd) & (ssP & HP & HPc & HPd)).
  - reflexivity.
  - simpl; lia.
  - split.
    + exists ssC. split; [exact HC|]. split.
      * rewrite HCc. vm_compute. reflexivity.
      * vm_compute in HCd. by apply (f_equal (default 0%float)) in HCd.
    + exists ssP. split; [exact HP|]. split.
      * rewrite HPc. vm_compute. reflexivity.
      * vm_compute in HPd. by apply (f_equal (default 0%float)) in HPd.
Defined.

(** ** Arrays read by index *)

Section ArrayFacts.
Context {num : Type} `{Number num}.

Lemma aget_lookup (l : list num) i v : l !! i = Some v → aget l i = v.
Proof. unfold aget. by intros ->. Qed.

Lemma lookup_aget (l : list num) i : (i < length l)%nat → l !! i = Some (aget l i).
Proof.
  intros Hi. destruct (lookup_lt_is_Some_2 l i Hi) as [v Hv].
  by rewrite (aget_lookup _ _ _ Hv).
Qed.

Lemma list_eq_aget (l1 l2 : list num) :
  length l1 = length l2 →
  (∀ i, (i < length l1)%nat → aget l1 i = aget l2 i) →
  l1 = l2.
Proof.
  intros Hlen Hent. apply list_eq. intros i.
  destruct (decide (i < length l1)%nat) as [Hi|Hi].
  - rewrite (lookup_aget l1), (lookup_aget l2) by lia. by rewrite Hent.
  - rewrite !(proj2 (lookup_ge_None _ _)); [done | lia..].
Qed.

Lemma aget_fmap (g : num → num) (l : list num) i :
  (i < length l)%nat → aget (g <$> l) i = g (aget l i).
Proof.
  intros Hi. apply aget_lookup. by rewrite list_lookup_fmap, (lookup_aget l).
Qed.

Lemma aget_imap (g : nat → num → num) (l : list num) i :
  (i < length l)%nat → aget (imap g l) i = g i (aget l i).
Proof.
  intros Hi. apply aget_lookup. by rewrite list_lookup_imap, (lookup_aget l).
Qed.

Lemma aget_fmap_seq (g : nat → num) n i : (i < n)%nat → aget (g <$> seq 0 n) i = g i.
Proof.
  intros Hi. apply aget_lookup. rewrite list_lookup_fmap.
  by rewrite (proj2 (lookup_seq 0 n i i)).
Qed.

Lemma length_rungeKutta_f (A : list (list num)) B u n xv :
  length (rungeKutta_f A B u n xv) = n.
Proof. unfold rungeKutta_f. by rewrite length_fmap, length_seq. Qed.

Lemma length_rungeKutta (A : list (list num)) B x u dt :
  length (rungeKutta A B x u dt) = length x.
Proof. unfold rungeKutta. by rewrite length_imap. Qed.
End ArrayFacts.

(** ** The integrator over the reals *)

Section RungeKuttaFacts.
Local Open Scope R_scope.

Lemma length_vadd a b : length (vadd a b) = Nat.min (length a) (length b).
Proof. apply length_zip_with. Qed.

Lemma length_vscale c a : length (vscale c a) = length a.
Proof. apply length_fmap. Qed.

Lemma aget_vadd a b i :
  (i < length a)%nat → (i < length b)%nat → aget (vadd a b) i = aget a i + aget b i.
Proof.
  intros Ha Hb. apply aget_lookup. unfold vadd.
  rewrite lookup_zip_with, (lookup_aget a), (lookup_aget b) by done. done.
Qed.

Lemma aget_vscale c a i : (i < length a)%nat → aget (vscale c a) i = c * aget a i.
Proof. intros Ha. unfold vscale. by rewrite aget_fmap. Qed.

(** The inner loop of the closure [f] is the product of the row with the state. *)
Lemma foldl_row_dot (r xv : list R) (a : R) :
  length r = length xv →
  foldl (λ acc j, acc + aget r j * aget xv j) a (seq 0 (length r)) = a + dot r xv.
Proof.
  revert xv a. induction r as [|r0 r IH]; intros [|x0 xv] a Hlen; try done.
  - simpl. unfold dot. simpl. lra.
  - simpl length. rewrite <- cons_seq, <- fmap_S_seq. simpl foldl.
    rewrite foldl_fmap. simpl in Hlen.
    etrans; [apply (IH xv (a + r0 * x0)); lia|].
    unfold dot. simpl. lra.
Qed.

Lemma length_state_derivative A B u x :
  length (state_derivative A B u x) = Nat.min (length A) (length B).
Proof. apply length_zip_with. Qed.

(** On a model of the state's dimension, the closure [f] of [rungeKutta] is
    the derivative of the specification. *)
Lemma rungeKutta_f_is_derivative (A : list (list R)) (B : list R) (u : R) n (xv : list R) :
  length xv = n → length A = n → Forall (λ r, length r = n) A → length B = n →
  rungeKutta_f A B u n xv = state_derivative A B u xv.
Proof.
  intros <- HA Hrows HB. apply list_eq_aget.
  - rewrite length_rungeKutta_f, length_state_derivative. lia.
  - intros i Hi. rewrite length_rungeKutta_f in Hi.
    unfold rungeKutta_f. rewrite aget_fmap_seq by done.
    destruct (lookup_lt_is_Some_2 A i) as [r Hr]; [lia|].
    assert (Hlr : length r = length xv)
      by exact (proj1 (Forall_lookup _ _) Hrows i r Hr).
    unfold row. rewrite Hr. simpl default.
    rewrite <- Hlr. etrans; [apply (f_equal (λ v, v + _))|].
    { apply (foldl_row_dot r xv). done. }
    symmetry. apply aget_lookup. unfold state_derivative.
    rewrite lookup_zip_with, Hr, (lookup_aget B) by lia. simpl.
    f_equal. unfold lit. simpl. lra.
Qed.

(** The stage points: [x.map((v, i) => v + 0.5 * k[i])] and
    [x.map((v, i) => v + k[i])], where [k] is a derivative times [dt]. *)
Lemma stage_half (x k : list R) (dt : R) :
  length k = length x →
  imap (λ i v, (v + dec 5 10 * aget ((λ w, w * dt) <$> k) i)%js) x
  = vadd x (vscale (dt / 2) k).
Proof.
  intros Hk. apply list_eq_aget.
  - rewrite length_imap, length_vadd, length_vscale. lia.
  - intros i Hi. rewrite length_imap in Hi.
    rewrite aget_imap, aget_vadd, aget_vscale, aget_fmap
      by (rewrite ?length_vscale; lia).
    unfold dec. simpl. lra.
Qed.

Lemma stage_full (x k : list R) (dt : R) :
  length k = length x →
  imap (λ i v, (v + aget ((λ w, w * dt) <$> k) i)%js) x = vadd x (vscale dt k).
Proof.
  intros Hk. apply list_eq_aget.
  - rewrite length_imap, length_vadd, length_vscale. lia.
  - intros i Hi. rewrite length_imap in Hi.
    rewrite aget_imap, aget_vadd, aget_vscale, aget_fmap
      by (rewrite ?length_vscale; lia).
    simpl. lra.
Qed.

(** The last line of [rungeKutta]. *)
Lemma combine_stages (x k1 k2 k3 k4 : list R) (dt : R) :
  length k1 = length x → length k2 = length x →
  length k3 = length x → length k4 = length x →
  imap (λ i v, (v + (aget ((λ w, w * dt) <$> k1) i
                     + lit 2 * aget ((λ w, w * dt) <$> k2) i
                     + lit 2 * aget ((λ w, w * dt) <$> k3) i
                     + aget ((λ w, w * dt) <$> k4) i) / lit 6)%js) x
  = vadd x (vscale (dt / 6) (vadd (vadd (vadd k1 (vscale 2 k2)) (vscale 2 k3)) k4)).
Proof.
  intros H1 H2 H3 H4.
  assert (Hl : length (vadd (vadd (vadd k1 (vscale 2 k2)) (vscale 2 k3)) k4) = length x)
    by (rewrite !length_vadd, !length_vscale; lia).
  apply list_eq_aget.
  - rewrite length_imap, length_vadd, length_vscale. lia.
  - intros i Hi. rewrite length_imap in Hi.
    rewrite aget_imap, aget_vadd, aget_vscale by (rewrite ?length_vscale; lia).
    rewrite !aget_vadd, !aget_vscale, !aget_fmap
      by (rewrite ?length_vadd, ?length_vscale; lia).
    unfold lit. simpl. lra.
Qed.
End RungeKuttaFacts.

(** ** The integrator in any arithmetic *)

Section IntegratorFacts.
Context {num : Type} `{Number num}.
Local Open Scope js_scope.

Lemma aget_zip_with (g : num → num → num) (a b : list num) i :
  (i < length a)%nat → (i < length b)%nat →
  aget (zip_with g a b) i = g (aget a i) (aget b i).
Proof.
  intros Ha Hb. apply aget_lookup.
  rewrite lookup_zip_with, (lookup_aget a), (lookup_aget b) by done. done.
Qed.

Lemma length_vec_add (a b : list num) n :
  length a = n → length b = n → length (vec_add a b) = n.
Proof. intros Ha Hb. unfold vec_add. rewrite length_zip_with. lia. Qed.

Lemma length_vec_scale (c : num) (a : list num) : length (vec_scale c a) = length a.
Proof. apply length_fmap. Qed.

Lemma length_derivative_of (A : list (list num)) (B : list num) u x n :
  length A = n → length B = n → length (derivative_of A B u x) = n.
Proof. intros HA HB. unfold derivative_of. rewrite length_zip_with. lia. Qed.

(** The inner loop of the closure [f] adds the products of a row with the
    state in the order of the columns. *)
Lemma foldl_row_product (r xv : list num) (a : num) :
  length r = length xv →
  foldl (λ acc j, acc + aget r j * aget xv j) a (seq 0 (length r))
  = foldl add a (zip_with mul r xv).
Proof.
  revert xv a. induction r as [|r0 r IH]; intros [|x0 xv] a Hlen; try done.
  simpl length. rewrite <- cons_seq, <- fmap_S_seq. simpl foldl.
  rewrite foldl_fmap. simpl in Hlen.
  apply (IH xv (a + r0 * x0)). lia.
Qed.

Lemma rungeKutta_f_is_derivative_of (A : list (list num)) (B : list num) (u : num) n
    (xv : list num) :
  length xv = n → length A = n → Forall (λ r, length r = n) A → length B = n →
  rungeKutta_f A B u n xv = derivative_of A B u xv.
Proof.
  intros <- HA Hrows HB. apply list_eq_aget.
  - rewrite length_rungeKutta_f. symmetry. by apply length_derivative_of.
  - intros i Hi. rewrite length_rungeKutta_f in Hi.
    unfold rungeKutta_f. rewrite aget_fmap_seq by done.
    destruct (lookup_lt_is_Some_2 A i) as [r Hr]; [lia|].
    assert (Hlr : length r = length xv)
      by exact (proj1 (Forall_lookup _ _) Hrows i r Hr).
    unfold row. rewrite Hr. simpl default.
    rewrite <- Hlr, foldl_row_product by done.
    symmetry. apply aget_lookup. unfold derivative_of.
    by rewrite lookup_zip_with, Hr, (lookup_aget B) by lia.
Qed.

Lemma stage_scaled (c : num) (x k : list num) :
  length k = length x →
  imap (λ i v, v + c * aget k i) x = vec_add x (vec_scale c k).
Proof.
  intros Hk. apply list_eq_aget.
  - rewrite length_imap. symmetry.
    apply length_vec_add; [done | by rewrite length_vec_scale].
  - intros i Hi. rewrite length_imap in Hi.
    rewrite aget_imap by done. unfold vec_add, vec_scale.
    rewrite aget_zip_with, aget_fmap by (rewrite ?length_fmap; lia). done.
Qed.

Lemma stage_whole (x k : list num) :
  length k = length x → imap (λ i v, v + aget k i) x = vec_add x k.
Proof.
  intros Hk. apply list_eq_aget.
  - rewrite length_imap. symmetry. by apply length_vec_add.
  - intros i Hi. rewrite length_imap in Hi.
    rewrite aget_imap by done. unfold vec_add.
    rewrite aget_zip_with by lia. done.
Qed.

Lemma combine_scaled (x k1 k2 k3 k4 : list num) :
  length k1 = length x → length k2 = length x →
  length k3 = length x → length k4 = length x →
  imap (λ i v, v + (aget k1 i + lit 2 * aget k2 i + lit 2 * aget k3 i + aget k4 i)
                   / lit 6) x
  = zip_with (λ v k, v + k / lit 6) x
      (vec_add (vec_add (vec_add k1 (vec_scale (lit 2) k2)) (vec_scale (lit 2) k3)) k4).
Proof.
  intros H1 H2 H3 H4.
  assert (Hl : length (vec_add (vec_add (vec_add k1 (vec_scale (lit 2) k2))
                                   (vec_scale (lit 2) k3)) k4) = length x)
    by (repeat apply length_vec_add; rewrite ?length_vec_scale; done).
  apply list_eq_aget.
  - rewrite length_imap, length_zip_with. lia.
  - intros i Hi. rewrite length_imap in Hi.
    rewrite aget_imap, aget_zip_with by lia.
    unfold vec_add, vec_scale in *.
    rewrite !aget_zip_with, !aget_fmap
      by (rewrite ?length_zip_with, ?length_fmap; lia).
    done.
Qed.

Lemma rungeKutta_is_rk4_scaled (A : list (list num)) (B x : list num) (u dt : num) :
  length A = length x → Forall (λ r, length r = length x) A → length B = length x →
  rungeKutta A B x u dt = rk4_scaled A B x u dt.
Proof.
  intros HA Hrows HB. unfold rungeKutta, rk4_scaled.
  assert (Hf : ∀ xv, length xv = length x →
            rungeKutta_f A B u (length x) xv = derivative_of A B u xv)
    by (intros xv Hxv; by apply rungeKutta_f_is_derivative_of).
  assert (Hlen : ∀ xv, length ((λ w, w * dt) <$> derivative_of A B u xv) = length x)
    by (intros xv; rewrite length_fmap; by apply length_derivative_of).
  assert (Hst : ∀ k, length k = length x → length (vec_add x k) = length x)
    by (intros k Hk; by apply length_vec_add).
  rewrite (Hf x) by done.
  rewrite stage_scaled by apply Hlen.
  rewrite (Hf (vec_add x (vec_scale _ _)))
    by (apply Hst; rewrite length_vec_scale; apply Hlen).
  rewrite stage_scaled by apply Hlen.
  rewrite (Hf (vec_add x (vec_scale _ _)))
    by (apply Hst; rewrite length_vec_scale; apply Hlen).
  rewrite stage_whole by apply Hlen.
  rewrite (Hf (vec_add x _)) by (apply Hst, Hlen).
  apply combine_scaled; apply Hlen.
Qed.
End IntegratorFacts.

(** Over the reals the two readings of the words agree. *)
Lemma foldl_Rplus (l : list R) (a : R) : foldl Rplus a l = (a + foldr Rplus 0 l)%R.
Proof.
  revert a. induction l as [|b l IH]; intros a; simpl; [lra|]. rewrite IH. lra.
Qed.

Lemma derivative_of_real (A : list (list R)) (B : list R) (u : R) (x : list R) :
  derivative_of A B u x = state_derivative A B u x.
Proof.
  unfold derivative_of, state_derivative. apply zip_with_ext; [|done..].
  intros r b. unfold row_product, dot. simpl. rewrite foldl_Rplus. unfold lit. simpl. lra.
Qed.

Lemma rk4_standard_real (A : list (list R)) (B x : list R) (u dt : R) :
  rk4_standard A B x u dt = rk4_update A B x u dt.
Proof. unfold rk4_standard. rewrite !derivative_of_real. reflexivity. Qed.

(** ** Claim on the integrator *)

(** For every state-space model [(A, B)] of the dimension of the state [x],
    every held control [u] and every step [dt], [rungeKutta] returns
    [x + dt/6 (k1 + 2 k2 + 2 k3 + k4)], the [k]'s being the derivative
    [f(x) = A x + B u] at [x], [x + dt/2 k1], [x + dt/2 k2] and [x + dt k3];
    the arithmetic is that of the real numbers. *)
Lemma rungeKutta_is_rk4 (A : list (list R)) (B x : list R) (u dt : R) :
  length A = length x → Forall (λ r, length r = length x) A → length B = length x →
  rungeKutta A B x u dt = rk4_update A B x u dt.
Proof.
  intros HA Hrows HB. unfold rungeKutta, rk4_update.
  assert (Hf : ∀ xv, length xv = length x →
            rungeKutta_f A B u (length x) xv = state_derivative A B u xv)
    by (intros xv Hxv; by apply rungeKutta_f_is_derivative).
  assert (Hlen : ∀ xv, length (state_derivative A B u xv) = length x)
    by (intros xv; rewrite length_state_derivative; lia).
  assert (Hst : ∀ c k, length k = length x → length (vadd x (vscale c k)) = length x)
    by (intros c k Hk; rewrite length_vadd, length_vscale; lia).
  rewrite (Hf x) by done.
  rewrite stage_half by apply Hlen.
  rewrite (Hf (vadd x (vscale (dt / 2) (state_derivative A B u x))))
    by (apply Hst, Hlen).
  rewrite stage_half by apply Hlen.
  rewrite (Hf (vadd x (vscale (dt / 2) _))) by (apply Hst, Hlen).
  rewrite stage_full by apply Hlen.
  rewrite (Hf (vadd x (vscale dt _))) by (apply Hst, Hlen).
  apply combine_stages; apply Hlen.
Qed.

(** The plant update of [simulatePID] over the reals: one step of the
    semi-implicit Euler method, the new [omega] first and [theta] from it. *)
Lemma Corregida_plant_is_euler (theta omega u dt : R) :
  Corregida.plant theta omega u dt
  = ((theta + (omega + (- (98 / 10) * theta + u) * dt) * dt)%R,
     (omega + (- (98 / 10) * theta + u) * dt)%R).
Proof.
  unfold Corregida.plant, Corregida.g, Corregida.L, dec, lit. simpl.
  f_equal; field.
Qed.

(** C3, as stated, fails twice.  On the integrator of [simulatePID]: from
    rest, with [u = 1] and [dt = 1], the Runge-Kutta update of its plant is
    [(11/120, -19/30)], and the script moves the state to [(1, 1)], over the
    reals and in binary64 alike.  On [rungeKutta] in binary64: for the damped
    plant at (0.1, -0.2) with [u = 0.7] and [dt = 0.01] the second entry it
    returns is -0.189143922375, and the update grouped as the claim writes it
    is the next double, -0.18914392237500002. *)
Lemma scripts_depart_from_the_rk4_update :
  rk4_update pendulum_A pendulum_B [0; 0]%R 1%R 1%R = [(11 / 120)%R; (- (19 / 30))%R]
  ∧ Corregida.plant 0%R 0%R 1%R 1%R = (1%R, 1%R)
  ∧ Corregida.plant 0%float 0%float 1%float 1%float = (1%float, 1%float)
  ∧ Prim2SF <$> rungeKutta damped_A damped_B damped_x (dec 7 10) (dec 1 100)
    = [S754_finite false 7065572750707890 (-56);
       S754_finite true 6814627986619552 (-55)]
  ∧ Prim2SF <$> rk4_standard damped_A damped_B damped_x (dec 7 10) (dec 1 100)
    = [S754_finite false 7065572750707890 (-56);
       S754_finite true 6814627986619553 (-55)].
Proof.
  split_and!.
  - unfold rk4_update, state_derivative, vadd, vscale, dot, pendulum_A, pendulum_B.
    simpl. f_equal; [lra | f_equal; lra].
  - rewrite Corregida_plant_is_euler. f_equal; lra.
  - vm_compute. reflexivity.
  - vm_compute. reflexivity.
  - vm_compute. reflexivity.
Qed.

(** C3 (amended): for every state-space model [(A, B)] of the dimension of
    the state [x], every held control [u] and every step [dt], the integrator
    [rungeKutta] of Copia and Profesor returns, in any arithmetic and so in
    binary64, the update with its stages scaled by the step first,
    [x + (K1 + 2 K2 + 2 K3 + K4) / 6], the [K]'s being [dt] times the
    derivative [f(x) = A x + B u] at [x], [x + 0.5 K1], [x + 0.5 K2] and
    [x + K3]; in the arithmetic of the real numbers that is exactly
    [x + dt/6 (k1 + 2 k2 + 2 k3 + k4)], the [k]'s being the derivative at
    [x], [x + dt/2 k1], [x + dt/2 k2] and [x + dt k3].  Corregida's
    [simulatePID] advances its fixed plant by one semi-implicit Euler step
    instead.  Both embeddings are functions of their arguments, which they do
    not change. *)
Theorem integrators_of_the_scripts :
  (∀ (num : Type) (H : Number num) (A : list (list num)) (B x : list num) (u dt : num),
     length A = length x → Forall (λ r, length r = length x) A →
     length B = length x →
     rungeKutta A B x u dt = rk4_scaled A B x u dt)
  ∧ (∀ (A : list (list R)) (B x : list R) (u dt : R),
       length A = length x → Forall (λ r, length r = length x) A →
       length B = length x →
       rungeKutta A B x u dt = rk4_update A B x u dt)
  ∧ (∀ theta omega u dt : R,
       Corregida.plant theta omega u dt
       = ((theta + (omega + (- (98 / 10) * theta + u) * dt) * dt)%R,
          (omega + (- (98 / 10) * theta + u) * dt)%R)).
Proof.
  split_and!.
  - intros num H. apply rungeKutta_is_rk4_scaled.
  - apply rungeKutta_is_rk4.
  - apply Corregida_plant_is_euler.
Qed.

(** In binary64 [rungeKutta] moves the double integrator from rest, with
    [u = 1] and [dt = 1], to [(0.5, 1)]: no operation rounds on these values. *)
Example rungeKutta_double_integrator_binary64 :
  rungeKutta [[0; 1]; [0; 0]]%float [0; 1]%float [0; 0]%float 1%float 1%float
  = [0.5; 1]%float.
Proof. vm_compute. reflexivity. Qed.

(** C3 (amended) on the damped plant in binary64, and on the double
    integrator [x1' = x2, x2' = u] over the reals, from rest with [u = 1] and
    [dt = 1], where the update is [(1/2, 1)]. *)
Lemma integrators_of_the_scripts_witness :
  rungeKutta damped_A damped_B damped_x (dec 7 10) (dec 1 100)
  = rk4_scaled damped_A damped_B damped_x (dec 7 10) (dec 1 100)
  ∧ rungeKutta [[0; 1]; [0; 0]]%R [0; 1]%R [0; 0]%R 1%R 1%R
    = rk4_update [[0; 1]; [0; 0]]%R [0; 1]%R [0; 0]%R 1%R 1%R
  ∧ rk4_update [[0; 1]; [0; 0]]%R [0; 1]%R [0; 0]%R 1%R 1%R = [(1 / 2)%R; 1%R].
Proof.
  destruct integrators_of_the_scripts as (Hscaled & Hreal & _).
  split_and!.
  - apply (Hscaled float _ damped_A damped_B damped_x).
    + reflexivity.
    + repeat constructor.
    + reflexivity.
  - apply Hreal.
    + reflexivity.
    + repeat constructor.
    + reflexivity.
  - unfold rk4_update, state_derivative, vadd, vscale, dot. simpl.
    f_equal; [lra | f_equal; lra].
Defined.

(** ** Claims on degenerate plants and on saturation *)

Section DegenerateFacts.
Context {num : Type} `{Number num}.
Local Open Scope js_scope.

(** Copia's conversion throws on an empty denominator and on a zero leading
    coefficient, whatever the numerator. *)
Lemma Copia_tfToStateSpace_rejects (nm den : list num) :
  den = [] ∨ (∃ d0 rest, den = d0 :: rest ∧ (d0 =? lit 0) = true) →
  ∃ msg, Copia.tfToStateSpace nm den = Throw (Error msg).
Proof.
  intros [-> | (d0 & rest & -> & Hd0)]; simpl; [by eexists|].
  rewrite Hd0. by eexists.
Qed.

(** Profesor's conversion has no such exit: it throws nothing but the
    RangeError of the padding. *)
Lemma Profesor_tfToStateSpace_never_rejects (nm den : list num) msg :
  Profesor.tfToStateSpace nm den ≠ Throw (Error msg).
Proof.
  unfold Profesor.tfToStateSpace, pad_numerator. cbv zeta.
  by destruct (_ <? _)%nat.
Qed.

(** The saturated branches of the controller: the integral is corrected by
    [(u_unclamped - u) / ki] whatever [ki] is. *)
Lemma controller_saturated_high (cfg : Copia.Config) i e I pe fd :
  Copia.antiWindupType cfg = "clamping"%string →
  Copia.derivativeFilterType cfg ≠ "firstOrder"%string →
  let I' := I + e * Copia.dt cfg in
  let d := if (0 <? i)%nat then (e - pe) / Copia.dt cfg else lit 0 in
  let u_unclamped := Copia.kp cfg * e + Copia.ki cfg * I' + Copia.kd cfg * d in
  (u_unclamped >? lit 5) = true →
  Copia.controller cfg i e I pe fd
  = (lit 5, I' - (u_unclamped - lit 5) / Copia.ki cfg, fd).
Proof.
  intros Haw Hdf I' d u Hu. unfold Copia.controller.
  rewrite Haw. apply String.eqb_neq in Hdf. rewrite Hdf. simpl.
  fold I' d u. by rewrite Hu.
Qed.

Lemma controller_saturated_low (cfg : Copia.Config) i e I pe fd :
  Copia.antiWindupType cfg = "clamping"%string →
  Copia.derivativeFilterType cfg ≠ "firstOrder"%string →
  let I' := I + e * Copia.dt cfg in
  let d := if (0 <? i)%nat then (e - pe) / Copia.dt cfg else lit 0 in
  let u_unclamped := Copia.kp cfg * e + Copia.ki cfg * I' + Copia.kd cfg * d in
  (u_unclamped >? lit 5) = false → (u_unclamped <? - lit 5) = true →
  Copia.controller cfg i e I pe fd
  = (- lit 5, I' - (u_unclamped - - lit 5) / Copia.ki cfg, fd).
Proof.
  intros Haw Hdf I' d u Hu Hl. unfold Copia.controller.
  rewrite Haw. apply String.eqb_neq in Hdf. rewrite Hdf. simpl.
  fold I' d u. by rewrite Hu, Hl.
Qed.
End DegenerateFacts.

(** Copia's run on such a denominator never completes: it is rejected by the
    checks of the page or aborted by the conversion, and [simulationData]
    keeps what it held. *)
Lemma Copia_runSimulation_aborts {num : Type} `{Number num} `{MathLib num}
    (cfg : Copia.Config) (rand : nat → num) (d : SimulationData num) :
  Copia.denominator cfg = []
  ∨ (∃ d0 rest, Copia.denominator cfg = d0 :: rest ∧ eqb d0 (lit 0) = true) →
  Copia.runSimulation cfg rand ≠ Completed d.
Proof.
  intros Hden. unfold Copia.runSimulation.
  destruct (_ || _); [done|].
  destruct (Copia_tfToStateSpace_rejects (Copia.numerator cfg) _ Hden) as [msg ->].
  done.
Qed.

(** C4 fails on Profesor's conversion, which has not the two guards of
    Copia's: with the leading coefficient 0 it divides by zero and returns a
    model of infinities and NaN, with an empty denominator it divides by
    [undefined]; and the run is not aborted, it completes with series of NaN. *)
Theorem Profesor_tfToStateSpace_zero_leading_coefficient :
  Profesor.tfToStateSpace [1%float] [0%float; 1%float]
  = Ok {| A := [[neg_infinity]]; B := [1%float]; C := [PrimFloat.nan]; D := 0%float |}
  ∧ Profesor.tfToStateSpace [1%float] []
    = Ok {| A := []; B := []; C := []; D := PrimFloat.nan |}
  ∧ (∀ sin : float → float,
       output <$> completed_data
         (Profesor.runSimulation (H0 := Float64.math sin) degenerate_plant)
       = Some [PrimFloat.nan; PrimFloat.nan; PrimFloat.nan])
  ∧ ∃ msg, Copia.tfToStateSpace [1%float] [0%float; 1%float] = Throw (Error msg).
Proof.
  split; [vm_compute; reflexivity|]. split; [vm_compute; reflexivity|].
  split; [intros sin; vm_compute; reflexivity|].
  eexists. vm_compute. reflexivity.
Qed.

(** C5 fails on the controller: with [Ki = 0] and the unclamped output 10
    above the bound 5, the correction [(10 - 5) / 0] is taken and the integral
    accumulator becomes -Infinity. *)
Theorem controller_divides_by_zero_Ki :
  Copia.ki saturating_P = 0%float
  ∧ Copia.controller saturating_P 0 1%float 0%float 0%float 0%float
    = (5%float, neg_infinity, 0%float).
Proof. split; vm_compute; reflexivity. Qed.

(** Over the reals, where no value is NaN, the clamp does what it is there
    for: the control value the controller returns lies in [[-5, 5]], and so
    does every entry of the control series of a completed run. *)
Lemma controller_clamps_real (cfg : Copia.Config (num := R)) i e I pe fd :
  Copia.antiWindupType cfg = "clamping"%string →
  (-5 <= (Copia.controller cfg i e I pe fd).1.1 <= 5)%R.
Proof.
  intros Haw. unfold Copia.controller. rewrite Haw.
  destruct (String.eqb (Copia.derivativeFilterType cfg) "firstOrder"); simpl;
    repeat (match goal with
            | |- context [Real.Rltb ?a ?b] =>
                unfold Real.Rltb at 1; destruct (Rlt_dec a b)
            end; simpl);
    unfold lit in *; simpl in *; lra.
Qed.

Lemma loop_control_within_bounds_real (cfg : Copia.Config (num := R)) ss rand l s :
  Copia.antiWindupType cfg = "clamping"%string →
  Forall (λ u, (-5 <= u <= 5)%R) (control (Copia.data s)) →
  Forall (λ u, (-5 <= u <= 5)%R)
    (control (Copia.data (foldl (Copia.iteration cfg ss rand) s l))).
Proof.
  intros Haw. revert s. induction l as [|i l IH]; intros s Hs; [done|].
  simpl. apply IH. unfold Copia.iteration.
  match goal with
  | |- context [Copia.controller cfg i ?e ?I0 ?pe ?fd] =>
      pose proof (controller_clamps_real cfg i e I0 pe fd Haw) as Hu;
      destruct (Copia.controller cfg i e I0 pe fd) as [[u I'] fd']
  end.
  simpl in *. by apply Forall_insert.
Qed.

Lemma control_within_bounds_real (cfg : Copia.Config (num := R)) rand d :
  Copia.antiWindupType cfg = "clamping"%string →
  Copia.runSimulation cfg rand = Completed d →
  Forall (λ u, (-5 <= u <= 5)%R) (control d).
Proof.
  intros Haw. unfold Copia.runSimulation.
  destruct (_ || _); [done|].
  destruct (Copia.tfToStateSpace _ _) as [ss|?]; [|done].
  destruct (to_length _) as [steps|]; [|done].
  intros [= <-]. apply loop_control_within_bounds_real; [done|].
  simpl. apply Forall_replicate. unfold lit. simpl. lra.
Qed.

(** C10 fails on the run of that configuration: the first control value is
    clamped to 5, the division by [Ki = 0] leaves the integral at -Infinity,
    and from the second step on the control value is NaN, which neither
    comparison of the clamp catches. *)
Theorem control_is_NaN_after_saturation_with_zero_Ki (sin : float → float) :
  control <$> completed_data
    (Copia.runSimulation (H0 := Float64.math sin) saturating_P (λ _, dec 25 100))
  = Some [5%float; PrimFloat.nan; PrimFloat.nan; PrimFloat.nan; PrimFloat.nan].
Proof. vm_compute. reflexivity. Qed.

(** ** The shape of a run *)

Section RunFacts.
Context {num : Type} `{Number num} `{MathLib num}.
Local Open Scope js_scope.

Lemma run_shape_time steps (dt : num) d i :
  run_shape steps dt d → (i < steps)%nat → time d !! i = Some (of_nat i * dt).
Proof.
  intros [-> _] Hi. rewrite list_lookup_fmap.
  by rewrite (proj2 (lookup_seq 0 steps i i)).
Qed.

Lemma run_shape_length_time steps (dt : num) d :
  run_shape steps dt d → length (time d) = steps.
Proof. intros [-> _]. by rewrite length_fmap, length_seq. Qed.

Lemma Copia_iteration_shape cfg ss rand s i steps :
  run_shape steps (Copia.dt cfg) (Copia.data s) →
  run_shape steps (Copia.dt cfg) (Copia.data (Copia.iteration cfg ss rand s i)).
Proof.
  intros (Ht & Hr & Ho & He & Hc). unfold Copia.iteration.
  destruct (Copia.controller _ _ _ _ _ _) as [[u I] fd]. simpl.
  unfold run_shape. simpl. by rewrite !length_insert.
Qed.

Lemma Copia_loop_shape cfg ss rand l s steps :
  run_shape steps (Copia.dt cfg) (Copia.data s) →
  run_shape steps (Copia.dt cfg)
    (Copia.data (foldl (Copia.iteration cfg ss rand) s l)).
Proof.
  revert s. induction l as [|i l IH]; intros s Hs; [done|].
  simpl. by apply IH, Copia_iteration_shape.
Qed.

Lemma Profesor_iteration_shape cfg ss s i steps :
  run_shape steps (Profesor.dt cfg) (Profesor.data s) →
  run_shape steps (Profesor.dt cfg) (Profesor.data (Profesor.iteration cfg ss s i)).
Proof.
  intros (Ht & Hr & Ho & He & Hc). unfold Profesor.iteration, run_shape. simpl.
  by rewrite !length_insert.
Qed.

Lemma Profesor_loop_shape cfg ss l s steps :
  run_shape steps (Profesor.dt cfg) (Profesor.data s) →
  run_shape steps (Profesor.dt cfg)
    (Profesor.data (foldl (Profesor.iteration cfg ss) s l)).
Proof.
  revert s. induction l as [|i l IH]; intros s Hs; [done|].
  simpl. by apply IH, Profesor_iteration_shape.
Qed.

(** A run of Copia's [runSimulation] that passes the checks and converts its
    plant completes, with the five series in shape. *)
Lemma Copia_runSimulation_shape (cfg : Copia.Config) rand ss steps :
  Copia.numerator cfg ≠ [] →
  existsb isNaN (Copia.denominator cfg) = false →
  existsb isNaN (Copia.numerator cfg) = false →
  Copia.tfToStateSpace (Copia.numerator cfg) (Copia.denominator cfg) = Ok ss →
  to_length (floor (Copia.simTime cfg / Copia.dt cfg)) = Some steps →
  ∃ d, Copia.runSimulation cfg rand = Completed d ∧ run_shape steps (Copia.dt cfg) d.
Proof.
  intros Hn Hdn Hnn Hss Hsteps. unfold Copia.runSimulation.
  destruct (Copia.denominator cfg) as [|d0 rest] eqn:Hden; [done|].
  destruct (Copia.numerator cfg) as [|n0 nm] eqn:Hnum; [done|].
  rewrite Hdn, Hnn, Hss, Hsteps. simpl.
  eexists. split; [done|]. apply Copia_loop_shape.
  unfold run_shape. simpl. by rewrite !length_replicate.
Qed.

Lemma Profesor_runSimulation_shape (cfg : Profesor.Config) ss steps :
  Profesor.numerator cfg ≠ [] → Profesor.denominator cfg ≠ [] →
  Profesor.tfToStateSpace (Profesor.numerator cfg) (Profesor.denominator cfg) = Ok ss →
  to_length (floor (Profesor.simTime cfg / Profesor.dt cfg)) = Some steps →
  ∃ d, Profesor.runSimulation cfg = Completed d ∧ run_shape steps (Profesor.dt cfg) d.
Proof.
  intros Hn Hd Hss Hsteps. unfold Profesor.runSimulation.
  destruct (Profesor.denominator cfg) as [|d0 rest] eqn:Hden; [done|].
  destruct (Profesor.numerator cfg) as [|n0 nm] eqn:Hnum; [done|].
  rewrite Hss, Hsteps. simpl.
  eexists. split; [done|]. apply Profesor_loop_shape.
  unfold run_shape. simpl. by rewrite !length_replicate.
Qed.


End RunFacts.

(** ** What each step writes *)

Section SeriesFacts.
Context {num : Type} `{Number num} `{MathLib num}.
Local Open Scope js_scope.

Lemma aget_insert_eq (l : list num) i v :
  (i < length l)%nat → aget (<[i := v]> l) i = v.
Proof. intros Hi. unfold aget. by rewrite list_lookup_insert_eq. Qed.

Lemma aget_insert_ne (l : list num) i j v :
  i ≠ j → aget (<[i := v]> l) j = aget l j.
Proof. intros Hij. unfold aget. by rewrite list_lookup_insert_ne. Qed.

(** Step [i] of Copia's loop writes entry [i] of the four series and no
    other, and leaves [time] alone. *)
Lemma Copia_iteration_writes cfg ss rand s i :
  let d := Copia.data s in
  let d' := Copia.data (Copia.iteration cfg ss rand s i) in
  time d' = time d
  ∧ (∀ j, j ≠ i →
       aget (reference d') j = aget (reference d) j
       ∧ aget (output d') j = aget (output d) j
       ∧ aget (error d') j = aget (error d) j
       ∧ aget (control d') j = aget (control d) j)
  ∧ ((i < length (reference d))%nat → (i < length (output d))%nat →
     (i < length (error d))%nat →
       aget (reference d') i
       = Copia.generateReference (aget (time d) i) (Copia.controlType cfg)
           (Copia.amplitude cfg) (Copia.frequency cfg)
       ∧ aget (error d') i = aget (reference d') i - aget (output d') i).
Proof.
  unfold Copia.iteration.
  destruct (Copia.controller _ _ _ _ _ _) as [[u I] fd]. simpl.
  split; [done|]. split.
  - intros j Hj. by rewrite !aget_insert_ne.
  - intros Hr Ho He. by rewrite !aget_insert_eq.
Qed.

Lemma Profesor_iteration_writes cfg ss s i :
  let d := Profesor.data s in
  let d' := Profesor.data (Profesor.iteration cfg ss s i) in
  time d' = time d
  ∧ (∀ j, j ≠ i →
       aget (reference d') j = aget (reference d) j
       ∧ aget (output d') j = aget (output d) j
       ∧ aget (error d') j = aget (error d) j
       ∧ aget (control d') j = aget (control d) j)
  ∧ ((i < length (reference d))%nat → (i < length (output d))%nat →
     (i < length (error d))%nat →
       aget (reference d') i
       = Profesor.generateReference (aget (time d) i) (Profesor.controlType cfg)
           (Profesor.amplitude cfg) (Profesor.frequency cfg)
       ∧ aget (error d') i = aget (reference d') i - aget (output d') i).
Proof.
  unfold Profesor.iteration. simpl.
  split; [done|]. split.
  - intros j Hj. by rewrite !aget_insert_ne.
  - intros Hr Ho He. by rewrite !aget_insert_eq.
Qed.

(** After the first [k] steps of a loop of [steps] steps, the entries below
    [k] hold what their step computed. *)
Lemma Copia_loop_records cfg ss rand s0 steps k :
  run_shape steps (Copia.dt cfg) (Copia.data s0) → (k ≤ steps)%nat →
  let d := Copia.data (foldl (Copia.iteration cfg ss rand) s0 (seq 0 k)) in
  ∀ i, (i < k)%nat →
    aget (reference d) i
    = Copia.generateReference (of_nat i * Copia.dt cfg) (Copia.controlType cfg)
        (Copia.amplitude cfg) (Copia.frequency cfg)
    ∧ aget (error d) i = aget (reference d) i - aget (output d) i.
Proof.
  intros Hs0. induction k as [|k IH]; intros Hk d i Hi; [lia|].
  subst d. rewrite seq_S, foldl_app. cbn [foldl Nat.add].
  set (s := foldl (Copia.iteration cfg ss rand) s0 (seq 0 k)) in *.
  assert (Hs : run_shape steps (Copia.dt cfg) (Copia.data s))
    by by apply Copia_loop_shape.
  destruct (Copia_iteration_writes cfg ss rand s k) as (Ht & Hne & Heq).
  destruct (decide (i = k)) as [->|Hik].
  - destruct Hs as (Htime & Hr & Ho & He & Hc).
    destruct Heq as [Href Herr]; [lia..|]. split; [|done].
    rewrite Href. f_equal. apply aget_lookup.
    by apply (run_shape_time steps); [repeat split|lia].
  - destruct (Hne i) as (-> & -> & -> & _); [done|]. apply IH; lia.
Qed.

Lemma Profesor_loop_records cfg ss s0 steps k :
  run_shape steps (Profesor.dt cfg) (Profesor.data s0) → (k ≤ steps)%nat →
  let d := Profesor.data (foldl (Profesor.iteration cfg ss) s0 (seq 0 k)) in
  ∀ i, (i < k)%nat →
    aget (reference d) i
    = Profesor.generateReference (of_nat i * Profesor.dt cfg) (Profesor.controlType cfg)
        (Profesor.amplitude cfg) (Profesor.frequency cfg)
    ∧ aget (error d) i = aget (reference d) i - aget (output d) i.
Proof.
  intros Hs0. induction k as [|k IH]; intros Hk d i Hi; [lia|].
  subst d. rewrite seq_S, foldl_app. cbn [foldl Nat.add].
  set (s := foldl (Profesor.iteration cfg ss) s0 (seq 0 k)) in *.
  assert (Hs : run_shape steps (Profesor.dt cfg) (Profesor.data s))
    by by apply Profesor_loop_shape.
  destruct (Profesor_iteration_writes cfg ss s k) as (Ht & Hne & Heq).
  destruct (decide (i = k)) as [->|Hik].
  - destruct Hs as (Htime & Hr & Ho & He & Hc).
    destruct Heq as [Href Herr]; [lia..|]. split; [|done].
    rewrite Href. f_equal. apply aget_lookup.
    by apply (run_shape_time steps); [repeat split|lia].
  - destruct (Hne i) as (-> & -> & -> & _); [done|]. apply IH; lia.
Qed.
(** Hence what a completed run holds at each of its steps. *)
Lemma Copia_completed_records (cfg : Copia.Config) rand d i :
  Copia.runSimulation cfg rand = Completed d → (i < length (time d))%nat →
  aget (reference d) i
  = Copia.generateReference (of_nat i * Copia.dt cfg) (Copia.controlType cfg)
      (Copia.amplitude cfg) (Copia.frequency cfg)
  ∧ aget (error d) i = aget (reference d) i - aget (output d) i.
Proof.
  unfold Copia.runSimulation.
  destruct (_ || _); [done|].
  destruct (Copia.tfToStateSpace _ _) as [ss|?]; [|done].
  destruct (to_length _) as [steps|]; [|done].
  intros [= <-] Hi.
  match goal with
  | _ : context [foldl _ ?s0 _] |- _ =>
      assert (Hs0 : run_shape steps (Copia.dt cfg) (Copia.data s0))
        by (unfold run_shape; simpl; by rewrite !length_replicate)
  end.
  rewrite (run_shape_length_time steps (Copia.dt cfg)) in Hi
    by by apply Copia_loop_shape.
  by apply (Copia_loop_records cfg ss rand _ steps steps).
Qed.

Lemma Profesor_completed_records (cfg : Profesor.Config) d i :
  Profesor.runSimulation cfg = Completed d → (i < length (time d))%nat →
  aget (reference d) i
  = Profesor.generateReference (of_nat i * Profesor.dt cfg) (Profesor.controlType cfg)
      (Profesor.amplitude cfg) (Profesor.frequency cfg)
  ∧ aget (error d) i = aget (reference d) i - aget (output d) i.
Proof.
  unfold Profesor.runSimulation.
  destruct (_ || _); [done|].
  destruct (Profesor.tfToStateSpace _ _) as [ss|?]; [|done].
  destruct (to_length _) as [steps|]; [|done].
  intros [= <-] Hi.
  match goal with
  | _ : context [foldl _ ?s0 _] |- _ =>
      assert (Hs0 : run_shape steps (Profesor.dt cfg) (Profesor.data s0))
        by (unfold run_shape; simpl; by rewrite !length_replicate)
  end.
  rewrite (run_shape_length_time steps (Profesor.dt cfg)) in Hi
    by by apply Profesor_loop_shape.
  by apply (Profesor_loop_records cfg ss _ steps steps).
Qed.
End SeriesFacts.

(** ** The real numbers as [Number] *)

Section RealFacts.
Local Open Scope R_scope.

Lemma Reqb_eq (a b : R) : a = b → eqb a b = true.
Proof. intros ->. simpl. unfold Real.Reqb. by destruct (Req_dec_T b b). Qed.

Lemma Reqb_neq (a b : R) : a ≠ b → eqb a b = false.
Proof. intros Hab. simpl. unfold Real.Reqb. by destruct (Req_dec_T a b). Qed.

Lemma Rltb_lt (a b : R) : a < b → ltb a b = true.
Proof. intros Hab. simpl. unfold Real.Rltb. by destruct (Rlt_dec a b). Qed.

Lemma Rltb_ge (a b : R) : b <= a → ltb a b = false.
Proof. intros Hab. simpl. unfold Real.Rltb. destruct (Rlt_dec a b); [lra | done]. Qed.

(** No real number is NaN, and every one is finite. *)
Lemma isNaN_real (v : R) : isNaN v = false.
Proof. unfold isNaN. by rewrite Reqb_eq. Qed.


Lemma existsb_isNaN_real (l : list R) : existsb isNaN l = false.
Proof. induction l as [|v l IH]; [done|]. simpl. by rewrite isNaN_real, IH. Qed.

Lemma Int_part_between (x : R) (z : Z) : IZR z <= x < IZR (z + 1) → Int_part x = z.
Proof.
  intros [Hl Hu]. unfold Int_part. rewrite <- (up_tech x z Hl Hu). lia.
Qed.

(** The floor of a real in [[z, z + 1)] as an array length. *)
Lemma to_length_floor_real (x : R) (z : Z) :
  IZR z <= x < IZR (z + 1) → (0 ≤ z < 2 ^ 32)%Z →
  to_length (floor x) = Some (Z.to_nat z).
Proof.
  intros Hx Hz. simpl. unfold Real.Rfloor, Real.R_to_length.
  rewrite (Int_part_between x z Hx).
  rewrite (Int_part_between (IZR z) z) by (rewrite plus_IZR; lra).
  destruct (Req_dec_T (IZR z) (IZR z)); [|done].
  rewrite (proj2 (Z.leb_le _ _)), (proj2 (Z.ltb_lt _ _)) by lia. done.
Qed.
(** With a positive step and a positive duration the number of steps is an
    array length, as long as the quotient stays below 2^32. *)
Lemma steps_of_positive_duration (simTime dt : R) :
  0 < dt → 0 < simTime → simTime / dt < 4294967296 →
  to_length (floor (simTime / dt)) = Some (Z.to_nat (Int_part (simTime / dt)))
  ∧ IZR (Int_part (simTime / dt)) <= simTime / dt < IZR (Int_part (simTime / dt)) + 1.
Proof.
  intros Hdt Hsim Hmax.
  assert (Hq : 0 < simTime / dt) by (apply Rdiv_lt_0_compat; lra).
  destruct (base_Int_part (simTime / dt)) as [Hl Hu].
  split; [|lra].
  apply to_length_floor_real; [rewrite plus_IZR; lra|].
  split.
  - assert (IZR (-1) < IZR (Int_part (simTime / dt))) as Hz%lt_IZR by (simpl; lra).
    lia.
  - apply lt_IZR. change (IZR (2 ^ 32)) with 4294967296. lra.
Qed.
End RealFacts.

(** ** Claim on the steps of a run *)




(** ** Claim on the overshoot *)

Section OvershootFacts.
Local Open Scope R_scope.

(** Over the reals [Math.max] is the maximum. *)
Lemma max2_real (a b : R) : max2 a b = Rmax a b.
Proof.
  unfold max2. rewrite !isNaN_real.
  destruct (Rlt_dec a b) as [Hab|Hab].
  - rewrite Rltb_lt by done. rewrite Rmax_right; [done | lra].
  - rewrite Rltb_ge by lra. destruct (Rlt_dec b a) as [Hba|Hba].
    + rewrite Rltb_lt by done. rewrite Rmax_left; [done | lra].
    + rewrite Rltb_ge by lra. assert (a = b) as -> by lra.
      rewrite Rmax_left by lra.
      destruct (Req_dec_T b 0) as [->|Hb].
      * rewrite Reqb_eq by done. simpl. lra.
      * by rewrite Reqb_neq.
Qed.

Lemma foldl_Rmax_ge (xs : list R) (v : R) :
  v <= foldl Rmax v xs ∧ Forall (λ x, x <= foldl Rmax v xs) xs.
Proof.
  revert v. induction xs as [|x xs IH]; intros v; simpl; [split; [lra | done]|].
  destruct (IH (Rmax v x)) as [Hv Hxs].
  pose proof (Rmax_l v x). pose proof (Rmax_r v x).
  split; [lra|]. constructor; [lra | done].
Qed.

Lemma foldl_Rmax_elem (xs : list R) (v : R) : foldl Rmax v xs ∈ v :: xs.
Proof.
  revert v. induction xs as [|x xs IH]; intros v; simpl; [apply list_elem_of_here|].
  specialize (IH (Rmax v x)). apply elem_of_cons in IH as [IH|IH].
  - rewrite IH. destruct (Rle_dec v x).
    + rewrite Rmax_right by lra. apply list_elem_of_further, list_elem_of_here.
    + rewrite Rmax_left by lra. apply list_elem_of_here.
  - by do 2 apply list_elem_of_further.
Qed.

(** [Math.max(...xs)] of a non-empty series is its greatest element. *)
Lemma Math_max_real (xs : list R) :
  xs ≠ [] → Math_max xs ∈ xs ∧ Forall (λ x, x <= Math_max xs) xs.
Proof.
  destruct xs as [|v xs]; [done|]. intros _. unfold Math_max.
  replace (foldl max2 v xs) with (foldl Rmax v xs).
  - split; [apply foldl_Rmax_elem|].
    destruct (foldl_Rmax_ge xs v). by constructor.
  - revert v. induction xs as [|x xs IH]; intros v; [done|].
    simpl. by rewrite max2_real, IH.
Qed.

Lemma NaN_real : NaN = 0.
Proof. unfold NaN, lit. simpl. lra. Qed.

End OvershootFacts.


(** Profesor's overshoot of a step response that stays below its reference:
    minus 50 percent, where Copia's is 0. *)
Lemma Profesor_overshoot_below_the_reference :
  Profesor.overshoot "step" sluggish_run = (-50)%float
  ∧ Copia.overshoot sluggish_run = 0%float.
Proof. split; vm_compute; reflexivity. Qed.



(** ** Claim on the ultimate period *)

Section PeriodFacts.
Context {num : Type} `{Number num}.
Local Open Scope js_scope.

Lemma consecutive_differences_by_index (peaks : list num) :
  consecutive_differences peaks
  = (λ i, aget peaks (i + 1) - aget peaks i) <$> seq 0 (length peaks - 1).
Proof.
  unfold consecutive_differences. apply list_eq_aget.
  - rewrite length_zip_with, length_drop, length_fmap, length_seq. lia.
  - intros i Hi. rewrite length_zip_with, length_drop in Hi.
    rewrite aget_fmap_seq by lia. apply aget_lookup.
    rewrite lookup_zip_with, lookup_drop, (lookup_aget peaks (1 + i)) by lia.
    simpl. rewrite (lookup_aget peaks i) by lia. simpl.
    by rewrite (Nat.add_comm i 1).
Qed.

Lemma length_consecutive_differences (peaks : list num) :
  length (consecutive_differences peaks) = (length peaks - 1)%nat.
Proof.
  by rewrite consecutive_differences_by_index, length_fmap, length_seq.
Qed.

(** Profesor's period is the mean of the differences. *)
Lemma Profesor_period_is_mean (peaks : list num) :
  (2 ≤ length peaks)%nat →
  Profesor.findTu_period peaks = mean (consecutive_differences peaks).
Proof.
  intros Hlen. unfold Profesor.findTu_period, mean.
  rewrite (proj2 (Nat.leb_le _ _) Hlen), length_consecutive_differences.
  by rewrite consecutive_differences_by_index, foldl_fmap.
Qed.

Lemma Profesor_period_undefined (peaks : list num) :
  (length peaks < 2)%nat → Profesor.findTu_period peaks = lit 0.
Proof.
  intros Hlen. unfold Profesor.findTu_period.
  by rewrite (proj2 (Nat.leb_gt _ _) Hlen).
Qed.

(** Copia's period is the last of the differences. *)
Lemma Copia_period_is_last (output time : list num) :
  (2 ≤ length (Copia.findTu_peaks output time))%nat →
  last (consecutive_differences (Copia.findTu_peaks output time))
  = Some (Copia.findTu output time).
Proof.
  intros Hlen. unfold Copia.findTu.
  rewrite (proj2 (Nat.leb_le _ _) Hlen).
  set (peaks := Copia.findTu_peaks output time) in *.
  rewrite consecutive_differences_by_index, last_lookup.
  rewrite length_fmap, length_seq, list_lookup_fmap.
  rewrite (proj2 (lookup_seq 0 _ _ (Init.Nat.pred (length peaks - 1)))) by lia.
  simpl. do 3 f_equal; lia.
Qed.

Lemma Copia_period_undefined (output time : list num) :
  (length (Copia.findTu_peaks output time) < 2)%nat →
  Copia.findTu output time = lit 0.
Proof.
  intros Hlen. unfold Copia.findTu. by rewrite (proj2 (Nat.leb_gt _ _) Hlen).
Qed.
End PeriodFacts.

(** C8, as stated, fails on Copia's [findTu], which returns the last
    difference: with peaks recorded at 2, 4 and 7 the differences are 2 and 3,
    their mean is 2.5, and the period returned is 3. *)
Lemma Copia_findTu_is_not_the_mean :
  Copia.findTu_peaks uneven_output uneven_time = [2; 4; 7]%float
  ∧ consecutive_differences (Copia.findTu_peaks uneven_output uneven_time)
    = [2; 3]%float
  ∧ mean (consecutive_differences (Copia.findTu_peaks uneven_output uneven_time))
    = 2.5%float
  ∧ Copia.findTu uneven_output uneven_time = 3%float.
Proof. split_and!; vm_compute; reflexivity. Qed.

(** C8 (amended): with at least two peaks detected, Profesor's [findTu]
    computes the mean of the consecutive peak-time differences and Copia's
    the last of them; with fewer than two, both give 0, which Profesor's page
    shows as N/A.  With four peaks 2 apart both give 2, over the reals
    whatever the first peak time, and in binary64 on an output that peaks
    at the samples 10, 12, 14 and 16. *)
Theorem ultimate_period_from_peaks :
  (∀ (num : Type) (H : Number num) (output time : list num),
     ((2 ≤ length (Profesor.findTu_peaks output time))%nat →
        Profesor.findTu output time
        = mean (consecutive_differences (Profesor.findTu_peaks output time)))
     ∧ ((length (Profesor.findTu_peaks output time) < 2)%nat →
          Profesor.findTu output time = lit 0)
     ∧ ((2 ≤ length (Copia.findTu_peaks output time))%nat →
          last (consecutive_differences (Copia.findTu_peaks output time))
          = Some (Copia.findTu output time))
     ∧ ((length (Copia.findTu_peaks output time) < 2)%nat →
          Copia.findTu output time = lit 0))
  ∧ (∀ (output time : list R) (t : R),
       (Profesor.findTu_peaks output time = [t; t + 2; t + 4; t + 6]%R →
          Profesor.findTu output time = 2%R)
       ∧ (Copia.findTu_peaks output time = [t; t + 2; t + 4; t + 6]%R →
            Copia.findTu output time = 2%R))
  ∧ (Profesor.findTu_peaks oscillation oscillation_time = [10; 12; 14; 16]%float
     ∧ Profesor.findTu oscillation oscillation_time = 2%float
     ∧ Copia.findTu oscillation oscillation_time = 2%float).
Proof.
  split_and!.
  - intros num H output time. split_and!.
    + apply Profesor_period_is_mean.
    + apply Profesor_period_undefined.
    + apply Copia_period_is_last.
    + apply Copia_period_undefined.
  - intros output time t. split.
    + intros Hp. unfold Profesor.findTu. rewrite Hp.
      unfold Profesor.findTu_period, of_nat, lit, aget. simpl.
      change (Z.of_nat 3) with 3%Z. lra.
    + intros Hp. unfold Copia.findTu. rewrite Hp. unfold aget. simpl. lra.
  - vm_compute. reflexivity.
  - vm_compute. reflexivity.
  - vm_compute. reflexivity.
Qed.

(** C8 (amended) on the oscillation: Profesor finds four peaks, and their
    mean difference is its period. *)
Lemma ultimate_period_from_peaks_witness :
  (2 ≤ length (Profesor.findTu_peaks oscillation oscillation_time))%nat
  ∧ Profesor.findTu oscillation oscillation_time
    = mean (consecutive_differences
              (Profesor.findTu_peaks oscillation oscillation_time))
  ∧ (2 ≤ length (Copia.findTu_peaks uneven_output uneven_time))%nat
  ∧ last (consecutive_differences (Copia.findTu_peaks uneven_output uneven_time))
    = Some (Copia.findTu uneven_output uneven_time).
Proof.
  destruct ultimate_period_from_peaks as (Hgen & _).
  destruct (Hgen float _ oscillation oscillation_time) as (HP & _).
  destruct (Hgen float _ uneven_output uneven_time) as (_ & _ & HC & _).
  assert (H1 : (2 ≤ length (Profesor.findTu_peaks oscillation oscillation_time))%nat)
    by (vm_compute; lia).
  assert (H2 : (2 ≤ length (Copia.findTu_peaks uneven_output uneven_time))%nat)
    by (vm_compute; lia).
  split_and!; [exact H1 | exact (HP H1) | exact H2 | exact (HC H2)].
Defined.

(** ** Claim on determinism *)

Section DeterminismFacts.
Local Open Scope js_scope.

Lemma foldl_ext_all {S I : Type} (f g : S → I → S) (l : list I) (s : S) :
  (∀ s i, f s i = g s i) → foldl f s l = foldl g s l.
Proof.
  intros Hfg. revert s. induction l as [|i l IH]; intros s; [done|].
  simpl. by rewrite Hfg, IH.
Qed.

(** With the disturbance amplitude 0 an iteration does not depend on the draw. *)
Lemma Copia_iteration_ignores_draw (cfg : Copia.Config (num := R))
    (ss : StateSpace R) (rand1 rand2 : nat → R) (s : Copia.Loop) (i : nat) :
  Copia.disturbanceAmplitude cfg = 0%R →
  Copia.iteration cfg ss rand1 s i = Copia.iteration cfg ss rand2 s i.
Proof.
  intros Hamp. unfold Copia.iteration. rewrite Hamp.
  assert (Hy : ∀ y r : R, y + (r - dec 5 10) * lit 2 * 0%R = y)
    by (intros y r; unfold dec, lit; simpl; lra).
  by rewrite !Hy.
Qed.
End DeterminismFacts.

(** With the disturbance amplitude 0, two runs of Copia's [runSimulation] on
    one configuration end the same way, whatever [Math.random] returns. *)
Lemma Copia_runSimulation_ignores_draws
    (cfg : Copia.Config (num := R)) (rand1 rand2 : nat → R) :
  Copia.disturbanceAmplitude cfg = 0%R →
  Copia.runSimulation cfg rand1 = Copia.runSimulation cfg rand2.
Proof.
  intros Hamp. unfold Copia.runSimulation.
  destruct (_ || _); [done|].
  destruct (Copia.tfToStateSpace _ _) as [ss|e]; [|done].
  destruct (to_length _) as [steps|]; [|done].
  do 2 f_equal. apply foldl_ext_all. intros s i.
  by apply Copia_iteration_ignores_draw.
Qed.

(** ** Rounding in binary64 *)

(** The width of a mantissa, and what a right shift does to it. *)
Section DigitFacts.
Local Open Scope Z_scope.

Lemma digits2_pos_bounds (q : positive) :
  2 ^ (Zpos (digits2_pos q) - 1) <= Zpos q < 2 ^ Zpos (digits2_pos q).
Proof.
  induction q as [q IH|q IH|]; cbn [digits2_pos]; [| |simpl; lia].
  - rewrite Pos2Z.inj_succ.
    replace (Z.succ (Zpos (digits2_pos q)) - 1) with (Z.succ (Zpos (digits2_pos q) - 1))
      by lia.
    rewrite !Z.pow_succ_r by lia. lia.
  - rewrite Pos2Z.inj_succ.
    replace (Z.succ (Zpos (digits2_pos q)) - 1) with (Z.succ (Zpos (digits2_pos q) - 1))
      by lia.
    rewrite !Z.pow_succ_r by lia. lia.
Qed.

Lemma Zdigits2_nonneg (m : Z) : 0 <= Zdigits2 m.
Proof. destruct m; simpl; lia. Qed.

Lemma Zdigits2_below (m j : Z) : 0 <= m → 0 <= j → m < 2 ^ j → Zdigits2 m <= j.
Proof.
  intros Hm Hj Hlt. destruct m as [|q|q]; [simpl; lia | | lia].
  simpl. destruct (digits2_pos_bounds q) as [Hlo _].
  destruct (Z_le_gt_dec (Zpos (digits2_pos q)) j) as [|Hgt]; [done|].
  assert (2 ^ j <= 2 ^ (Zpos (digits2_pos q) - 1)) by (apply Z.pow_le_mono_r; lia).
  lia.
Qed.

Lemma Zdigits2_above (m : Z) : 0 <= m → m < 2 ^ Zdigits2 m.
Proof.
  intros Hm. destruct m as [|q|q]; [simpl; lia | | lia].
  apply digits2_pos_bounds.
Qed.

Lemma Zdigits2_div (m : Z) (k : positive) :
  0 <= m → Zdigits2 (m / 2 ^ Zpos k) <= Z.max (Zdigits2 m - Zpos k) 0.
Proof.
  intros Hm. set (m' := m / 2 ^ Zpos k).
  assert (Hk : 0 < 2 ^ Zpos k) by (apply Z.pow_pos_nonneg; lia).
  assert (Hm' : 0 <= m') by (apply Z.div_pos; lia).
  destruct m' as [|q|q] eqn:Hq; [simpl; lia | | lia].
  simpl Zdigits2 at 1. destruct (digits2_pos_bounds q) as [Hlo _].
  assert (Hle : Zpos q * 2 ^ Zpos k <= m).
  { rewrite <- Hq. unfold m'. rewrite Z.mul_comm. apply Z.mul_div_le. lia. }
  pose proof (Zdigits2_above m Hm) as Hup.
  assert (H2 : 2 ^ (Zpos (digits2_pos q) - 1 + Zpos k) < 2 ^ Zdigits2 m).
  { rewrite Z.pow_add_r by lia. nia. }
  apply Z.pow_lt_mono_r_iff in H2; [lia | lia | apply Zdigits2_nonneg].
Qed.

Lemma shr_1_m (mrs : shr_record) : 0 <= shr_m mrs → shr_m (shr_1 mrs) = shr_m mrs / 2.
Proof.
  destruct mrs as [m r s]. cbn [shr_m]. intros Hm.
  destruct m as [|[q|q|]|q]; cbn [shr_1 shr_m]; [done| | |done|lia].
  - apply (Z.div_unique _ _ _ 1); lia.
  - apply (Z.div_unique _ _ _ 0); lia.
Qed.

Lemma iter_shr_1_m (k : positive) :
  ∀ mrs, 0 <= shr_m mrs →
    shr_m (SpecFloat.iter_pos shr_1 k mrs) = shr_m mrs / 2 ^ Zpos k.
Proof.
  induction k as [k IH|k IH|]; intros mrs Hm; cbn [SpecFloat.iter_pos].
  - assert (H1 : 0 <= shr_m (shr_1 mrs)) by (rewrite shr_1_m by done; apply Z.div_pos; lia).
    assert (Hk : 0 < 2 ^ Zpos k) by (apply Z.pow_pos_nonneg; lia).
    assert (H2 : 0 <= shr_m (SpecFloat.iter_pos shr_1 k (shr_1 mrs)))
      by (rewrite IH by done; apply Z.div_pos; lia).
    rewrite IH, IH, shr_1_m by done.
    rewrite !Z.div_div by lia. f_equal.
    replace (Zpos k~1) with (1 + (Zpos k + Zpos k)) by lia.
    rewrite !Z.pow_add_r by lia. change (2 ^ 1) with 2. lia.
  - assert (Hk : 0 < 2 ^ Zpos k) by (apply Z.pow_pos_nonneg; lia).
    assert (H2 : 0 <= shr_m (SpecFloat.iter_pos shr_1 k mrs))
      by (rewrite IH by done; apply Z.div_pos; lia).
    rewrite IH, IH by done.
    rewrite !Z.div_div by lia. f_equal.
    replace (Zpos k~0) with (Zpos k + Zpos k) by lia.
    by rewrite Z.pow_add_r by lia.
  - rewrite shr_1_m by done. done.
Qed.
End DigitFacts.

Section RoundingFacts.
Local Open Scope Z_scope.

Lemma shr_record_of_loc_m (m : Z) (l : location) : shr_m (shr_record_of_loc m l) = m.
Proof. by destruct l as [|[]]. Qed.

(** A right shift to the format's exponent leaves a positive mantissa
    positive when the exponent is not below the least one. *)
Lemma shr_fexp_positive (m e : Z) (l : location) mrs e' :
  0 < m → emin <= e → shr_fexp prec emax m e l = (mrs, e') →
  0 < shr_m mrs ∧ emin <= e'.
Proof.
  intros Hm He. unfold shr_fexp, shr.
  pose proof (Zdigits2_above m ltac:(lia)) as Hup.
  destruct m as [|q|q]; [lia | | lia].
  destruct (digits2_pos_bounds q) as [Hlo _].
  destruct (fexp prec emax (Zdigits2 (Zpos q) + e) - e) as [|k|k] eqn:Hn;
    intros [= <- <-]; rewrite ?shr_record_of_loc_m; try (split; lia).
  rewrite iter_shr_1_m by (rewrite shr_record_of_loc_m; lia).
  rewrite shr_record_of_loc_m.
  unfold fexp, SpecFloat.emin, prec, emax in *. simpl Zdigits2 in *.
  assert (Hk : Zpos k = Zpos (digits2_pos q) - 53) by lia.
  split; [|lia].
  apply Z.div_str_pos. split; [apply Z.pow_pos_nonneg; lia|].
  etrans; [|exact Hlo]. apply Z.pow_le_mono_r; lia.
Qed.

(** The same shift keeps the mantissa non-negative and the sum of its width
    and its exponent below any bound it was below. *)
Lemma shr_fexp_bounded (m e : Z) (l : location) (K : Z) mrs e' :
  0 <= m → emin <= K → Zdigits2 m + e <= K →
  shr_fexp prec emax m e l = (mrs, e') →
  0 <= shr_m mrs ∧ Zdigits2 (shr_m mrs) + e' <= K.
Proof.
  intros Hm HK Hd. unfold shr_fexp, shr.
  destruct (fexp prec emax (Zdigits2 m + e) - e) as [|k|k] eqn:Hn;
    intros [= <- <-]; rewrite ?shr_record_of_loc_m; try (split; lia).
  rewrite iter_shr_1_m by (rewrite shr_record_of_loc_m; lia).
  rewrite shr_record_of_loc_m.
  assert (H2 : 0 < 2 ^ Zpos k) by (apply Z.pow_pos_nonneg; lia).
  split; [apply Z.div_pos; lia|].
  pose proof (Zdigits2_div m k Hm) as Hdiv.
  unfold fexp, SpecFloat.emin, prec, emax in *. lia.
Qed.

Lemma round_nearest_even_bounds (m : Z) (l : location) :
  m <= round_nearest_even m l <= m + 1.
Proof.
  unfold round_nearest_even. destruct l as [|[]]; try lia. destruct (Z.even m); lia.
Qed.

Lemma Zdigits2_succ (m m' : Z) : 0 <= m → m <= m' <= m + 1 → Zdigits2 m' <= Zdigits2 m + 1.
Proof.
  intros Hm Hm'. pose proof (Zdigits2_above m Hm) as Hup.
  pose proof (Zdigits2_nonneg m) as Hd.
  apply Zdigits2_below; [lia | lia |].
  rewrite Z.pow_add_r by lia. change (2 ^ 1) with 2. lia.
Qed.

(** Rounding a positive mantissa at an exponent not below the least one does
    not give a zero. *)
Lemma binary_round_aux_not_zero (sx : bool) (q : positive) (e : Z) (l : location) s :
  emin <= e → binary_round_aux prec emax sx (Zpos q) e l ≠ S754_zero s.
Proof.
  intros He. unfold binary_round_aux.
  destruct (shr_fexp prec emax (Zpos q) e l) as [mrs1 e1] eqn:H1.
  apply shr_fexp_positive in H1 as [Hm1 He1]; [|lia|done].
  pose proof (round_nearest_even_bounds (shr_m mrs1) (loc_of_shr_record mrs1)) as Hr.
  destruct (shr_fexp prec emax _ e1 loc_Exact) as [mrs2 e2] eqn:H2.
  apply shr_fexp_positive in H2 as [Hm2 He2]; [|lia|done].
  destruct (shr_m mrs2); [lia | | lia].
  by destruct (Z.leb _ _).
Qed.

(** Rounding a mantissa whose width and exponent add up to at most [K], with
    [K] in the range of the format, gives a zero or a finite number, of
    width plus exponent at most [K + 1]. *)
Lemma binary_round_aux_bounded (sx : bool) (q : positive) (e : Z) (l : location) (K : Z) :
  emin <= K → K <= 971 → Zpos (digits2_pos q) + e <= K →
  match binary_round_aux prec emax sx (Zpos q) e l with
  | S754_zero _ => True
  | S754_finite _ m' e' => Zpos (digits2_pos m') + e' <= K + 1
  | _ => False
  end.
Proof.
  intros HK HK' Hd. unfold binary_round_aux.
  destruct (shr_fexp prec emax (Zpos q) e l) as [mrs1 e1] eqn:H1.
  apply (shr_fexp_bounded _ _ _ K) in H1 as [Hm1 Hd1]; [|lia|done|done].
  pose proof (round_nearest_even_bounds (shr_m mrs1) (loc_of_shr_record mrs1)) as Hr.
  pose proof (Zdigits2_succ _ _ Hm1 Hr) as Hd2.
  destruct (shr_fexp prec emax _ e1 loc_Exact) as [mrs2 e2] eqn:H2.
  apply (shr_fexp_bounded _ _ _ (K + 1)) in H2 as [Hm2 Hd3];
    [|lia|unfold SpecFloat.emin, prec, emax in *; lia|lia].
  destruct (shr_m mrs2) as [|p|p] eqn:Hp; [done | | lia].
  simpl Zdigits2 in Hd3.
  assert (He2 : (e2 <=? emax - prec) = true).
  { apply Z.leb_le. unfold prec, emax. pose proof (Pos2Z.is_pos (digits2_pos p)). lia. }
  rewrite He2. done.
Qed.

Lemma digits2_pos_iter_xO (p d : positive) :
  Zpos (digits2_pos (Pos.iter xO p d)) = Zpos (digits2_pos p) + Zpos d.
Proof.
  induction d as [|d IH] using Pos.peano_ind.
  - simpl. lia.
  - rewrite Pos.iter_succ. cbn [digits2_pos]. lia.
Qed.

Lemma Zpos_iter_xO (p d : positive) : Zpos (Pos.iter xO p d) = Zpos p * 2 ^ Zpos d.
Proof.
  induction d as [|d IH] using Pos.peano_ind.
  - simpl. lia.
  - rewrite Pos.iter_succ, Pos2Z.inj_xO, IH, Pos2Z.inj_succ, Z.pow_succ_r by lia. lia.
Qed.

(** Aligning to the format's exponent keeps the width plus the exponent, and
    does not go below the least exponent from above it. *)
Lemma shl_align_fexp_spec (p : positive) (e : Z) mz ez :
  shl_align p e (fexp prec emax (Zpos (digits2_pos p) + e)) = (mz, ez) →
  Zpos (digits2_pos mz) + ez = Zpos (digits2_pos p) + e ∧ (emin <= e → emin <= ez).
Proof.
  unfold shl_align.
  destruct (fexp prec emax (Zpos (digits2_pos p) + e) - e) as [|k|k] eqn:Hk;
    intros [= <- <-]; [done | done |].
  rewrite digits2_pos_iter_xO.
  unfold fexp, SpecFloat.emin, prec, emax in *. lia.
Qed.

Lemma binary_round_not_zero (sx : bool) (p : positive) (e : Z) s :
  emin <= e → binary_round prec emax sx p e ≠ S754_zero s.
Proof.
  intros He. unfold binary_round.
  destruct (shl_align p e _) as [mz ez] eqn:Hal.
  apply shl_align_fexp_spec in Hal as [_ Hez].
  apply binary_round_aux_not_zero. auto.
Qed.

Lemma binary_round_bounded (sx : bool) (p : positive) (e : Z) (K : Z) :
  emin <= K → K <= 971 → Zpos (digits2_pos p) + e <= K →
  match binary_round prec emax sx p e with
  | S754_zero _ => True
  | S754_finite _ m' e' => Zpos (digits2_pos m') + e' <= K + 1
  | _ => False
  end.
Proof.
  intros HK HK' Hd. unfold binary_round.
  destruct (shl_align p e _) as [mz ez] eqn:Hal.
  apply shl_align_fexp_spec in Hal as [Hsum _].
  apply binary_round_aux_bounded; lia.
Qed.

Lemma valid_binary_finite (s : bool) (m : positive) (e : Z) :
  valid_binary (S754_finite s m e) = true →
  emin <= e ∧ Zpos (digits2_pos m) <= 53 ∧ e <= 971
  ∧ (emin < e → Zpos (digits2_pos m) = 53).
Proof.
  unfold SpecFloat.valid_binary, bounded, canonical_mantissa.
  intros [Hc Hb]%andb_prop. apply Z.eqb_eq in Hc. apply Z.leb_le in Hb.
  unfold fexp, SpecFloat.emin, prec, emax in *. lia.
Qed.

(** A sum is -0 only if its first term is. *)
Lemma SFadd_not_neg_zero (x y : spec_float) :
  valid_binary x = true → valid_binary y = true →
  x ≠ S754_zero true → SFadd prec emax x y ≠ S754_zero true.
Proof.
  intros Hx Hy Hnz.
  destruct x as [sx|sx| |sx mx ex], y as [sy|sy| |sy my ey]; cbn [SFadd]; try done.
  - by destruct sx, sy.
  - by destruct sx, sy.
  - apply valid_binary_finite in Hx as (Hex & _). apply valid_binary_finite in Hy as (Hey & _).
    unfold binary_normalize.
    destruct (_ + _) as [|p|p]; [done | |];
      apply binary_round_not_zero; lia.
Qed.
End RoundingFacts.

(** ** Zeros and draws in binary64 *)

Section Binary64Facts.
Local Open Scope js_scope.

Lemma is_zero_eqb (v : float) : (v =? lit 0) = true → is_zero v = true.
Proof.
  cbn [eqb Float64.number]. rewrite FloatAxioms.eqb_spec. unfold is_zero.
  change (Prim2SF (lit 0)) with (S754_zero false).
  by destruct (Prim2SF v) as [?|[]| |[] ? ?].
Qed.

Lemma add_is_not_minus_zero (a b : float) : is_minus_zero a = false → is_minus_zero (a + b) = false.
Proof.
  unfold is_minus_zero. cbn [add Float64.number]. rewrite add_spec. intros Ha.
  pose proof (SFadd_not_neg_zero (Prim2SF a) (Prim2SF b)
                (Prim2SF_valid a) (Prim2SF_valid b)) as Hnz.
  unfold SF64add.
  destruct (SFadd prec emax (Prim2SF a) (Prim2SF b)) as [[]| | |]; try done.
  exfalso. apply Hnz; [|done]. intros Hz. by rewrite Hz in Ha.
Qed.

Lemma add_of_a_zero (a z : float) : is_minus_zero a = false → is_zero z = true → a + z = a.
Proof.
  unfold is_minus_zero, is_zero. intros Ha Hz. apply Prim2SF_inj.
  cbn [add Float64.number]. rewrite add_spec. unfold SF64add.
  destruct (Prim2SF z) as [sz| | |]; try done.
  by destruct (Prim2SF a) as [[]| | |]; destruct sz.
Qed.

Lemma mul_by_a_zero (t z : float) : finite_double t = true → is_zero z = true → is_zero (t * z) = true.
Proof.
  unfold finite_double, is_zero. intros Ht Hz.
  cbn [mul Float64.number]. rewrite mul_spec. unfold SF64mul.
  destruct (Prim2SF z) as [sz| | |]; try done.
  by destruct (Prim2SF t).
Qed.

(** What [Math.random] returns, a double from 0 up to, and not, 1: a zero,
    or a positive number whose exponent is at most -53. *)
Lemma draw_in_range (r : float) :
  (lit 0 <=? r) = true → (r <? lit 1) = true →
  match Prim2SF r with
  | S754_zero _ => True
  | S754_finite false m e => (e <= -53)%Z ∧ (Zpos (digits2_pos m) <= 53)%Z
  | _ => False
  end.
Proof.
  cbn [leb ltb Float64.number]. rewrite FloatAxioms.leb_spec, FloatAxioms.ltb_spec.
  change (Prim2SF (lit 0)) with (S754_zero false).
  change (Prim2SF (lit 1)) with (S754_finite false 4503599627370496 (-52)).
  pose proof (Prim2SF_valid r) as Hv.
  destruct (Prim2SF r) as [s|s| |s m e]; try done.
  - by destruct s.
  - destruct s; [done|]. intros _.
    apply valid_binary_finite in Hv as (Hemin & Hd & _ & Hnormal).
    unfold SFltb, SFcompare. destruct (Z.compare_spec e (-52)) as [->|Hlt|Hgt]; [|lia|done].
    destruct (Pos.compare_cont Eq m 4503599627370496) eqn:Hc;
      [intros [=] | intros _ | intros [=]].
    apply (proj1 (Pos.compare_lt_iff m 4503599627370496)), Pos2Z.pos_lt_pos in Hc.
    assert (Hd53 : Zpos (digits2_pos m) = 53%Z) by (apply Hnormal; reflexivity).
    destruct (digits2_pos_bounds m) as [Hlo _].
    replace (Zpos (digits2_pos m) - 1)%Z with 52%Z in Hlo by lia.
    change (2 ^ 52)%Z with 4503599627370496%Z in Hlo. lia.
Qed.

(** The factor of the disturbance, [(Math.random() - 0.5) * 2], is finite. *)
Lemma draw_factor_finite (r : float) :
  (lit 0 <=? r) = true → (r <? lit 1) = true →
  finite_double ((r - dec 5 10) * lit 2) = true.
Proof.
  intros H0 H1. pose proof (draw_in_range r H0 H1) as Hr.
  unfold finite_double. cbn [mul sub Float64.number]. rewrite mul_spec, sub_spec.
  change (Prim2SF (dec 5 10)) with (S754_finite false 4503599627370496 (-53)).
  change (Prim2SF (lit 2)) with (S754_finite false 4503599627370496 (-51)).
  assert (Hsub : match SF64sub (Prim2SF r) (S754_finite false 4503599627370496 (-53)) with
                 | S754_zero _ => True
                 | S754_finite _ m e => (Zpos (digits2_pos m) + e <= 1)%Z
                 | _ => False
                 end).
  { destruct (Prim2SF r) as [s|s| |s m e]; try done.
    - destruct s; [done|]. destruct Hr as [He Hd].
      unfold SF64sub, SFsub. rewrite Z.min_l by lia.
      unfold binary_normalize.
      assert (Hm : (fst (shl_align m e e)) = m).
      { unfold shl_align. by rewrite Z.sub_diag. }
      rewrite Hm.
      assert (Hh : (Zpos (fst (shl_align 4503599627370496 (-53) e)) = 2 ^ (- e - 1))%Z).
      { unfold shl_align. destruct (e - -53)%Z as [|k|k] eqn:Hk; [|lia|].
        - cbn [fst]. replace e with (-53)%Z by lia. done.
        - cbn [fst]. rewrite Zpos_iter_xO.
          change 4503599627370496%Z with (2 ^ 52)%Z.
          rewrite <- Z.pow_add_r by lia. f_equal. lia. }
      cbn [cond_Zopp]. rewrite Hh.
      destruct (digits2_pos_bounds m) as [_ Hup].
      assert (Hup' : (Zpos m < 2 ^ (- e))%Z).
      { eapply Z.lt_le_trans; [exact Hup|]. apply Z.pow_le_mono_r; lia. }
      assert (Hhalf : (2 * 2 ^ (- e - 1) = 2 ^ (- e))%Z).
      { rewrite <- Z.pow_succ_r by lia. f_equal. lia. }
      assert (Hpos : (0 < 2 ^ (- e - 1))%Z) by (apply Z.pow_pos_nonneg; lia).
      destruct (Zpos m - 2 ^ (- e - 1))%Z as [|p|p] eqn:Hp; [done| |].
      + apply (binary_round_bounded _ _ _ 0);
          [unfold SpecFloat.emin, prec, emax; lia | lia |].
        pose proof (Zdigits2_below (Zpos p) (- e) ltac:(lia) ltac:(lia) ltac:(lia)) as Hdp.
        simpl in Hdp. lia.
      + apply (binary_round_bounded _ _ _ 0);
          [unfold SpecFloat.emin, prec, emax; lia | lia |].
        pose proof (Zdigits2_below (Zpos p) (- e) ltac:(lia) ltac:(lia) ltac:(lia)) as Hdp.
        simpl in Hdp. lia. }
  destruct (SF64sub _ _) as [s|s| |s m e]; try done.
  unfold SF64mul, SFmul.
  assert (Hw : (Zpos (digits2_pos (m * 4503599627370496)) + (e + -51) <= 2)%Z).
  { destruct (digits2_pos_bounds m) as [_ Hup].
    pose proof (Pos2Z.is_pos (digits2_pos m)) as Hdm.
    assert (Hlt : (Zpos (m * 4503599627370496) < 2 ^ (Zpos (digits2_pos m) + 52))%Z).
    { rewrite Pos2Z.inj_mul, Z.pow_add_r by lia.
      change (2 ^ 52)%Z with 4503599627370496%Z.
      apply Z.mul_lt_mono_pos_r; [reflexivity | exact Hup]. }
    apply Zdigits2_below in Hlt; [|apply Pos2Z.is_nonneg | lia].
    cbn [Zdigits2] in Hlt. lia. }
  pose proof (binary_round_aux_bounded (xorb s false) (m * 4503599627370496)
                (e + -51) loc_Exact 2 ltac:(reflexivity || discriminate)
                ltac:(discriminate) Hw) as Hb.
  by destruct (binary_round_aux _ _ _ _ _ _).
Qed.
End Binary64Facts.

Section DrawFacts.
Context (M : MathLib float).
Local Open Scope js_scope.

(** The output of the plant, a sum that starts from +0, is never -0. *)
Lemma plant_output_not_neg_zero (terms : nat → float) (l : list nat) (last_term : float) :
  is_minus_zero (foldl (λ sum j, sum + terms j) (lit 0) l + last_term) = false.
Proof.
  apply add_is_not_minus_zero.
  assert (H0 : is_minus_zero (lit 0) = false) by reflexivity.
  revert H0. generalize (lit 0 : float).
  induction l as [|j l IH]; intros acc Hacc; [done|].
  cbn [foldl]. by apply IH, add_is_not_minus_zero.
Qed.

(** In binary64, with the disturbance amplitude a zero and the draws in the
    range of [Math.random], an iteration does not depend on the draw. *)
Lemma Copia_iteration_ignores_draw_binary64 (cfg : Copia.Config (num := float))
    (ss : StateSpace float) (rand1 rand2 : nat → float) (s : Copia.Loop) (i : nat) :
  (Copia.disturbanceAmplitude cfg =? lit 0) = true →
  (lit 0 <=? rand1 i) = true → (rand1 i <? lit 1) = true →
  (lit 0 <=? rand2 i) = true → (rand2 i <? lit 1) = true →
  Copia.iteration cfg ss rand1 s i = Copia.iteration cfg ss rand2 s i.
Proof.
  intros Hamp%is_zero_eqb H1 H1' H2 H2'. unfold Copia.iteration.
  assert (Hy : ∀ (y : float) (r : float),
            is_minus_zero y = false → (lit 0 <=? r) = true → (r <? lit 1) = true →
            y + (r - dec 5 10) * lit 2 * Copia.disturbanceAmplitude cfg = y).
  { intros y r Hy Hr Hr'. apply add_of_a_zero; [done|].
    apply mul_by_a_zero; [|done]. by apply draw_factor_finite. }
  rewrite (Hy _ (rand1 i)), (Hy _ (rand2 i)); try done;
    apply (plant_output_not_neg_zero (λ j, aget (C ss) j * aget (Copia.x s) j)).
Qed.

Lemma Copia_runSimulation_ignores_draws_binary64
    (cfg : Copia.Config (num := float)) (rand1 rand2 : nat → float) :
  (Copia.disturbanceAmplitude cfg =? lit 0) = true →
  (∀ i, (lit 0 <=? rand1 i) = true ∧ (rand1 i <? lit 1) = true) →
  (∀ i, (lit 0 <=? rand2 i) = true ∧ (rand2 i <? lit 1) = true) →
  Copia.runSimulation cfg rand1 = Copia.runSimulation cfg rand2.
Proof.
  intros Hamp H1 H2. unfold Copia.runSimulation.
  destruct (_ || _); [done|].
  destruct (Copia.tfToStateSpace _ _) as [ss|e]; [|done].
  destruct (to_length _) as [steps|]; [|done].
  do 2 f_equal. apply foldl_ext_all. intros s i.
  apply Copia_iteration_ignores_draw_binary64; try done; apply H1 || apply H2.
Qed.
End DrawFacts.

(** ** The claim *)

(** C9: with the disturbance amplitude 0, two runs of Copia's [runSimulation]
    on identical configurations end the same way and with the same five
    series: in binary64 bit for bit, whatever [Math.random] returns in each
    run within its range, from 0 up to and not 1; over the reals, whatever
    the draws.  In binary64 the disturbance [(r - 0.5) * 2 * 0] is a zero of
    either sign, and it is added to an output of the plant that is never -0.
    Profesor's [runSimulation] draws nothing: its embedding takes the
    configuration and nothing else. *)
Theorem runSimulation_deterministic_without_disturbance :
  (∀ (sin : float → float) (cfg cfg' : Copia.Config (num := float))
     (rand rand' : nat → float),
     cfg = cfg' →
     eqb (Copia.disturbanceAmplitude cfg) (lit 0) = true →
     (∀ i, leb (lit 0) (rand i) = true ∧ ltb (rand i) (lit 1) = true) →
     (∀ i, leb (lit 0) (rand' i) = true ∧ ltb (rand' i) (lit 1) = true) →
     Copia.runSimulation (H0 := Float64.math sin) cfg rand
     = Copia.runSimulation (H0 := Float64.math sin) cfg' rand')
  ∧ (∀ (cfg cfg' : Copia.Config (num := R)) (rand rand' : nat → R),
       cfg = cfg' → Copia.disturbanceAmplitude cfg = 0%R →
       Copia.runSimulation cfg rand = Copia.runSimulation cfg' rand').
Proof.
  split.
  - intros sin cfg cfg' rand rand' <- Hamp Hrand Hrand'.
    by apply Copia_runSimulation_ignores_draws_binary64.
  - intros cfg cfg' rand rand' <- Hamp. by apply Copia_runSimulation_ignores_draws.
Qed.

(** The range of the draws is needed in binary64: a draw of [Infinity],
    which [Math.random] never returns, would make the disturbance
    [Infinity * 0], and the first output NaN. *)
Example runSimulation_reads_a_draw_out_of_range (sin : float → float) :
  (λ d, isNaN (aget (output d) 0))
    <$> completed_data
          (Copia.runSimulation (H0 := Float64.math sin) quiet_PI (λ _, 0%float))
  = Some false
  ∧ (λ d, isNaN (aget (output d) 0))
      <$> completed_data
            (Copia.runSimulation (H0 := Float64.math sin) quiet_PI (λ _, infinity))
    = Some true.
Proof. split; vm_compute; reflexivity. Qed.

(** C9 on the PI loop around [1 / (s + 1)]: in binary64 with every draw 0
    and with every draw 0.9, over the reals with every draw 0 and with every
    draw 1/2. *)
Lemma runSimulation_deterministic_without_disturbance_witness :
  Copia.runSimulation (H0 := Float64.math (λ v, v)) quiet_PI (λ _, 0%float)
  = Copia.runSimulation (H0 := Float64.math (λ v, v)) quiet_PI (λ _, dec 9 10)
  ∧ Copia.runSimulation unit_lag_real (λ _, 0%R)
    = Copia.runSimulation unit_lag_real (λ _, (1 / 2)%R).
Proof.
  destruct runSimulation_deterministic_without_disturbance as [Hdouble Hreal].
  split.
  - apply Hdouble; [reflexivity | reflexivity | |];
      intros _; split; vm_compute; reflexivity.
  - apply Hreal; reflexivity.
Defined.

(** * More of the scripts *)

(** ** The runs of the examples *)

(** The two loops around [1 / (s + 1)] over the reals complete, in two
    steps. *)
Lemma unit_lag_real_completes (rand : nat → R) :
  ∃ d, Copia.runSimulation unit_lag_real rand = Completed d ∧ run_shape 2 1%R d.
Proof.
  eapply (Copia_runSimulation_shape unit_lag_real rand) with (steps := 2%nat).
  - done.
  - apply existsb_isNaN_real.
  - apply existsb_isNaN_real.
  - apply Copia_tfToStateSpace_proper; [|simpl; lia].
    apply Reqb_neq. unfold lit. simpl. lra.
  - apply (to_length_floor_real _ 2); [|lia].
    change (IZR 2 <= 2 / 1 < IZR 3)%R. lra.
Qed.

Lemma unit_lag_Profesor_completes (amplitude : R) :
  ∃ d, Profesor.runSimulation (unit_lag_Profesor amplitude) = Completed d
       ∧ run_shape 2 1%R d.
Proof.
  eapply (Profesor_runSimulation_shape (unit_lag_Profesor amplitude))
    with (steps := 2%nat).
  - done.
  - done.
  - apply Profesor_tfToStateSpace_proper. simpl. lia.
  - apply (to_length_floor_real _ 2); [|lia].
    change (IZR 2 <= 2 / 1 < IZR 3)%R. lra.
Qed.

(** ** How the conversions end *)

Section DimensionFacts.
Context {num : Type} `{Number num}.
Local Open Scope js_scope.

Lemma length_unit_last n : length (unit_last (num := num) n) = n.
Proof.
  destruct n as [|m]; [done|]. unfold unit_last.
  by rewrite length_insert, length_replicate.
Qed.

Lemma companion_square n coef :
  length (companion (num := num) n coef) = n
  ∧ Forall (λ r, length r = n) (companion n coef).
Proof.
  destruct (companion_spec n coef) as [Hlen Hrows]. split; [done|].
  apply Forall_lookup. intros i r Hi.
  assert (i < n)%nat as Hin by (rewrite <- Hlen; by eapply lookup_lt_Some).
  destruct (Hrows i Hin) as (r' & Hr' & Hl & _). congruence.
Qed.
End DimensionFacts.

(** How a call of Copia's [tfToStateSpace] ends.  It returns a model when the
    denominator has a leading coefficient that is not 0 and the numerator is
    no longer than the denominator, and the model has the dimension [n] of
    the denominator's order: [A] is [n] by [n], [B] and [C] have [n] entries.
    It throws a RangeError when only the numerator is too long, and its own
    Error when the denominator is empty or its leading coefficient is 0. *)
Theorem Copia_tfToStateSpace_outcomes {num : Type} `{Number num} (nm den : list num) :
  match Copia.tfToStateSpace nm den with
  | Ok ss =>
      (∃ d0 rest, den = d0 :: rest ∧ eqb d0 (lit 0) = false)
      ∧ (length nm ≤ length den)%nat
      ∧ length (A ss) = (length den - 1)%nat
      ∧ Forall (λ r, length r = (length den - 1)%nat) (A ss)
      ∧ length (B ss) = (length den - 1)%nat
      ∧ length (C ss) = (length den - 1)%nat
  | Throw RangeError =>
      (∃ d0 rest, den = d0 :: rest ∧ eqb d0 (lit 0) = false)
      ∧ (length den < length nm)%nat
  | Throw (Error msg) =>
      den = [] ∨ ∃ d0 rest, den = d0 :: rest ∧ eqb d0 (lit 0) = true
  end.
Proof.
  destruct den as [|d0 rest]; [by left|].
  unfold Copia.tfToStateSpace.
  destruct (eqb d0 (lit 0)) eqn:Hd0; [right; by exists d0, rest|].
  unfold pad_numerator. rewrite !length_fmap.
  cbn [length]. replace (S (length rest) - 1)%nat with (length rest) by lia.
  destruct (length rest + 1 <? length nm)%nat eqn:Hlen.
  - apply Nat.ltb_lt in Hlen. split; [by exists d0, rest|lia].
  - apply Nat.ltb_ge in Hlen. cbn [A B C].
    destruct (companion_square (length rest)
                (λ i, aget ((λ d, div d d0) <$> d0 :: rest) (length rest - i)))
      as [HA HAr].
    split_and!; [by exists d0, rest | lia | done | done | apply length_unit_last |].
    rewrite length_drop, length_app, length_replicate, length_fmap. lia.
Qed.

(** How a call of Profesor's [tfToStateSpace] ends: it has no exit of its
    own.  With [n] the number of denominator coefficients after the first, it
    returns a model of dimension [n] whenever the numerator has at most
    [n + 1] coefficients, the denominator be empty or led by 0, and throws a
    RangeError otherwise. *)
Theorem Profesor_tfToStateSpace_outcomes {num : Type} `{Number num} (nm den : list num) :
  match Profesor.tfToStateSpace nm den with
  | Ok ss =>
      (length nm ≤ length den - 1 + 1)%nat
      ∧ length (A ss) = (length den - 1)%nat
      ∧ Forall (λ r, length r = (length den - 1)%nat) (A ss)
      ∧ length (B ss) = (length den - 1)%nat
      ∧ length (C ss) = (length den - 1)%nat
  | Throw RangeError => (length den - 1 + 1 < length nm)%nat
  | Throw (Error msg) => False
  end.
Proof.
  unfold Profesor.tfToStateSpace, pad_numerator. cbv zeta.
  rewrite length_drop, !length_fmap.
  destruct (length den - 1 + 1 <? length nm)%nat eqn:Hlen.
  - by apply Nat.ltb_lt in Hlen.
  - apply Nat.ltb_ge in Hlen. cbn [A B C].
    match goal with
    | |- context [companion ?n ?coef] =>
        destruct (companion_square n coef) as [HA HAr]
    end.
    split_and!; [done | done | done | apply length_unit_last |].
    by rewrite !length_foldl_insert, length_replicate.
Qed.

(** ** Scaling the transfer function *)

Lemma normalized_vscale (c d0 : R) (l : list R) :
  c ≠ 0%R → d0 ≠ 0%R →
  (λ d, div d (c * d0)%R) <$> vscale c l = (λ d, div d d0) <$> l.
Proof.
  intros Hc Hd0. unfold vscale. rewrite <- list_fmap_compose.
  apply list_fmap_ext. intros i d Hd. simpl. by field.
Qed.

(** Multiplying the numerator and the denominator by one factor that is not
    0 changes nothing, over the reals: the conversions of Copia and, for a
    leading denominator coefficient that is not 0, of Profesor return the same
    model, or throw the same error. *)
Theorem tfToStateSpace_of_a_scaled_transfer_function (c : R) (nm den : list R) :
  c ≠ 0%R →
  Copia.tfToStateSpace (vscale c nm) (vscale c den) = Copia.tfToStateSpace nm den
  ∧ (∀ d0 rest, den = d0 :: rest → d0 ≠ 0%R →
       Profesor.tfToStateSpace (vscale c nm) (vscale c den)
       = Profesor.tfToStateSpace nm den).
Proof.
  intros Hc. split.
  - destruct den as [|d0 rest]; [done|].
    change (vscale c (d0 :: rest)) with ((c * d0)%R :: vscale c rest).
    unfold Copia.tfToStateSpace.
    destruct (Req_dec_T d0 0) as [->|Hd0].
    + rewrite (Reqb_eq (c * 0)%R (lit 0)) by (unfold lit; simpl; lra).
      by rewrite (Reqb_eq 0%R (lit 0)).
    + rewrite (Reqb_neq (c * d0)%R (lit 0)) by (unfold lit; simpl; nra).
      rewrite (Reqb_neq d0 (lit 0)) by done.
      change ((c * d0)%R :: vscale c rest) with (vscale c (d0 :: rest)).
      by rewrite !normalized_vscale.
  - intros d0 rest -> Hd0.
    change (vscale c (d0 :: rest)) with ((c * d0)%R :: vscale c rest).
    unfold Profesor.tfToStateSpace.
    change (aget ((c * d0)%R :: vscale c rest) 0) with (c * d0)%R.
    change (aget (d0 :: rest) 0) with d0.
    change ((c * d0)%R :: vscale c rest) with (vscale c (d0 :: rest)).
    by rewrite !normalized_vscale.
Qed.

(** On [2 / (2 s + 2)], which is [1 / (s + 1)]. *)
Lemma tfToStateSpace_of_a_scaled_transfer_function_witness :
  Copia.tfToStateSpace (vscale 2%R [1%R]) (vscale 2%R [1; 1]%R)
  = Copia.tfToStateSpace [1%R] [1; 1]%R
  ∧ Profesor.tfToStateSpace (vscale 2%R [1%R]) (vscale 2%R [1; 1]%R)
    = Profesor.tfToStateSpace [1%R] [1; 1]%R.
Proof.
  assert (H2 : 2%R ≠ 0%R) by lra. assert (H1 : 1%R ≠ 0%R) by lra.
  destruct (tfToStateSpace_of_a_scaled_transfer_function 2%R [1%R] [1; 1]%R H2)
    as [HC HP].
  split; [exact HC|]. by apply (HP 1%R [1%R]).
Defined.

(** ** The integrator on linear plants *)

Local Open Scope R_scope.

(** [rungeKutta] on a first-order plant [x' = a x + b u], over the reals: one
    step multiplies the derivative at [x] by the Taylor polynomial of degree
    four of the exact solution, [dt + a dt^2/2 + a^2 dt^3/6 + a^3 dt^4/24]. *)
Theorem rungeKutta_first_order (a b x u dt : R) :
  rungeKutta [[a]] [b] [x] u dt
  = [x + (dt + a * dt ^ 2 / 2 + a ^ 2 * dt ^ 3 / 6 + a ^ 3 * dt ^ 4 / 24)
         * (a * x + b * u)].
Proof.
  unfold rungeKutta, rungeKutta_f, aget, row, dec, lit. simpl.
  f_equal. field.
Qed.

Section LinearityFacts.
Local Open Scope R_scope.

Lemma dot_cons (a b : R) (r x : list R) : dot (a :: r) (b :: x) = a * b + dot r x.
Proof. reflexivity. Qed.

Lemma dot_vadd (r x y : list R) :
  length x = length y → dot r (vadd x y) = dot r x + dot r y.
Proof.
  revert x y. induction r as [|a r IH]; intros x y Hlen.
  - unfold dot. simpl. lra.
  - destruct x as [|b x], y as [|c y]; try discriminate.
    + unfold dot. simpl. lra.
    + injection Hlen as Hlen. change (vadd (b :: x) (c :: y)) with ((b + c) :: vadd x y).
      rewrite !dot_cons, IH by done. lra.
Qed.

Lemma dot_vscale (c : R) (r x : list R) : dot r (vscale c x) = c * dot r x.
Proof.
  revert x. induction r as [|a r IH]; intros x.
  - unfold dot. simpl. lra.
  - destruct x as [|b x]; [unfold dot; simpl; lra|].
    change (vscale c (b :: x)) with ((c * b) :: vscale c x).
    rewrite !dot_cons, IH. lra.
Qed.

Lemma state_derivative_cons (r : list R) (A : list (list R)) (b : R) (B : list R) u x :
  state_derivative (r :: A) (b :: B) u x
  = (dot r x + b * u) :: state_derivative A B u x.
Proof. reflexivity. Qed.

Lemma state_derivative_vadd (A : list (list R)) (B x y : list R) (u v : R) :
  length x = length y →
  state_derivative A B (u + v) (vadd x y)
  = vadd (state_derivative A B u x) (state_derivative A B v y).
Proof.
  intros Hlen. revert B.
  induction A as [|r A IH]; intros [|b B]; try done.
  rewrite !state_derivative_cons, IH, dot_vadd by done.
  change (vadd (?a :: ?l) (?b :: ?k)) with ((a + b) :: vadd l k).
  f_equal. lra.
Qed.

Lemma state_derivative_vscale (A : list (list R)) (B x : list R) (c u : R) :
  state_derivative A B (c * u) (vscale c x) = vscale c (state_derivative A B u x).
Proof.
  revert B. induction A as [|r A IH]; intros [|b B]; try done.
  rewrite !state_derivative_cons, IH, dot_vscale.
  change (vscale c (?a :: ?l)) with ((c * a) :: vscale c l).
  f_equal. lra.
Qed.

Lemma length_vadd_eq (a b : list R) n :
  length a = n → length b = n → length (vadd a b) = n.
Proof. intros Ha Hb. rewrite length_vadd. lia. Qed.

Lemma length_vscale_eq (c : R) (a : list R) n : length a = n → length (vscale c a) = n.
Proof. intros Ha. by rewrite length_vscale. Qed.

Lemma aget_vadd_eq (a b : list R) n i :
  length a = n → length b = n → (i < n)%nat →
  aget (vadd a b) i = aget a i + aget b i.
Proof. intros Ha Hb Hi. apply aget_vadd; lia. Qed.

Lemma aget_vscale_eq (c : R) (a : list R) n i :
  length a = n → (i < n)%nat → aget (vscale c a) i = c * aget a i.
Proof. intros Ha Hi. apply aget_vscale. lia. Qed.

(** One stage and the combination of the four, on sums and on multiples. *)
Lemma stage_vadd (x y kx ky : list R) (h : R) :
  length y = length x → length kx = length x → length ky = length x →
  vadd (vadd x y) (vscale h (vadd kx ky))
  = vadd (vadd x (vscale h kx)) (vadd y (vscale h ky)).
Proof.
  intros Hy Hkx Hky. apply list_eq_aget.
  - rewrite !length_vadd, !length_vscale, !length_vadd. lia.
  - intros i Hi. rewrite !length_vadd, !length_vscale, !length_vadd in Hi.
    rewrite !aget_vadd, !aget_vscale, !aget_vadd;
      rewrite ?length_vadd, ?length_vscale, ?length_vadd; try lia.
    lra.
Qed.

Lemma stage_vscale (x k : list R) (c h : R) :
  vadd (vscale c x) (vscale h (vscale c k)) = vscale c (vadd x (vscale h k)).
Proof.
  unfold vadd, vscale. revert k. induction x as [|a x IH]; intros [|b k]; try done.
  simpl. rewrite IH. f_equal. lra.
Qed.

Lemma vscale_vadd (c : R) (a b : list R) :
  vscale c (vadd a b) = vadd (vscale c a) (vscale c b).
Proof.
  unfold vadd, vscale. revert b. induction a as [|v a IH]; intros [|w b]; try done.
  simpl. rewrite IH. f_equal. lra.
Qed.

Lemma length_stage (x k : list R) (h : R) :
  length k = length x → length (vadd x (vscale h k)) = length x.
Proof. intros Hk. rewrite length_vadd, length_vscale. lia. Qed.
End LinearityFacts.

Section Superposition.
Local Open Scope R_scope.

Lemma rk4_update_vadd (A : list (list R)) (B x y : list R) (u v dt : R) :
  length A = length x → length B = length x → length y = length x →
  rk4_update A B (vadd x y) (u + v) dt
  = vadd (rk4_update A B x u dt) (rk4_update A B y v dt).
Proof.
  intros HA HB Hy. unfold rk4_update. cbv zeta.
  assert (Hf : ∀ w z, length (state_derivative A B w z) = length x)
    by (intros w z; rewrite length_state_derivative; lia).
  rewrite (state_derivative_vadd A B x y) by done.
  set (k1x := state_derivative A B u x). set (k1y := state_derivative A B v y).
  rewrite (stage_vadd x y k1x k1y) by (done || apply Hf).
  rewrite state_derivative_vadd by (rewrite !length_stage; first [done | apply Hf | rewrite Hy; apply Hf]).
  set (k2x := state_derivative A B u (vadd x _)).
  set (k2y := state_derivative A B v (vadd y _)).
  rewrite (stage_vadd x y k2x k2y) by (done || apply Hf).
  rewrite state_derivative_vadd by (rewrite !length_stage; first [done | apply Hf | rewrite Hy; apply Hf]).
  set (k3x := state_derivative A B u (vadd x _)).
  set (k3y := state_derivative A B v (vadd y _)).
  rewrite (stage_vadd x y k3x k3y) by (done || apply Hf).
  rewrite state_derivative_vadd by (rewrite !length_stage; first [done | apply Hf | rewrite Hy; apply Hf]).
  set (k4x := state_derivative A B u (vadd x _)).
  set (k4y := state_derivative A B v (vadd y _)).
  assert (Hk : length k1x = length x ∧ length k1y = length x
             ∧ length k2x = length x ∧ length k2y = length x
             ∧ length k3x = length x ∧ length k3y = length x
             ∧ length k4x = length x ∧ length k4y = length x)
    by (split_and!; apply Hf).
  destruct Hk as (? & ? & ? & ? & ? & ? & ? & ?).
  clearbody k1x k1y k2x k2y k3x k3y k4x k4y.
  apply list_eq_aget.
  - transitivity (length x); [|symmetry];
      repeat first [assumption | reflexivity | apply length_vadd_eq | apply length_vscale_eq].
  - intros i Hi.
    replace (length (vadd (vadd x y) _)) with (length x) in Hi
      by (symmetry;
          repeat first [assumption | reflexivity | apply length_vadd_eq | apply length_vscale_eq]).
    repeat first
      [ rewrite (aget_vadd_eq _ _ (length x) i);
          [| repeat first [assumption | reflexivity | apply length_vadd_eq | apply length_vscale_eq]..
           | exact Hi]
      | rewrite (aget_vscale_eq _ _ (length x) i);
          [| repeat first [assumption | reflexivity | apply length_vadd_eq | apply length_vscale_eq]
           | exact Hi] ].
    lra.
Qed.

Lemma rk4_update_vscale (A : list (list R)) (B x : list R) (c u dt : R) :
  rk4_update A B (vscale c x) (c * u) dt = vscale c (rk4_update A B x u dt).
Proof.
  unfold rk4_update. cbv zeta.
  repeat first [rewrite state_derivative_vscale | rewrite stage_vscale].
  set (k1 := state_derivative A B u x).
  set (k2 := state_derivative A B u (vadd x (vscale (dt / 2) k1))).
  set (k3 := state_derivative A B u (vadd x (vscale (dt / 2) k2))).
  set (k4 := state_derivative A B u (vadd x (vscale dt k3))).
  by rewrite <- vscale_vadd, stage_vscale.
Qed.
End Superposition.

(** [rungeKutta] is linear, over the reals and on a model of the state's
    dimension: the step from a sum of states under a sum of controls is the
    sum of the steps, and the step from a multiple the multiple of the
    step. *)
Theorem rungeKutta_superposition (A : list (list R)) (B x y : list R) (u v c dt : R) :
  length A = length x → Forall (λ r, length r = length x) A →
  length B = length x → length y = length x →
  rungeKutta A B (vadd x y) (u + v)%R dt
  = vadd (rungeKutta A B x u dt) (rungeKutta A B y v dt)
  ∧ rungeKutta A B (vscale c x) (c * u)%R dt = vscale c (rungeKutta A B x u dt).
Proof.
  intros HA Hrows HB Hy.
  assert (Hxy : length (vadd x y) = length x) by (rewrite length_vadd; lia).
  assert (Hcx : length (vscale c x) = length x) by apply length_vscale.
  split.
  - rewrite !rungeKutta_is_rk4;
      rewrite ?Hxy, ?Hy; try done.
    by apply rk4_update_vadd.
  - rewrite !rungeKutta_is_rk4; rewrite ?Hcx; try done.
    apply rk4_update_vscale.
Qed.

(** On the double integrator: the states [(1, 0)] and [(0, 1)] under the
    controls 1 and 2, and the state [(1, 0)] three times over. *)
Lemma rungeKutta_superposition_witness :
  rungeKutta [[0; 1]; [0; 0]]%R [0; 1]%R (vadd [1; 0]%R [0; 1]%R) (1 + 2)%R 1%R
  = vadd (rungeKutta [[0; 1]; [0; 0]]%R [0; 1]%R [1; 0]%R 1%R 1%R)
         (rungeKutta [[0; 1]; [0; 0]]%R [0; 1]%R [0; 1]%R 2%R 1%R)
  ∧ rungeKutta [[0; 1]; [0; 0]]%R [0; 1]%R (vscale 3%R [1; 0]%R) (3 * 1)%R 1%R
    = vscale 3%R (rungeKutta [[0; 1]; [0; 0]]%R [0; 1]%R [1; 0]%R 1%R 1%R).
Proof.
  apply (rungeKutta_superposition [[0; 1]; [0; 0]]%R [0; 1]%R [1; 0]%R [0; 1]%R
           1%R 2%R 3%R 1%R).
  - reflexivity.
  - repeat constructor.
  - reflexivity.
  - reflexivity.
Defined.

(** ** The transfer function of the models *)

Section PolynomialFacts.
Local Open Scope R_scope.

Lemma poly_eval_from (p : list R) (a s : R) :
  foldl (λ acc c, acc * s + c) a p = a * s ^ length p + poly_eval p s.
Proof.
  unfold poly_eval. revert a. induction p as [|c p IH]; intros a; [simpl; lra|].
  cbn [foldl length]. rewrite IH, (IH (0 * s + c)). simpl. lra.
Qed.

Lemma poly_eval_cons (c : R) (p : list R) (s : R) :
  poly_eval (c :: p) s = c * s ^ length p + poly_eval p s.
Proof.
  unfold poly_eval at 1. cbn [foldl]. rewrite poly_eval_from. lra.
Qed.

Lemma poly_eval_zeros (m : nat) (p : list R) (s : R) :
  poly_eval (replicate m 0 ++ p) s = poly_eval p s.
Proof.
  induction m as [|m IH]; [done|].
  cbn [replicate app]. rewrite poly_eval_cons, IH. lra.
Qed.

Lemma poly_eval_zip_sub (c : R) (P Q : list R) (s : R) :
  length P = length Q →
  poly_eval (zip_with (λ p q, p - c * q) P Q) s = poly_eval P s - c * poly_eval Q s.
Proof.
  revert Q. induction P as [|p P IH]; intros [|q Q] Hlen; try discriminate.
  - unfold poly_eval. simpl. lra.
  - injection Hlen as Hlen. cbn [zip_with].
    rewrite !poly_eval_cons, IH, length_zip_with by done.
    rewrite <- Hlen, Nat.min_id. lra.
Qed.

Lemma poly_eval_opp (Q : list R) (s : R) :
  poly_eval (Ropp <$> Q) s = - poly_eval Q s.
Proof.
  induction Q as [|q Q IH]; [unfold poly_eval; simpl; lra|].
  rewrite fmap_cons, !poly_eval_cons, IH, length_fmap. lra.
Qed.

(** Normalizing divides the polynomial: the quotient of two polynomials
    normalized by one coefficient is the quotient of the given ones. *)
Lemma poly_eval_normalized (d0 : R) (p : list R) (s : R) :
  poly_eval (normalized d0 p) s = poly_eval p s / d0.
Proof.
  unfold normalized. induction p as [|c p IH]; [unfold poly_eval; simpl; lra|].
  rewrite fmap_cons, !poly_eval_cons, IH, length_fmap. simpl. lra.
Qed.

Lemma powers_S (s : R) (n : nat) : powers s (S n) = powers s n ++ [s ^ n].
Proof. unfold powers. by rewrite seq_S, fmap_app. Qed.

Lemma length_powers (s : R) (n : nat) : length (powers s n) = n.
Proof. unfold powers. by rewrite length_fmap, length_seq. Qed.

Lemma aget_powers (s : R) (n i : nat) : (i < n)%nat → aget (powers s n) i = s ^ i.
Proof. intros Hi. unfold powers. by rewrite aget_fmap_seq. Qed.

Lemma dot_app (l1 l2 x1 x2 : list R) :
  length l1 = length x1 → dot (l1 ++ l2) (x1 ++ x2) = dot l1 x1 + dot l2 x2.
Proof.
  revert x1. induction l1 as [|a l1 IH]; intros [|b x1] Hlen; try discriminate.
  - simpl. unfold dot at 2. simpl. lra.
  - injection Hlen as Hlen. cbn [app]. rewrite !dot_cons, IH by done. lra.
Qed.

(** The product of a row with the powers of [s] is the polynomial whose
    coefficients are the row read backwards. *)
Lemma dot_powers (l : list R) (s : R) :
  dot l (powers s (length l)) = poly_eval (reverse l) s.
Proof.
  induction l as [|a l IH] using rev_ind; [done|].
  rewrite length_app, Nat.add_1_r, powers_S, dot_app by by rewrite length_powers.
  rewrite IH, reverse_snoc, poly_eval_cons, length_reverse.
  unfold dot at 1. simpl. lra.
Qed.

Lemma reverse_fmap_seq (f : nat → R) (n : nat) :
  reverse (f <$> seq 0 n) = (λ k, f (n - 1 - k)%nat) <$> seq 0 n.
Proof.
  apply list_eq_aget; [by rewrite length_reverse, !length_fmap|].
  intros i Hi. rewrite length_reverse, length_fmap, length_seq in Hi.
  rewrite aget_fmap_seq by done. apply aget_lookup.
  rewrite reverse_lookup by (rewrite length_fmap, length_seq; lia).
  rewrite length_fmap, length_seq, list_lookup_fmap.
  rewrite (proj2 (lookup_seq 0 n (n - S i) (n - S i))) by lia.
  simpl. do 2 f_equal. lia.
Qed.

Lemma dot_powers_of_entries (f : nat → R) (n : nat) (s : R) :
  dot (f <$> seq 0 n) (powers s n)
  = poly_eval ((λ k, f (n - 1 - k)%nat) <$> seq 0 n) s.
Proof.
  rewrite <- reverse_fmap_seq, <- dot_powers.
  by rewrite length_fmap, length_seq.
Qed.

Lemma list_of_entries (r : list R) (g : nat → R) :
  (∀ j, (j < length r)%nat → r !! j = Some (g j)) → r = g <$> seq 0 (length r).
Proof.
  intros Hr. apply list_eq_aget; [by rewrite length_fmap, length_seq|].
  intros j Hj. rewrite aget_fmap_seq by done. by apply aget_lookup, Hr.
Qed.

(** The row with a 1 at [k] and zeros elsewhere picks the entry at [k]. *)
Lemma dot_unit_row (g : nat → R) (n k start : nat) :
  dot ((λ j, if decide (j = k) then 1 else 0) <$> seq start n) (g <$> seq start n)
  = if decide (start ≤ k < start + n)%nat then g k else 0.
Proof.
  revert start. induction n as [|n IH]; intros start.
  - simpl. unfold dot. simpl. case_decide; [lia | done].
  - cbn [seq]. rewrite !fmap_cons, dot_cons, IH.
    repeat case_decide; subst; try lia; lra.
Qed.
End PolynomialFacts.

Section RealisationFacts.
Local Open Scope R_scope.

Lemma aget_state_derivative (A : list (list R)) (B x : list R) (u : R) i :
  (i < length A)%nat → (i < length B)%nat →
  aget (state_derivative A B u x) i = dot (row A i) x + aget B i * u.
Proof.
  intros HA HB. unfold state_derivative, row. apply aget_lookup.
  rewrite lookup_zip_with, (list_lookup_lookup_total_lt A i HA). simpl.
  by rewrite (lookup_aget B i HB).
Qed.

(** The state equation of a companion matrix: with the coefficients [Q] of
    the monic denominator after the first, the powers of [s] are carried to
    their multiples. *)
Lemma companion_state_equation (n : nat) (coef : nat → R) (Q : list R) (s : R) :
  length Q = n → (∀ i, (i < n)%nat → coef i = aget Q (n - 1 - i)) →
  state_derivative (companion n coef) (unit_last n) (s ^ n + poly_eval Q s)
    (powers s n)
  = vscale s (powers s n).
Proof.
  intros HQ Hcoef.
  destruct (companion_spec (num := R) n coef) as [HA Hrows].
  destruct (unit_last_spec (num := R) n) as [HB HBi].
  apply list_eq_aget.
  - rewrite length_state_derivative, length_vscale, length_powers. lia.
  - intros i Hi. rewrite length_state_derivative in Hi.
    assert (Hin : (i < n)%nat) by lia.
    rewrite aget_state_derivative by lia.
    rewrite aget_vscale by (rewrite length_powers; lia).
    rewrite aget_powers by done.
    rewrite (aget_lookup _ _ _ (HBi i Hin)).
    destruct (Hrows i Hin) as (r & Hr & Hlen & Hent).
    unfold row. rewrite Hr. cbn [default].
    rewrite (list_of_entries r _ ltac:(rewrite Hlen; exact Hent)), Hlen.
    unfold Datatypes.id.
    destruct (decide (i = (n - 1)%nat)) as [->|Hi'].
    + rewrite dot_powers_of_entries.
      assert (Hrow : (λ k, opp (coef (n - 1 - k)%nat)) <$> seq 0 n = Ropp <$> Q).
      { apply list_eq_aget; [by rewrite !length_fmap, length_seq|].
        intros k Hk. rewrite length_fmap, length_seq in Hk.
        rewrite aget_fmap_seq, aget_fmap by lia.
        rewrite Hcoef by lia. simpl. do 2 f_equal. lia. }
      rewrite Hrow, poly_eval_opp. unfold lit. simpl.
      assert (Hpow : s ^ n = s * s ^ (n - 1)).
      { replace n with (S (n - 1)) at 1 by lia. done. }
      rewrite Hpow. lra.
    + change (dot ((λ j, if decide (j = (i + 1)%nat) then 1 else 0) <$> seq 0 n)
                (powers s n) + 0 * (s ^ n + poly_eval Q s) = s * s ^ i).
      unfold powers. rewrite dot_unit_row.
      rewrite decide_True by lia. rewrite Nat.add_1_r. simpl. lra.
Qed.

Lemma poly_eval_monic (d0 : R) (rest : list R) (s : R) :
  d0 ≠ 0 →
  poly_eval (normalized d0 (d0 :: rest)) s
  = s ^ length rest + poly_eval (normalized d0 rest) s.
Proof.
  intros Hd0. unfold normalized. rewrite fmap_cons, poly_eval_cons, length_fmap.
  simpl. replace (d0 / d0) with 1 by (by field). lra.
Qed.

Lemma padded_cons (n : nat) (nm : list R) :
  (length nm ≤ n + 1)%nat → padded n nm = aget (padded n nm) 0 :: drop 1 (padded n nm).
Proof.
  intros Hlen. pose proof (length_padded n nm Hlen) as HP.
  destruct (padded n nm) as [|p0 P]; [done|]. done.
Qed.

Lemma padded_strictly_proper (n : nat) (nm : list R) :
  (length nm ≤ n)%nat → aget (padded n nm) 0 = 0.
Proof.
  intros Hlen. unfold padded.
  replace (n + 1 - length nm)%nat with (S (n - length nm)) by lia. done.
Qed.
End RealisationFacts.

(** Where the denominator is not 0, the state [X / den(s)] of a model that
    realises [nm / den] solves [s x = A x + B], and the output [C x + D] it
    gives is the quotient [nm(s) / den(s)]. *)
Lemma realises_quotient (ss : StateSpace R) (nm den : list R) (s : R) :
  realises ss nm den → poly_eval den s ≠ 0%R →
  let xi := vscale (/ poly_eval den s)%R (powers s (length (A ss))) in
  state_derivative (A ss) (B ss) 1%R xi = vscale s xi
  ∧ (dot (C ss) xi + D ss)%R = (poly_eval nm s / poly_eval den s)%R.
Proof.
  intros Hreal Hden xi. destruct (Hreal s) as [Hstate Hout]. cbv zeta in *.
  split.
  - subst xi.
    replace 1%R with (/ poly_eval den s * poly_eval den s)%R at 1 by (by field).
    rewrite state_derivative_vscale, Hstate.
    unfold vscale. rewrite <- !list_fmap_compose.
    apply list_fmap_ext. intros i x Hx. simpl. lra.
  - subst xi. rewrite dot_vscale, <- Hout. by field.
Qed.

(** Profesor's model realises the transfer function it is given: for a
    numerator no longer than the denominator and a leading denominator
    coefficient that is not 0, the model it returns has, at every [s], the
    transfer function [nm(s) / den(s)] of the normalized coefficients, which
    is that of the given ones. *)
Theorem Profesor_model_realises_the_transfer_function (nm rest : list R) (d0 : R) :
  d0 ≠ 0%R → (length nm ≤ S (length rest))%nat →
  ∃ ss, Profesor.tfToStateSpace nm (d0 :: rest) = Ok ss
        ∧ realises ss (normalized d0 nm) (normalized d0 (d0 :: rest)).
Proof.
  intros Hd0 Hlen. eexists. split; [by apply Profesor_tfToStateSpace_proper|].
  set (n := length rest). set (Q := normalized d0 rest).
  set (P := padded n (normalized d0 nm)).
  assert (HQ : length Q = n) by apply length_normalized.
  assert (HP : length P = S n)
    by (apply length_padded; rewrite length_normalized; lia).
  intros s. cbn [A B C D].
  rewrite (proj1 (companion_spec (num := R) n _)).
  rewrite poly_eval_monic by done. fold n Q. split.
  - by apply companion_state_equation.
  - rewrite dot_powers_of_entries.
    assert (HC : (λ k, sub (aget P (n - (n - 1 - k)))
                           (mul (aget P 0) (aget Q (n - 1 - (n - 1 - k))))) <$> seq 0 n
                 = zip_with (λ p q, (p - aget P 0 * q)%R) (drop 1 P) Q).
    { apply list_eq_aget.
      - rewrite length_fmap, length_seq, length_zip_with, length_drop. lia.
      - intros k Hk. rewrite length_fmap, length_seq in Hk.
        rewrite aget_fmap_seq by done.
        replace (n - (n - 1 - k))%nat with (1 + k)%nat by lia.
        replace (n - 1 - (n - 1 - k))%nat with k by lia.
        symmetry. apply aget_lookup.
        rewrite lookup_zip_with, lookup_drop.
        by rewrite (lookup_aget P (1 + k)), (lookup_aget Q k) by lia. }
    rewrite HC, poly_eval_zip_sub by (rewrite length_drop; lia).
    assert (Hnum : poly_eval (normalized d0 nm) s
                   = (aget P 0 * s ^ n + poly_eval (drop 1 P) s)%R).
    { transitivity (poly_eval P s).
      - symmetry. apply (poly_eval_zeros (n + 1 - length (normalized d0 nm))).
      - unfold P at 1.
        rewrite (padded_cons n (normalized d0 nm)) by (rewrite length_normalized; lia).
        fold P. rewrite poly_eval_cons, length_drop, HP.
        replace (S n - 1)%nat with n by lia. done. }
    rewrite Hnum. lra.
Qed.

(** Copia's model realises another transfer function than the one it is
    given.  For a numerator shorter than the denominator and a leading
    denominator coefficient that is not 0, the numerator it realises is the
    given one, normalized and padded to the order of the denominator, read
    backwards: the coefficient of the highest power taken for the constant
    term. *)
Theorem Copia_model_realises_the_reversed_numerator (nm rest : list R) (d0 : R) :
  d0 ≠ 0%R → (length nm ≤ length rest)%nat →
  ∃ ss, Copia.tfToStateSpace nm (d0 :: rest) = Ok ss
        ∧ realises ss
            (reverse (drop 1 (padded (length rest) (normalized d0 nm))))
            (normalized d0 (d0 :: rest)).
Proof.
  intros Hd0 Hlen. eexists. split.
  { apply Copia_tfToStateSpace_proper; [by apply Reqb_neq | lia]. }
  set (n := length rest). set (Q := normalized d0 rest).
  set (P := padded n (normalized d0 nm)).
  assert (HQ : length Q = n) by apply length_normalized.
  assert (HP : length P = S n)
    by (apply length_padded; rewrite length_normalized; lia).
  intros s. cbn [A B C D].
  rewrite (proj1 (companion_spec (num := R) n _)).
  rewrite poly_eval_monic by done. fold n Q. split.
  - apply companion_state_equation; [done|].
    intros i Hi. unfold normalized. rewrite fmap_cons. fold (normalized d0 rest).
    fold Q. unfold aget. replace (n - i)%nat with (S (n - 1 - i)) by lia. done.
  - unfold P at 2. rewrite padded_strictly_proper by (rewrite length_normalized; lia).
    replace n with (length (drop 1 P)) at 1 by (rewrite length_drop; lia).
    rewrite dot_powers. lra.
Qed.

(** On the plant [1 / (s^2 + 10 s + 20)] of the motor preset: Profesor
    realises it. *)
Lemma Profesor_model_realises_the_transfer_function_witness :
  ∃ ss, Profesor.tfToStateSpace [1%R] [1; 10; 20]%R = Ok ss
        ∧ realises ss (normalized 1%R [1%R]) (normalized 1%R [1; 10; 20]%R).
Proof.
  apply (Profesor_model_realises_the_transfer_function [1%R] [10; 20]%R 1%R).
  - lra.
  - simpl. lia.
Defined.

(** On the same plant Copia realises [s / (s^2 + 10 s + 20)]: the numerator
    [1], padded to [0, 0, 1], is read backwards after its first coefficient. *)
Lemma Copia_model_realises_the_reversed_numerator_witness :
  ∃ ss, Copia.tfToStateSpace [1%R] [1; 10; 20]%R = Ok ss
        ∧ realises ss
            (reverse (drop 1 (padded 2 (normalized 1%R [1%R]))))
            (normalized 1%R [1; 10; 20]%R).
Proof.
  apply (Copia_model_realises_the_reversed_numerator [1%R] [10; 20]%R 1%R).
  - lra.
  - simpl. lia.
Defined.

Example numerator_of_the_motor_preset (s : R) :
  poly_eval (normalized 1%R [1%R]) s = 1%R
  ∧ poly_eval (reverse (drop 1 (padded 2 (normalized 1%R [1%R])))) s = s.
Proof.
  unfold poly_eval, normalized, padded, lit. simpl. split; lra.
Qed.

(** ** The reference signals *)

Section ReferenceFacts.
Local Open Scope R_scope.

Lemma Math_sign_real (v : R) :
  Math_sign v = (if Rlt_dec 0 v then 1 else if Rlt_dec v 0 then -1 else 0).
Proof.
  unfold Math_sign, lit. simpl. unfold Real.Rltb.
  destruct (Rlt_dec 0 v), (Rlt_dec v 0); try done. lra.
Qed.

Lemma Math_min_real (a b : R) : Math_min a b = Rmin a b.
Proof.
  unfold Math_min. rewrite !isNaN_real.
  destruct (Rlt_dec a b) as [Hab|Hab].
  - rewrite Rltb_lt by done. rewrite Rmin_left; [done | lra].
  - rewrite Rltb_ge by lra. destruct (Rlt_dec b a) as [Hba|Hba].
    + rewrite Rltb_lt by done. rewrite Rmin_right; [done | lra].
    + rewrite Rltb_ge by lra. assert (a = b) as -> by lra.
      rewrite Rmin_left by lra.
      destruct (Req_dec_T b 0) as [->|Hb].
      * rewrite Reqb_eq by done. simpl. lra.
      * by rewrite Reqb_neq.
Qed.

Lemma Rabs_scaled (amp s : R) : Rabs s <= 1 → Rabs (amp * s) <= Rabs amp.
Proof.
  intros Hs. rewrite Rabs_mult. pose proof (Rabs_pos amp). nra.
Qed.

Lemma Rabs_sin (x : R) : Rabs (sin x) <= 1.
Proof. apply Rabs_le. pose proof (SIN_bound x). lra. Qed.

Lemma Rabs_sign (v : R) : Rabs (Math_sign v) <= 1.
Proof.
  rewrite Math_sign_real.
  destruct (Rlt_dec 0 v); [|destruct (Rlt_dec v 0)]; apply Rabs_le; lra.
Qed.
End ReferenceFacts.

(** The reference over the reals stays within the amplitude: in Copia for
    every kind but the ramp, which grows without bound, and in Profesor, whose
    ramp stops at 1, for every kind at every time from 0 on. *)
Theorem reference_within_the_amplitude :
  (∀ (t : R) (type : string) (amp freq : R), type ≠ "ramp"%string →
     (Rabs (Copia.generateReference t type amp freq) <= Rabs amp)%R)
  ∧ (∀ (t : R) (type : string) (amp freq : R), (0 <= t)%R →
       (Rabs (Profesor.generateReference t type amp freq) <= Rabs amp)%R).
Proof.
  split.
  - intros t type amp freq Hramp. unfold Copia.generateReference.
    rewrite (proj2 (String.eqb_neq _ _) Hramp).
    repeat match goal with
           | |- context [String.eqb ?a ?b] => destruct (String.eqb a b)
           end; try lra.
    + apply Rabs_scaled, Rabs_sin.
    + apply Rabs_scaled, Rabs_sign.
  - intros t type amp freq Ht. unfold Profesor.generateReference.
    repeat match goal with
           | |- context [String.eqb ?a ?b] => destruct (String.eqb a b)
           end; try lra.
    + apply Rabs_scaled. rewrite Math_min_real. unfold lit. simpl.
      apply Rabs_le. unfold Rmin. destruct (Rle_dec 1 t); lra.
    + apply Rabs_scaled, Rabs_sin.
    + apply Rabs_scaled, Rabs_sign.
Qed.

(** The two ramps over the reals: Profesor's is Copia's [amp * t] up to time
    1 and stays at [amp] from there on. *)
Theorem ramp_of_Profesor_saturates (t amp freq : R) :
  ((t <= 1)%R →
     Profesor.generateReference t "ramp" amp freq
     = Copia.generateReference t "ramp" amp freq)
  ∧ ((1 <= t)%R → Profesor.generateReference t "ramp" amp freq = amp).
Proof.
  unfold Profesor.generateReference, Copia.generateReference.
  cbn [String.eqb Ascii.eqb Bool.eqb]. rewrite Math_min_real. unfold lit. simpl.
  split; intros Ht.
  - by rewrite Rmin_right.
  - rewrite Rmin_left by done. lra.
Qed.

(** On a square wave of amplitude 2 in Copia and on the ramp of amplitude 2
    at time 5 in Profesor. *)
Lemma reference_within_the_amplitude_witness :
  (Rabs (Copia.generateReference 5%R "square" 2%R 1%R) <= Rabs 2)%R
  ∧ (Rabs (Profesor.generateReference 5%R "ramp" 2%R 1%R) <= Rabs 2)%R.
Proof.
  destruct reference_within_the_amplitude as [HC HP]. split.
  - apply HC. discriminate.
  - apply HP. lra.
Defined.

(** At the times 1/2 and 5. *)
Lemma ramp_of_Profesor_saturates_witness :
  Profesor.generateReference (1 / 2)%R "ramp" 2%R 1%R
  = Copia.generateReference (1 / 2)%R "ramp" 2%R 1%R
  ∧ Profesor.generateReference 5%R "ramp" 2%R 1%R = 2%R.
Proof.
  split.
  - apply (proj1 (ramp_of_Profesor_saturates (1 / 2)%R 2%R 1%R)). lra.
  - apply (proj2 (ramp_of_Profesor_saturates 5%R 2%R 1%R)). lra.
Defined.

(** ** The controller over the reals *)

Local Open Scope R_scope.

(** The back-calculation of Copia's controller, over the reals: with the
    anti-windup set to clamping and [Ki] not 0, the integral the controller
    keeps is the one at which the PID law gives the control value it returns,
    saturated or not. *)
Theorem integral_is_consistent_with_the_control
    (cfg : Copia.Config (num := R)) (i : nat) (e I pe fd : R) :
  Copia.antiWindupType cfg = "clamping"%string →
  Copia.ki cfg ≠ 0 →
  let '(u, I', fd') := Copia.controller cfg i e I pe fd in
  let derivative :=
    if String.eqb (Copia.derivativeFilterType cfg) "firstOrder" then fd'
    else if (0 <? i)%nat then (e - pe) / Copia.dt cfg else 0 in
  Copia.kp cfg * e + Copia.ki cfg * I' + Copia.kd cfg * derivative = u.
Proof.
  intros Haw Hki. unfold Copia.controller. rewrite Haw.
  destruct (String.eqb (Copia.derivativeFilterType cfg) "firstOrder");
    cbn [String.eqb]; cbv zeta;
    repeat match goal with
    | |- context [ltb ?a ?b] =>
        let Hc := fresh in destruct (ltb a b) eqn:Hc
    end; unfold lit; simpl;
    match goal with
    | |- context [Copia.kd cfg * ?d] => generalize d; intros d0
    end; first [lra | by field].
Qed.

(** The derivative filter of Copia's controller, over the reals: with a
    positive step the filtered derivative it keeps lies between the one it
    held and the raw derivative of the step. *)
Theorem filtered_derivative_between (cfg : Copia.Config (num := R)) (i : nat)
    (e I pe fd : R) :
  Copia.derivativeFilterType cfg = "firstOrder"%string →
  0 < Copia.dt cfg →
  let derivative := if (0 <? i)%nat then (e - pe) / Copia.dt cfg else 0 in
  let fd' := (Copia.controller cfg i e I pe fd).2 in
  Rmin fd derivative <= fd' <= Rmax fd derivative.
Proof.
  intros Hdf Hdt derivative fd'. subst fd'. unfold Copia.controller. rewrite Hdf.
  cbn [String.eqb Ascii.eqb Bool.eqb]. cbv zeta. fold derivative.
  set (alpha := div (Copia.dt cfg) (add (dec 5 100) (Copia.dt cfg))).
  assert (Halpha : 0 < alpha < 1).
  { subst alpha. unfold dec. simpl.
    split; [apply Rdiv_lt_0_compat; lra|].
    apply (Rmult_lt_reg_r (5 / 100 + Copia.dt cfg)); [lra|].
    unfold Rdiv at 1. rewrite Rmult_assoc, Rinv_l by lra. lra. }
  assert (Hfd : Rmin fd derivative
                <= alpha * derivative + (1 - alpha) * fd <= Rmax fd derivative).
  { unfold Rmin, Rmax. destruct (Rle_dec fd derivative); split; nra. }
  destruct (String.eqb (Copia.antiWindupType cfg) "clamping"); [|exact Hfd].
  repeat match goal with
         | |- context [if ?b then _ else _] => destruct b
         end; exact Hfd.
Qed.

(** On the loop around [1 / (s + 1)]: an error of 10 at step 0 saturates the
    control at 5, and an integral of -15 is kept: [2 * 10 + 1 * (-15) = 5]. *)
Lemma integral_is_consistent_with_the_control_witness :
  Copia.antiWindupType unit_lag_real = "clamping"%string
  ∧ Copia.ki unit_lag_real ≠ 0%R
  ∧ (let '(u, I', fd') := Copia.controller unit_lag_real 0 10%R 0%R 0%R 0%R in
     let derivative :=
       if String.eqb (Copia.derivativeFilterType unit_lag_real) "firstOrder" then fd'
       else if (0 <? 0)%nat then ((10 - 0) / Copia.dt unit_lag_real)%R else 0%R in
     (Copia.kp unit_lag_real * 10 + Copia.ki unit_lag_real * I'
      + Copia.kd unit_lag_real * derivative)%R = u).
Proof.
  assert (Hki : Copia.ki unit_lag_real ≠ 0%R) by (simpl; lra).
  split; [reflexivity|]. split; [exact Hki|].
  apply (integral_is_consistent_with_the_control unit_lag_real 0 10%R 0%R 0%R 0%R);
    [reflexivity | exact Hki].
Defined.

(** On the same loop at step 1: the error rises from 0 to 1 in a step of 1,
    and the filtered derivative moves from 0 towards 1. *)
Lemma filtered_derivative_between_witness :
  Copia.derivativeFilterType unit_lag_real = "firstOrder"%string
  ∧ (0 < Copia.dt unit_lag_real)%R
  ∧ (Rmin 0 ((1 - 0) / Copia.dt unit_lag_real)
     <= (Copia.controller unit_lag_real 1 1%R 0%R 0%R 0%R).2
     <= Rmax 0 ((1 - 0) / Copia.dt unit_lag_real))%R.
Proof.
  assert (Hdt : (0 < Copia.dt unit_lag_real)%R) by (simpl; lra).
  split; [reflexivity|]. split; [exact Hdt|].
  apply (filtered_derivative_between unit_lag_real 1 1%R 0%R 0%R 0%R);
    [reflexivity | exact Hdt].
Defined.

(** ** The clamp in binary64 *)

Section ClampFacts.
Context {num : Type} `{Number num} `{MathLib num}.
Local Open Scope js_scope.

(** What holds of every control value the controller returns, and of the
    zeros the series starts with, holds of the control series of a run. *)
Lemma Copia_control_Forall (P : num → Prop) (cfg : Copia.Config) rand d :
  P (lit 0) →
  (∀ i e I pe fd, P (Copia.controller cfg i e I pe fd).1.1) →
  Copia.runSimulation cfg rand = Completed d →
  Forall P (control d).
Proof.
  intros H0' Hu. unfold Copia.runSimulation.
  destruct (_ || _); [done|].
  destruct (Copia.tfToStateSpace _ _) as [ss|?]; [|done].
  destruct (to_length _) as [steps|]; [|done].
  intros [= <-].
  match goal with
  | |- context [foldl _ ?s0 ?l] =>
      assert (Hs0 : Forall P (control (Copia.data s0)))
        by (simpl; by apply Forall_replicate);
      generalize dependent s0; generalize l
  end.
  intros l. induction l as [|i l IH]; intros s Hs; [done|].
  simpl. apply IH. unfold Copia.iteration.
  match goal with
  | |- context [Copia.controller cfg i ?e ?I0 ?pe ?fd] =>
      pose proof (Hu i e I0 pe fd) as Hi;
      destruct (Copia.controller cfg i e I0 pe fd) as [[u I'] fd']
  end.
  simpl in *. by apply Forall_insert.
Qed.
End ClampFacts.

(** In binary64, with the anti-windup set to clamping, the controller
    returns no value above 5 and none below -5 (NaN is neither). *)
Lemma controller_clamps_binary64 (cfg : Copia.Config (num := float)) i e I pe fd :
  Copia.antiWindupType cfg = "clamping"%string →
  let u := (Copia.controller cfg i e I pe fd).1.1 in
  ltb (lit 5) u = false ∧ ltb u (opp (lit 5)) = false.
Proof.
  intros Haw. unfold Copia.controller. rewrite Haw.
  destruct (String.eqb (Copia.derivativeFilterType cfg) "firstOrder"); cbn [String.eqb];
    cbv zeta;
    repeat match goal with
    | |- context [if ?b then _ else _] => destruct b eqn:?
    end; cbn [fst snd]; try done; by vm_compute.
Qed.

(** Copia's clamp in binary64: with the anti-windup set to clamping no value
    of the control series of a completed run is above 5 or below -5.  (A value
    may be NaN, which is neither.) *)
Theorem control_never_beyond_the_clamp (sin : float → float)
    (cfg : Copia.Config (num := float)) (rand : nat → float) (d : SimulationData float) :
  Copia.antiWindupType cfg = "clamping"%string →
  Copia.runSimulation (H0 := Float64.math sin) cfg rand = Completed d →
  Forall (λ u, PrimFloat.ltb 5 u = false ∧ PrimFloat.ltb u (-5) = false) (control d).
Proof.
  intros Haw Hd.
  apply (Copia_control_Forall (H0 := Float64.math sin) _ cfg rand d); [by vm_compute| |done].
  intros i e I pe fd. apply (controller_clamps_binary64 cfg i e I pe fd Haw).
Qed.

(** On the run of the saturating loop, whose control series is 5 and then
    NaN four times. *)
Lemma control_never_beyond_the_clamp_witness :
  ∃ d, Copia.runSimulation (H0 := Float64.math (λ x, x)) saturating_P (λ _, dec 25 100)
       = Completed d
       ∧ Forall (λ u, PrimFloat.ltb 5 u = false ∧ PrimFloat.ltb u (-5) = false)
           (control d).
Proof.
  eexists. split; [vm_compute; reflexivity|].
  apply (control_never_beyond_the_clamp (λ x, x) saturating_P (λ _, dec 25 100)).
  - reflexivity.
  - vm_compute. reflexivity.
Defined.

(** ** What a run records *)


(** In every completed run of [runSimulation], of Copia and of Profesor, each
    step [i] has recorded the reference at time [i * dt] and the error as
    that reference minus the output it recorded. *)
Theorem runSimulation_records_each_step {num : Type} `{Number num} `{MathLib num} :
  (∀ (cfg : Copia.Config) rand d i,
     Copia.runSimulation cfg rand = Completed d → (i < length (time d))%nat →
     aget (reference d) i
     = Copia.generateReference (mul (of_nat i) (Copia.dt cfg)) (Copia.controlType cfg)
         (Copia.amplitude cfg) (Copia.frequency cfg)
     ∧ aget (error d) i = sub (aget (reference d) i) (aget (output d) i))
  ∧ (∀ (cfg : Profesor.Config) d i,
       Profesor.runSimulation cfg = Completed d → (i < length (time d))%nat →
       aget (reference d) i
       = Profesor.generateReference (mul (of_nat i) (Profesor.dt cfg))
           (Profesor.controlType cfg) (Profesor.amplitude cfg) (Profesor.frequency cfg)
       ∧ aget (error d) i = sub (aget (reference d) i) (aget (output d) i)).
Proof.
  split.
  - apply Copia_completed_records.
  - apply Profesor_completed_records.
Qed.

(** On the PI loop around [1 / (s + 1)]: the second step. *)
Lemma runSimulation_records_each_step_witness :
  ∃ d, Copia.runSimulation unit_lag_real (λ _, 0%R) = Completed d
       ∧ aget (reference d) 1
         = Copia.generateReference (mul (of_nat 1) 1%R) "step" 1%R 1%R
       ∧ aget (error d) 1 = sub (aget (reference d) 1) (aget (output d) 1).
Proof.
  destruct (unit_lag_real_completes (λ _, 0%R)) as (d & Hd & Hs).
  exists d. split; [done|].
  apply (proj1 runSimulation_records_each_step unit_lag_real (λ _, 0%R) d 1%nat Hd).
  rewrite (run_shape_length_time 2 1%R d Hs). lia.
Defined.

(** ** The PID law on the recorded series *)

Section LawFacts.
Context {num : Type} `{Number num} `{MathLib num}.
Local Open Scope js_scope.

(** The sum [integral] holds after the steps below [k], read off the error
    series, and the PID law at step [i] on that series. *)
Lemma accumulated_error_ext (e e' : list num) (dt : num) k :
  (∀ j, (j < k)%nat → aget e j = aget e' j) →
  accumulated_error e dt k = accumulated_error e' dt k.
Proof.
  unfold accumulated_error. induction k as [|k IH]; intros He; [done|].
  rewrite !seq_S, !foldl_app. cbn [foldl Nat.add].
  rewrite IH by (intros j Hj; apply He; lia). by rewrite He by lia.
Qed.

Lemma accumulated_error_S (e : list num) (dt : num) k :
  accumulated_error e dt (S k) = accumulated_error e dt k + aget e k * dt.
Proof. unfold accumulated_error. by rewrite seq_S, foldl_app. Qed.

Lemma pid_law_ext (kp ki kd dt : num) (e e' : list num) i :
  (∀ j, (j ≤ i)%nat → aget e j = aget e' j) →
  pid_law kp ki kd dt e i = pid_law kp ki kd dt e' i.
Proof.
  intros He. unfold pid_law.
  rewrite (accumulated_error_ext e e' dt (S i)) by (intros j Hj; apply He; lia).
  rewrite (He i) by lia. destruct i as [|i]; [done|].
  cbn [Nat.ltb Nat.leb]. replace (S i - 1)%nat with i by lia.
  by rewrite (He i) by lia.
Qed.

Lemma Profesor_loop_law cfg ss s0 steps k :
  run_shape steps (Profesor.dt cfg) (Profesor.data s0) → (k ≤ steps)%nat →
  Profesor.integral s0 = lit 0 → Profesor.prevError s0 = lit 0 →
  let s := foldl (Profesor.iteration cfg ss) s0 (seq 0 k) in
  Profesor.integral s = accumulated_error (error (Profesor.data s)) (Profesor.dt cfg) k
  ∧ Profesor.prevError s
    = match k with O => lit 0 | S k' => aget (error (Profesor.data s)) k' end
  ∧ ∀ i, (i < k)%nat →
      aget (control (Profesor.data s)) i
      = pid_law (Profesor.kp cfg) (Profesor.ki cfg) (Profesor.kd cfg) (Profesor.dt cfg)
          (error (Profesor.data s)) i.
Proof.
  intros Hs0 Hk HI0 Hp0. induction k as [|k IH]; [by split_and!; [| |intros i Hi; lia]|].
  cbv zeta. rewrite seq_S, foldl_app. cbn [foldl Nat.add].
  set (s := foldl (Profesor.iteration cfg ss) s0 (seq 0 k)) in *.
  destruct (IH ltac:(lia)) as (HI & Hp & Hlaw). clear IH.
  assert (Hs : run_shape steps (Profesor.dt cfg) (Profesor.data s))
    by by apply Profesor_loop_shape.
  destruct Hs as (_ & Hr & Ho & He & Hc).
  destruct (Profesor_iteration_writes cfg ss s k) as (_ & Hne & _).
  assert (Hsame : ∀ j, (j < k)%nat →
            aget (error (Profesor.data s)) j
            = aget (error (Profesor.data (Profesor.iteration cfg ss s k))) j).
  { intros j Hj. destruct (Hne j ltac:(lia)) as (_ & _ & -> & _). done. }
  assert (Hek : aget (error (Profesor.data (Profesor.iteration cfg ss s k))) k
                = aget (<[k := Profesor.generateReference
                                 (aget (time (Profesor.data s)) k)
                                 (Profesor.controlType cfg) (Profesor.amplitude cfg)
                                 (Profesor.frequency cfg)]>
                          (reference (Profesor.data s))) k
                  - (foldl (λ sum j, sum + aget (C ss) j * aget (Profesor.x s) j) (lit 0)
                       (seq 0 (length (C ss)))
                     + D ss * or_zero (match k with
                                       | O => None
                                       | S i' => control (Profesor.data s) !! i'
                                       end))).
  { unfold Profesor.iteration. cbn [Profesor.data error]. by rewrite aget_insert_eq by lia. }
  split_and!.
  - rewrite accumulated_error_S, <- (accumulated_error_ext _ _ _ k Hsame), <- HI, Hek.
    done.
  - by rewrite Hek.
  - intros i Hi. destruct (decide (i = k)) as [->|Hik].
    + unfold pid_law. rewrite accumulated_error_S.
      rewrite <- (accumulated_error_ext _ _ _ k Hsame), <- HI, Hek.
      unfold Profesor.iteration at 1. cbn [Profesor.data control].
      rewrite aget_insert_eq by lia. do 2 f_equal.
      destruct k as [|k]; [done|]. cbn [Nat.ltb Nat.leb].
      replace (S k - 1)%nat with k by lia.
      by rewrite <- (Hsame k) by lia; rewrite Hp.
    + destruct (Hne i ltac:(lia)) as (_ & _ & _ & ->). rewrite Hlaw by lia.
      apply pid_law_ext. intros j Hj. apply Hsame. lia.
Qed.
End LawFacts.

Section CopiaLawFacts.
Context {num : Type} `{Number num} `{MathLib num}.
Local Open Scope js_scope.

(** Copia's controller with the clamp and the filter off is the plain law. *)
Lemma Copia_controller_plain (cfg : Copia.Config) i e I pe fd :
  Copia.antiWindupType cfg ≠ "clamping"%string →
  Copia.derivativeFilterType cfg ≠ "firstOrder"%string →
  Copia.controller cfg i e I pe fd
  = (Copia.kp cfg * e + Copia.ki cfg * (I + e * Copia.dt cfg)
     + Copia.kd cfg * (if (0 <? i)%nat then (e - pe) / Copia.dt cfg else lit 0),
     I + e * Copia.dt cfg, fd).
Proof.
  intros Haw Hdf. unfold Copia.controller.
  by rewrite (proj2 (String.eqb_neq _ _) Haw), (proj2 (String.eqb_neq _ _) Hdf).
Qed.

Lemma Copia_loop_law cfg ss rand s0 steps k :
  Copia.antiWindupType cfg ≠ "clamping"%string →
  Copia.derivativeFilterType cfg ≠ "firstOrder"%string →
  run_shape steps (Copia.dt cfg) (Copia.data s0) → (k ≤ steps)%nat →
  Copia.integral s0 = lit 0 → Copia.prevError s0 = lit 0 →
  let s := foldl (Copia.iteration cfg ss rand) s0 (seq 0 k) in
  Copia.integral s = accumulated_error (error (Copia.data s)) (Copia.dt cfg) k
  ∧ Copia.prevError s
    = match k with O => lit 0 | S k' => aget (error (Copia.data s)) k' end
  ∧ ∀ i, (i < k)%nat →
      aget (control (Copia.data s)) i
      = pid_law (Copia.kp cfg) (Copia.ki cfg) (Copia.kd cfg) (Copia.dt cfg)
          (error (Copia.data s)) i.
Proof.
  intros Haw Hdf Hs0 Hk HI0 Hp0.
  induction k as [|k IH]; [by split_and!; [| |intros i Hi; lia]|].
  cbv zeta. rewrite seq_S, foldl_app. cbn [foldl Nat.add].
  set (s := foldl (Copia.iteration cfg ss rand) s0 (seq 0 k)) in *.
  destruct (IH ltac:(lia)) as (HI & Hp & Hlaw). clear IH.
  assert (Hs : run_shape steps (Copia.dt cfg) (Copia.data s))
    by by apply Copia_loop_shape.
  destruct Hs as (_ & Hr & Ho & He & Hc).
  destruct (Copia_iteration_writes cfg ss rand s k) as (_ & Hne & _).
  assert (Hsame : ∀ j, (j < k)%nat →
            aget (error (Copia.data s)) j
            = aget (error (Copia.data (Copia.iteration cfg ss rand s k))) j).
  { intros j Hj. destruct (Hne j ltac:(lia)) as (_ & _ & -> & _). done. }
  clear Hne.
  pose proof (Copia_iteration_writes cfg ss rand s k) as (_ & Hne & _).
  revert Hsame Hne. unfold Copia.iteration.
  rewrite Copia_controller_plain by done.
  cbn [Copia.data Copia.integral Copia.prevError error control].
  set (ek := aget (<[k := _]> (reference (Copia.data s))) k
             - aget (<[k := _]> (output (Copia.data s))) k).
  intros Hsame Hne.
  assert (Hek : aget (<[k := ek]> (error (Copia.data s))) k = ek)
    by (by rewrite aget_insert_eq by lia).
  split_and!.
  - by rewrite accumulated_error_S, <- (accumulated_error_ext _ _ _ k Hsame), <- HI, Hek.
  - by rewrite Hek.
  - intros i Hi. destruct (decide (i = k)) as [->|Hik].
    + unfold pid_law. rewrite accumulated_error_S.
      rewrite <- (accumulated_error_ext _ _ _ k Hsame), <- HI, Hek.
      rewrite aget_insert_eq by lia. do 2 f_equal.
      destruct k as [|k]; [done|]. cbn [Nat.ltb Nat.leb].
      replace (S k - 1)%nat with k by lia.
      by rewrite <- (Hsame k) by lia; rewrite Hp.
    + destruct (Hne i ltac:(lia)) as (_ & _ & _ & ->). rewrite Hlaw by lia.
      apply pid_law_ext. intros j Hj. apply Hsame. lia.
Qed.
End CopiaLawFacts.

(** The control series of a completed run is the PID law on its error
    series: at each step [i],
    [control[i] = kp error[i] + ki (sum of error[j] dt for j <= i)
                  + kd (error[i] - error[i-1]) / dt],
    the derivative term being 0 at step 0 and the sum added in the order of
    the steps.  So it is in every run of Profesor, and in the runs of Copia
    with the anti-windup and the derivative filter off. *)
Theorem control_is_the_PID_law_of_the_error {num : Type} `{Number num} `{MathLib num} :
  (∀ (cfg : Profesor.Config) d i,
     Profesor.runSimulation cfg = Completed d → (i < length (time d))%nat →
     aget (control d) i
     = pid_law (Profesor.kp cfg) (Profesor.ki cfg) (Profesor.kd cfg) (Profesor.dt cfg)
         (error d) i)
  ∧ (∀ (cfg : Copia.Config) rand d i,
       Copia.antiWindupType cfg ≠ "clamping"%string →
       Copia.derivativeFilterType cfg ≠ "firstOrder"%string →
       Copia.runSimulation cfg rand = Completed d → (i < length (time d))%nat →
       aget (control d) i
       = pid_law (Copia.kp cfg) (Copia.ki cfg) (Copia.kd cfg) (Copia.dt cfg)
           (error d) i).
Proof.
  split.
  - intros cfg d i. unfold Profesor.runSimulation.
    destruct (_ || _); [done|].
    destruct (Profesor.tfToStateSpace _ _) as [ss|?]; [|done].
    destruct (to_length _) as [steps|]; [|done].
    intros [= <-] Hi.
    match goal with
    | _ : context [foldl _ ?s0 _] |- _ =>
        assert (Hs0 : run_shape steps (Profesor.dt cfg) (Profesor.data s0))
          by (unfold run_shape; simpl; by rewrite !length_replicate)
    end.
    rewrite (run_shape_length_time steps (Profesor.dt cfg)) in Hi
      by by apply Profesor_loop_shape.
    by apply (Profesor_loop_law cfg ss _ steps steps).
  - intros cfg rand d i Haw Hdf. unfold Copia.runSimulation.
    destruct (_ || _); [done|].
    destruct (Copia.tfToStateSpace _ _) as [ss|?]; [|done].
    destruct (to_length _) as [steps|]; [|done].
    intros [= <-] Hi.
    match goal with
    | _ : context [foldl _ ?s0 _] |- _ =>
        assert (Hs0 : run_shape steps (Copia.dt cfg) (Copia.data s0))
          by (unfold run_shape; simpl; by rewrite !length_replicate)
    end.
    rewrite (run_shape_length_time steps (Copia.dt cfg)) in Hi
      by by apply Copia_loop_shape.
    by apply (Copia_loop_law cfg ss rand _ steps steps).
Qed.

(** On Profesor's PI loop around [1 / (s + 1)]: the second step. *)
Lemma control_is_the_PID_law_of_the_error_witness :
  ∃ d, Profesor.runSimulation (unit_lag_Profesor 1%R) = Completed d
       ∧ aget (control d) 1 = pid_law 2%R 1%R 0%R 1%R (error d) 1.
Proof.
  destruct (unit_lag_Profesor_completes 1%R) as (d & Hd & Hs).
  exists d. split; [done|].
  apply (proj1 control_is_the_PID_law_of_the_error (unit_lag_Profesor 1%R) d 1%nat Hd).
  rewrite (run_shape_length_time 2 1%R d Hs). lia.
Defined.

(** ** A loop at rest *)

Section SquareFacts.
Context {num : Type} `{Number num}.

(** The model a conversion returns is square, of the dimension of [C]. *)
Lemma Copia_tfToStateSpace_square (nm den : list num) ss :
  Copia.tfToStateSpace nm den = Ok ss →
  length (A ss) = length (C ss) ∧ Forall (λ r, length r = length (C ss)) (A ss)
  ∧ length (B ss) = length (C ss).
Proof.
  destruct den as [|d0 rest]; [done|]. unfold Copia.tfToStateSpace.
  destruct (eqb d0 (lit 0)); [done|].
  unfold pad_numerator. rewrite !length_fmap. cbn [length].
  replace (S (length rest) - 1)%nat with (length rest) by lia.
  destruct (length rest + 1 <? length nm)%nat eqn:Hlen; [done|].
  apply Nat.ltb_ge in Hlen. intros [= <-]. cbn [A B C].
  assert (HC : length (drop 1 (replicate (length rest + 1 - length nm) (lit 0)
                                 ++ ((λ c, div c d0) <$> nm))) = length rest)
    by (rewrite length_drop, length_app, length_replicate, length_fmap; lia).
  rewrite HC, length_unit_last.
  destruct (companion_square (length rest)
              (λ i, aget ((λ d, div d d0) <$> d0 :: rest) (length rest - i))) as [HA HAr].
  done.
Qed.

Lemma Profesor_tfToStateSpace_square (nm den : list num) ss :
  Profesor.tfToStateSpace nm den = Ok ss →
  length (A ss) = length (C ss) ∧ Forall (λ r, length r = length (C ss)) (A ss)
  ∧ length (B ss) = length (C ss).
Proof.
  unfold Profesor.tfToStateSpace, pad_numerator. cbv zeta.
  destruct (_ <? _)%nat; [done|]. intros [= <-]. cbn [A B C].
  rewrite !length_foldl_insert, length_replicate, length_unit_last.
  match goal with
  | |- context [companion ?n ?coef] => destruct (companion_square n coef) as [HA HAr]
  end.
  done.
Qed.
End SquareFacts.

Section RestFacts.
Local Open Scope R_scope.

Lemma vscale_0 (x : list R) : vscale 0 x = replicate (length x) 0.
Proof.
  unfold vscale. induction x as [|a x IH]; [done|].
  rewrite fmap_cons, IH. simpl. f_equal. lra.
Qed.

Lemma all_zero_replicate (x : list R) :
  Forall (λ v, v = 0) x → x = replicate (length x) 0.
Proof. induction 1 as [|a x -> _ IH]; [done|]. simpl. by rewrite <- IH. Qed.

(** A plant at rest under no control stays at rest. *)
Lemma rungeKutta_at_rest (A : list (list R)) (B x : list R) (dt : R) :
  length A = length x → Forall (λ r, length r = length x) A → length B = length x →
  Forall (λ v, v = 0) x → Forall (λ v, v = 0) (rungeKutta A B x 0 dt).
Proof.
  intros HA Hrows HB Hx.
  assert (Hrk : rungeKutta A B (vscale 0 x) (0 * 0) dt
                = vscale 0 (rungeKutta A B x 0 dt)).
  { rewrite !rungeKutta_is_rk4 by (rewrite ?length_vscale; done).
    apply rk4_update_vscale. }
  rewrite !vscale_0, length_rungeKutta, <- (all_zero_replicate x Hx) in Hrk.
  replace (0 * 0) with 0 in Hrk by lra. by rewrite Hrk.
Qed.

(** The output [C x + D (control[i-1] || 0)] of a loop at rest. *)
Lemma output_at_rest (Cs x control : list R) (Ds : R) (i : nat) :
  Forall (λ v, v = 0) x → Forall (λ v, v = 0) control → length x = length Cs →
  add (foldl (λ sum j, add sum (mul (aget Cs j) (aget x j))) (lit 0)
         (seq 0 (length Cs)))
      (mul Ds (or_zero (match i with O => None | S i' => control !! i' end)))
  = 0.
Proof.
  intros Hx Hc Hlen.
  assert (Hsum : ∀ k, (k ≤ length Cs)%nat →
            foldl (λ sum j, add sum (mul (aget Cs j) (aget x j))) (lit 0) (seq 0 k) = 0).
  { induction k as [|k IH]; intros Hk; [unfold lit; simpl; lra|].
    rewrite seq_S, foldl_app, IH by lia. cbn [foldl Nat.add].
    rewrite Forall_lookup in Hx.
    rewrite (Hx k (aget x k)) by (apply lookup_aget; lia). simpl. lra. }
  rewrite Hsum by done.
  assert (or_zero (match i with O => None | S i' => control !! i' end) = 0) as ->.
  { destruct i as [|i]; [done|]. destruct (control !! i) as [v|] eqn:Hv; [|done].
    rewrite Forall_lookup in Hc. rewrite (Hc i v Hv). unfold or_zero.
    by rewrite Reqb_eq. }
  simpl. lra.
Qed.

Lemma Profesor_reference_of_amplitude_0 (t : R) type freq :
  Profesor.generateReference t type 0 freq = 0.
Proof.
  unfold Profesor.generateReference.
  repeat match goal with
         | |- context [String.eqb ?a ?b] => destruct (String.eqb a b)
         end; simpl; lra.
Qed.

Lemma Copia_reference_of_amplitude_0 (t : R) type freq :
  Copia.generateReference t type 0 freq = 0.
Proof.
  unfold Copia.generateReference.
  repeat match goal with
         | |- context [String.eqb ?a ?b] => destruct (String.eqb a b)
         end; simpl; lra.
Qed.

Lemma Profesor_iteration_at_rest (cfg : Profesor.Config (num := R)) ss s i :
  Profesor.amplitude cfg = 0 →
  length (A ss) = length (C ss) → Forall (λ r, length r = length (C ss)) (A ss) →
  length (B ss) = length (C ss) → length (Profesor.x s) = length (C ss) →
  at_rest (Profesor.x s) [Profesor.integral s; Profesor.prevError s] (Profesor.data s) →
  let s' := Profesor.iteration cfg ss s i in
  length (Profesor.x s') = length (C ss)
  ∧ at_rest (Profesor.x s') [Profesor.integral s'; Profesor.prevError s']
      (Profesor.data s').
Proof.
  intros Hamp HA Hrows HB Hlen (Hx & Hacc & Hr & Ho & He & Hc).
  apply Forall_cons in Hacc as [HI Hacc]. apply Forall_cons in Hacc as [Hp _].
  unfold Profesor.iteration. cbv zeta.
  rewrite Hamp, Profesor_reference_of_amplitude_0, output_at_rest by done.
  rewrite HI, Hp.
  set (r' := <[i := 0]> (reference (Profesor.data s))).
  assert (Hr' : Forall (λ v, v = 0) r') by by apply Forall_insert.
  assert (He0 : sub (aget r' i) 0 = 0).
  { unfold aget. destruct (r' !! i) as [v|] eqn:Hv; cbn [default].
    - rewrite Forall_lookup in Hr'. rewrite (Hr' i v Hv). simpl. lra.
    - rewrite NaN_real. simpl. lra. }
  rewrite He0.
  assert (Hu : add (add (mul (Profesor.kp cfg) 0)
                        (mul (Profesor.ki cfg) (add 0 (mul 0 (Profesor.dt cfg)))))
                   (mul (Profesor.kd cfg)
                        (if (0 <? i)%nat then div (sub 0 0) (Profesor.dt cfg) else lit 0))
               = 0).
  { destruct (0 <? i)%nat; unfold lit; simpl; unfold Rdiv; lra. }
  rewrite Hu. cbn [Profesor.x Profesor.integral Profesor.prevError Profesor.data].
  split; [by rewrite length_rungeKutta|].
  unfold at_rest. cbn [reference output error control].
  split_and!; try (by apply Forall_insert).
  - apply rungeKutta_at_rest; rewrite ?Hlen; done.
  - repeat constructor. simpl. lra.
Qed.
End RestFacts.

Section CopiaRestFacts.
Local Open Scope R_scope.

Lemma Copia_controller_at_rest (cfg : Copia.Config (num := R)) i :
  Copia.controller cfg i 0 0 0 0 = (0, 0, 0).
Proof.
  unfold Copia.controller.
  assert (Hd : (if (0 <? i)%nat then div (sub 0 0) (Copia.dt cfg) else lit 0) = 0)
    by (destruct (0 <? i)%nat; unfold lit; simpl; unfold Rdiv; lra).
  rewrite Hd.
  assert (HI : add 0 (mul 0 (Copia.dt cfg)) = 0) by (simpl; lra).
  rewrite HI.
  destruct (String.eqb (Copia.derivativeFilterType cfg) "firstOrder").
  - set (alpha := div (Copia.dt cfg) (add (dec 5 100) (Copia.dt cfg))).
    assert (Hf : add (mul alpha 0) (mul (sub (lit 1) alpha) 0) = 0) by (simpl; lra).
    rewrite Hf.
    assert (Hu : add (add (mul (Copia.kp cfg) 0) (mul (Copia.ki cfg) 0))
                     (mul (Copia.kd cfg) 0) = 0) by (simpl; lra).
    rewrite Hu.
    rewrite (Rltb_ge (lit 5) 0), (Rltb_ge 0 (opp (lit 5))) by (unfold lit; simpl; lra).
    by destruct (String.eqb (Copia.antiWindupType cfg) "clamping").
  - assert (Hu : add (add (mul (Copia.kp cfg) 0) (mul (Copia.ki cfg) 0))
                     (mul (Copia.kd cfg) 0) = 0) by (simpl; lra).
    rewrite Hu.
    rewrite (Rltb_ge (lit 5) 0), (Rltb_ge 0 (opp (lit 5))) by (unfold lit; simpl; lra).
    by destruct (String.eqb (Copia.antiWindupType cfg) "clamping").
Qed.

Lemma Copia_iteration_at_rest (cfg : Copia.Config (num := R)) ss rand s i :
  Copia.amplitude cfg = 0 → Copia.disturbanceAmplitude cfg = 0 →
  length (A ss) = length (C ss) → Forall (λ r, length r = length (C ss)) (A ss) →
  length (B ss) = length (C ss) → length (Copia.x s) = length (C ss) →
  at_rest (Copia.x s)
    [Copia.integral s; Copia.prevError s; Copia.filteredDerivative s] (Copia.data s) →
  let s' := Copia.iteration cfg ss rand s i in
  length (Copia.x s') = length (C ss)
  ∧ at_rest (Copia.x s')
      [Copia.integral s'; Copia.prevError s'; Copia.filteredDerivative s']
      (Copia.data s').
Proof.
  intros Hamp Hdist HA Hrows HB Hlen (Hx & Hacc & Hr & Ho & He & Hc).
  apply Forall_cons in Hacc as [HI Hacc]. apply Forall_cons in Hacc as [Hp Hacc].
  apply Forall_cons in Hacc as [Hfd _].
  unfold Copia.iteration. cbv zeta.
  rewrite Hamp, Hdist, Copia_reference_of_amplitude_0, output_at_rest by done.
  rewrite HI, Hp, Hfd.
  assert (Hy : add 0 (mul (mul (sub (rand i) (dec 5 10)) (lit 2)) 0) = 0)
    by (simpl; lra).
  rewrite Hy.
  set (r' := <[i := 0]> (reference (Copia.data s))).
  set (o' := <[i := 0]> (output (Copia.data s))).
  assert (Hr' : Forall (λ v, v = 0) r') by by apply Forall_insert.
  assert (Ho' : Forall (λ v, v = 0) o') by by apply Forall_insert.
  assert (Hzero : ∀ l : list R, Forall (λ v, v = 0) l → aget l i = 0).
  { intros l Hl. unfold aget. destruct (l !! i) as [v|] eqn:Hv; cbn [default].
    - rewrite Forall_lookup in Hl. by rewrite (Hl i v Hv).
    - apply NaN_real. }
  rewrite (Hzero r' Hr'), (Hzero o' Ho').
  assert (He0 : sub 0 0 = 0) by (simpl; lra).
  rewrite He0, Copia_controller_at_rest.
  cbn [Copia.x Copia.integral Copia.prevError Copia.filteredDerivative Copia.data].
  split; [by rewrite length_rungeKutta|].
  unfold at_rest. cbn [reference output error control].
  split_and!; try (by apply Forall_insert); try done.
  - apply rungeKutta_at_rest; rewrite ?Hlen; done.
  - by repeat constructor.
Qed.
End CopiaRestFacts.

Section RunRestFacts.
Local Open Scope R_scope.

(** The series of a completed run under a reference of amplitude 0. *)
Lemma Profesor_run_at_rest (cfg : Profesor.Config (num := R)) d :
  Profesor.amplitude cfg = 0 → Profesor.runSimulation cfg = Completed d →
  Forall (λ v, v = 0) (reference d) ∧ Forall (λ v, v = 0) (output d)
  ∧ Forall (λ v, v = 0) (error d) ∧ Forall (λ v, v = 0) (control d).
Proof.
  intros Hamp. unfold Profesor.runSimulation.
  destruct (_ || _); [done|].
  destruct (Profesor.tfToStateSpace _ _) as [ss|?] eqn:Hss; [|done].
  destruct (to_length _) as [steps|]; [|done].
  destruct (Profesor_tfToStateSpace_square _ _ _ Hss) as (HA & Hrows & HB).
  intros [= <-].
  match goal with
  | |- context [foldl _ ?s0 ?l] =>
      assert (Hs0 : length (Profesor.x s0) = length (C ss)
                    ∧ at_rest (Profesor.x s0)
                        [Profesor.integral s0; Profesor.prevError s0]
                        (Profesor.data s0));
      [|generalize dependent s0; generalize l]
  end.
  { split; [simpl; by rewrite length_replicate|].
    unfold at_rest. simpl.
    split_and!; try (by apply Forall_replicate); by repeat constructor. }
  intros l. induction l as [|i l IH]; intros s [Hlen Hrest].
  - destruct Hrest as (_ & _ & Hr & Ho & He & Hc). done.
  - cbn [foldl]. apply IH.
    by apply Profesor_iteration_at_rest.
Qed.

Lemma Copia_run_at_rest (cfg : Copia.Config (num := R)) rand d :
  Copia.amplitude cfg = 0 → Copia.disturbanceAmplitude cfg = 0 →
  Copia.runSimulation cfg rand = Completed d →
  Forall (λ v, v = 0) (reference d) ∧ Forall (λ v, v = 0) (output d)
  ∧ Forall (λ v, v = 0) (error d) ∧ Forall (λ v, v = 0) (control d).
Proof.
  intros Hamp Hdist. unfold Copia.runSimulation.
  destruct (_ || _); [done|].
  destruct (Copia.tfToStateSpace _ _) as [ss|?] eqn:Hss; [|done].
  destruct (to_length _) as [steps|]; [|done].
  destruct (Copia_tfToStateSpace_square _ _ _ Hss) as (HA & Hrows & HB).
  intros [= <-].
  match goal with
  | |- context [foldl _ ?s0 ?l] =>
      assert (Hs0 : length (Copia.x s0) = length (C ss)
                    ∧ at_rest (Copia.x s0)
                        [Copia.integral s0; Copia.prevError s0;
                         Copia.filteredDerivative s0]
                        (Copia.data s0));
      [|generalize dependent s0; generalize l]
  end.
  { split; [simpl; by rewrite length_replicate|].
    unfold at_rest. simpl.
    split_and!; try (by apply Forall_replicate); by repeat constructor. }
  intros l. induction l as [|i l IH]; intros s [Hlen Hrest].
  - destruct Hrest as (_ & _ & Hr & Ho & He & Hc). done.
  - cbn [foldl]. apply IH.
    by apply Copia_iteration_at_rest.
Qed.
End RunRestFacts.

(** A loop that is asked for nothing stays at rest, in real arithmetic.  The
    plant is any proper transfer function whose leading denominator
    coefficient is not 0, the step is positive and [floor(duration / dt)] is
    a number of steps, so that no quotient of the run has a zero divisor;
    the amplitude of the reference is 0 and, in Copia, the disturbance is
    off.  Then the run completes, over that number of steps, and every value
    of its reference, output, error and control series is 0, whatever the
    gains and the options. *)
Theorem run_of_amplitude_0_stays_at_rest :
  (∀ (cfg : Profesor.Config (num := R)) (d0 : R) (rest : list R) (steps : nat),
     Profesor.amplitude cfg = 0%R →
     Profesor.denominator cfg = d0 :: rest → d0 ≠ 0%R →
     Profesor.numerator cfg ≠ [] →
     (length (Profesor.numerator cfg) ≤ length (Profesor.denominator cfg))%nat →
     (0 < Profesor.dt cfg)%R →
     to_length (floor (div (Profesor.simTime cfg) (Profesor.dt cfg))) = Some steps →
     ∃ d, Profesor.runSimulation cfg = Completed d
       ∧ length (output d) = steps
       ∧ Forall (λ v, v = 0%R) (reference d) ∧ Forall (λ v, v = 0%R) (output d)
       ∧ Forall (λ v, v = 0%R) (error d) ∧ Forall (λ v, v = 0%R) (control d))
  ∧ (∀ (cfg : Copia.Config (num := R)) (rand : nat → R) (d0 : R) (rest : list R)
       (steps : nat),
       Copia.amplitude cfg = 0%R → Copia.disturbanceAmplitude cfg = 0%R →
       Copia.denominator cfg = d0 :: rest → d0 ≠ 0%R →
       Copia.numerator cfg ≠ [] →
       (length (Copia.numerator cfg) ≤ length (Copia.denominator cfg))%nat →
       (0 < Copia.dt cfg)%R →
       to_length (floor (div (Copia.simTime cfg) (Copia.dt cfg))) = Some steps →
       ∃ d, Copia.runSimulation cfg rand = Completed d
         ∧ length (output d) = steps
         ∧ Forall (λ v, v = 0%R) (reference d) ∧ Forall (λ v, v = 0%R) (output d)
         ∧ Forall (λ v, v = 0%R) (error d) ∧ Forall (λ v, v = 0%R) (control d)).
Proof.
  split.
  - intros cfg d0 rest steps Hamp Hden Hd0 Hnum Hlen Hdt Hsteps.
    assert (Hss : ∃ ss, Profesor.tfToStateSpace (Profesor.numerator cfg)
                          (Profesor.denominator cfg) = Ok ss).
    { rewrite Hden in *. eexists. apply Profesor_tfToStateSpace_proper.
      simpl in Hlen. lia. }
    destruct Hss as [ss Hss].
    destruct (Profesor_runSimulation_shape cfg ss steps) as (d & Hd & Hsh);
      [done | by rewrite Hden | done | done |].
    exists d. split; [done|]. split; [apply Hsh|].
    by apply (Profesor_run_at_rest cfg).
  - intros cfg rand d0 rest steps Hamp Hdist Hden Hd0 Hnum Hlen Hdt Hsteps.
    assert (Hss : ∃ ss, Copia.tfToStateSpace (Copia.numerator cfg)
                          (Copia.denominator cfg) = Ok ss).
    { rewrite Hden in *. eexists. apply Copia_tfToStateSpace_proper.
      - by apply Reqb_neq.
      - simpl in Hlen. lia. }
    destruct Hss as [ss Hss].
    destruct (Copia_runSimulation_shape cfg rand ss steps) as (d & Hd & Hsh);
      [done | apply existsb_isNaN_real | apply existsb_isNaN_real | done | done |].
    exists d. split; [done|]. split; [apply Hsh|].
    by apply (Copia_run_at_rest cfg rand).
Qed.

(** On Profesor's PI loop around [1 / (s + 1)] under a step of amplitude 0,
    two steps of 1. *)
Lemma run_of_amplitude_0_stays_at_rest_witness :
  ∃ d, Profesor.runSimulation (unit_lag_Profesor 0%R) = Completed d
       ∧ length (output d) = 2%nat
       ∧ Forall (λ v, v = 0%R) (reference d) ∧ Forall (λ v, v = 0%R) (output d)
       ∧ Forall (λ v, v = 0%R) (error d) ∧ Forall (λ v, v = 0%R) (control d).
Proof.
  apply (proj1 run_of_amplitude_0_stays_at_rest (unit_lag_Profesor 0%R)
           1%R [1%R] 2%nat).
  - reflexivity.
  - reflexivity.
  - lra.
  - discriminate.
  - simpl. lia.
  - change (0 < 1)%R. lra.
  - apply (to_length_floor_real _ 2); [|lia].
    change (IZR 2 <= 2 / 1 < IZR 3)%R. lra.
Defined.

(** ** The settling times of Copia and Profesor *)

(** [Math_abs] in binary64 is the absolute value of the format. *)
Lemma Math_abs_binary64 (v : float) : Math_abs v = PrimFloat.abs v.
Proof.
  apply Prim2SF_inj. rewrite FloatAxioms.abs_spec. unfold Math_abs. simpl.
  rewrite FloatAxioms.ltb_spec, FloatAxioms.eqb_spec.
  change (Prim2SF (Float64.Z2float 0)) with (S754_zero false).
  destruct (Prim2SF v) as [s|s| |s m e] eqn:Hv; simpl.
  - unfold SFltb, SFeqb. simpl. reflexivity.
  - unfold SFltb, SFeqb. simpl. destruct s; simpl.
    + rewrite FloatAxioms.opp_spec, Hv. reflexivity.
    + done.
  - unfold SFltb, SFeqb. simpl. done.
  - unfold SFltb, SFeqb. simpl. destruct s; simpl.
    + rewrite FloatAxioms.opp_spec, Hv. reflexivity.
    + done.
Qed.

Section SettlingFacts.
Context {num : Type} `{Number num} `{MathLib num}.
Local Open Scope js_scope.

(** Copia's scan from sample [n - 1] down: it stops at the last sample
    outside the band, if there is one. *)
Lemma Copia_settling_scan_spec (output time : list num) (finalValue tolerance : num) n :
  let outside i := (Math_abs (aget output i - finalValue) >? tolerance) = true in
  match Copia.settling_scan output time finalValue tolerance n with
  | Some t =>
      ∃ i, (i < n)%nat ∧ outside i ∧ (∀ j, (i < j < n)%nat → ¬ outside j)
           ∧ t = time !! i
  | None => ∀ j, (j < n)%nat → ¬ outside j
  end.
Proof.
  intros outside. induction n as [|n IH]; [intros j Hj; lia|].
  simpl. destruct (Math_abs (aget output n - finalValue) >? tolerance) eqn:Hn.
  - exists n. split_and!; [lia | done | intros j Hj; lia | done].
  - destruct (Copia.settling_scan output time finalValue tolerance n) as [t|].
    + destruct IH as (i & Hi & Hout & Hlater & Ht).
      exists i. split_and!; [lia | done | | done].
      intros j Hj. destruct (decide (j = n)) as [->|Hjn].
      * unfold outside. by rewrite Hn.
      * apply Hlater. lia.
    + intros j Hj. destruct (decide (j = n)) as [->|Hjn].
      * unfold outside. by rewrite Hn.
      * apply IH. lia.
Qed.

Lemma Profesor_settling_scan_spec (output time : list num)
    (steadyStateValue finalRef : num) n :
  let outside i :=
    (Math_abs (aget output i - steadyStateValue) >? dec 2 100 * Math_abs finalRef)
    = true in
  (∃ i, (i < n)%nat ∧ outside i ∧ (∀ j, (i < j < n)%nat → ¬ outside j)
        ∧ Profesor.settling_scan output time steadyStateValue finalRef n = time !! i)
  ∨ ((∀ j, (j < n)%nat → ¬ outside j)
     ∧ Profesor.settling_scan output time steadyStateValue finalRef n = Some (lit 0)).
Proof.
  intros outside. induction n as [|n IH]; [right; split; [intros j Hj; lia|done]|].
  simpl.
  destruct (Math_abs (aget output n - steadyStateValue) >? dec 2 100 * Math_abs finalRef)
    eqn:Hn.
  - left. exists n. split_and!; [lia | done | intros j Hj; lia | done].
  - assert (Hnot : ∀ j, j = n → ¬ outside j)
      by (intros j ->; unfold outside; by rewrite Hn).
    destruct IH as [(i & Hi & Hout & Hlater & Ht) | [Hall Ht]].
    + left. exists i. split_and!; [lia | done | | done].
      intros j Hj. destruct (decide (j = n)); [by apply Hnot|apply Hlater; lia].
    + right. split; [|done].
      intros j Hj. destruct (decide (j = n)); [by apply Hnot|apply Hall; lia].
Qed.
End SettlingFacts.

(** The settling time Copia displays is the time of the last sample that is
    more than 5 percent of the final reference away from it, every later
    sample being within that band; when no sample is outside the band, it is
    the last entry of [time]. *)
Theorem Copia_settlingTime_is_the_last_sample_outside {num : Type} `{Number num}
    (d : SimulationData num) :
  let finalValue := to_number (last (reference d)) in
  let outside i :=
    ltb (mul (dec 5 100) finalValue) (Math_abs (sub (aget (output d) i) finalValue))
    = true in
  (∃ i, (i < length (output d))%nat ∧ outside i
        ∧ (∀ j, (i < j < length (output d))%nat → ¬ outside j)
        ∧ Copia.settlingTime d = time d !! i)
  ∨ ((∀ j, (j < length (output d))%nat → ¬ outside j)
     ∧ Copia.settlingTime d = last (time d)).
Proof.
  intros finalValue outside. unfold Copia.settlingTime. fold finalValue.
  pose proof (Copia_settling_scan_spec (output d) (time d) finalValue
                (mul (dec 5 100) finalValue) (length (output d))) as Hscan.
  cbv zeta in Hscan.
  destruct (Copia.settling_scan _ _ _ _ _) as [t|].
  - left. destruct Hscan as (i & Hi & Hout & Hlater & ->). by exists i.
  - by right.
Qed.

Lemma Math_abs_real (v : R) : Math_abs v = Rabs v.
Proof.
  unfold Math_abs, lit. simpl. unfold Real.Rltb, Real.Reqb, Rabs.
  destruct (Rlt_dec v 0), (Rcase_abs v); try lra.
  destruct (Req_dec_T v 0); lra.
Qed.

Lemma Rltb_true_iff (a b : R) : ltb a b = true ↔ (a < b)%R.
Proof. simpl. unfold Real.Rltb. destruct (Rlt_dec a b); naive_solver. Qed.

(** The settling time Profesor displays, over the reals: the band is 2
    percent of the final reference around the last output sample, so the last
    sample is never outside it; the settling time is the time of the last
    sample outside the band, which is not the last of the run, or 0 when
    there is none. *)
Theorem Profesor_settlingTime_is_before_the_last_sample (d : SimulationData R) :
  let finalRef := to_number (last (reference d)) in
  let steadyStateValue := to_number (last (output d)) in
  let outside i :=
    (2 / 100 * Rabs finalRef < Rabs (aget (output d) i - steadyStateValue))%R in
  (∃ i, (S i < length (output d))%nat ∧ outside i
        ∧ (∀ j, (i < j < length (output d))%nat → ¬ outside j)
        ∧ Profesor.settlingTime d = time d !! i)
  ∨ ((∀ j, (j < length (output d))%nat → ¬ outside j)
     ∧ Profesor.settlingTime d = Some 0%R).
Proof.
  intros finalRef steadyStateValue outside. unfold Profesor.settlingTime.
  fold finalRef steadyStateValue.
  assert (Hout : ∀ i, outside i ↔
            ltb (mul (dec 2 100) (Math_abs finalRef))
                (Math_abs (sub (aget (output d) i) steadyStateValue)) = true).
  { intros i. rewrite Rltb_true_iff, !Math_abs_real. done. }
  assert (Hlast : ∀ i, S i = length (output d) → ¬ outside i).
  { intros i Hi. unfold outside, steadyStateValue.
    rewrite last_lookup, <- Hi. simpl.
    unfold aget, to_number. generalize (default NaN (output d !! i)). intros y.
    replace (y - y)%R with 0%R by lra. rewrite Rabs_R0.
    pose proof (Rabs_pos finalRef). generalize dependent (Rabs finalRef). intros; lra. }
  destruct (Profesor_settling_scan_spec (output d) (time d) steadyStateValue finalRef
              (length (output d))) as [(i & Hi & Ho & Hlater & Ht) | [Hall Ht]].
  - left. exists i. split_and!; [| by apply Hout | | done].
    + destruct (decide (S i = length (output d))) as [Heq|Hne]; [|lia].
      exfalso. apply (Hlast i Heq). by apply Hout.
    + intros j Hj Hoj. apply (Hlater j Hj). by apply Hout.
  - right. split; [|done]. intros j Hj Hoj. apply (Hall j Hj). by apply Hout.
Qed.

(** ** The rise times of Copia and Profesor *)

Section ShapeFacts.
Context {num : Type} `{Number num} `{MathLib num}.

(** The data of a completed run is in shape. *)
Lemma Copia_completed_shape (cfg : Copia.Config) rand d :
  Copia.runSimulation cfg rand = Completed d →
  ∃ steps, run_shape steps (Copia.dt cfg) d.
Proof.
  unfold Copia.runSimulation.
  destruct (_ || _); [done|].
  destruct (Copia.tfToStateSpace _ _) as [ss|?]; [|done].
  destruct (to_length _) as [steps|]; [|done].
  intros [= <-]. exists steps. apply Copia_loop_shape.
  unfold run_shape. simpl. by rewrite !length_replicate.
Qed.

Lemma Profesor_completed_shape (cfg : Profesor.Config) d :
  Profesor.runSimulation cfg = Completed d →
  ∃ steps, run_shape steps (Profesor.dt cfg) d.
Proof.
  unfold Profesor.runSimulation.
  destruct (_ || _); [done|].
  destruct (Profesor.tfToStateSpace _ _) as [ss|?]; [|done].
  destruct (to_length _) as [steps|]; [|done].
  intros [= <-]. exists steps. apply Profesor_loop_shape.
  unfold run_shape. simpl. by rewrite !length_replicate.
Qed.
End ShapeFacts.

Section RiseFacts.
Local Open Scope R_scope.

Lemma Rleb_true_iff (a b : R) : leb a b = true ↔ a <= b.
Proof. simpl. unfold Real.Rleb. destruct (Rle_dec a b); naive_solver. Qed.

Lemma is_minus_one_real (t : option R) : is_minus_one t = true ↔ t = Some (-1).
Proof.
  destruct t as [v|]; simpl; [|naive_solver].
  unfold Real.Reqb, lit. simpl. destruct (Req_dec_T v (-1)); naive_solver.
Qed.

Lemma is_minus_one_unset : is_minus_one (Some (-1)) = true.
Proof. by apply is_minus_one_real. Qed.

Lemma is_minus_one_set (v : R) : 0 <= v → is_minus_one (Some v) = false.
Proof.
  intros Hv. destruct (is_minus_one (Some v)) eqn:Hm; [|done].
  apply is_minus_one_real in Hm. injection Hm as ->. lra.
Qed.

(** The time series of a run in shape, with a step that is not negative:
    its entries are not negative and do not decrease. *)
Lemma run_shape_time_real steps (dt : R) (d : SimulationData R) :
  run_shape steps dt d → 0 <= dt →
  length (time d) = steps
  ∧ (∀ i, (i < steps)%nat → time d !! i = Some (aget (time d) i))
  ∧ (∀ i, (i < steps)%nat → 0 <= aget (time d) i)
  ∧ (∀ i j, (i ≤ j < steps)%nat → aget (time d) i <= aget (time d) j).
Proof.
  intros Hs Hdt.
  assert (Ht : ∀ i, (i < steps)%nat → aget (time d) i = INR i * dt).
  { intros i Hi. rewrite (aget_lookup _ _ _ (run_shape_time steps dt d i Hs Hi)).
    unfold of_nat. simpl. by rewrite INR_IZR_INZ. }
  pose proof (run_shape_length_time steps dt d Hs) as Hlen.
  split_and!; [done | | |].
  - intros i Hi. apply lookup_aget. lia.
  - intros i Hi. rewrite Ht by done. pose proof (pos_INR i). nra.
  - intros i j Hij. rewrite !Ht by lia.
    assert (INR i <= INR j) by (apply le_INR; lia). nra.
Qed.

Lemma rise_marks_mono (time : list R) k k' t10 t90 :
  (k ≤ k')%nat → rise_marks time k t10 t90 → rise_marks time k' t10 t90.
Proof.
  intros Hk [Hunset | (j10 & Hj10 & Ht10 & [Ht90 | (j90 & Hj90 & Ht90)])].
  - by left.
  - right. exists j10. split_and!; [lia | done | by left].
  - right. exists j10. split_and!; [lia | done |]. right. exists j90. split; [lia | done].
Qed.

Lemma Copia_rise_scan_marks (output time : list R) (val10 val90 : R) :
  val10 <= val90 →
  (∀ i, (i < length time)%nat → time !! i = Some (aget time i) ∧ 0 <= aget time i) →
  ∀ m k t10 t90, (k + m ≤ length time)%nat → rise_marks time k t10 t90 →
    rise_marks time (k + m)
      (Copia.rise_scan output time val10 val90 (seq k m) t10 t90).1
      (Copia.rise_scan output time val10 val90 (seq k m) t10 t90).2.
Proof.
  intros Hval Htime m. induction m as [|m IH]; intros k t10 t90 Hk Hmarks.
  - simpl. by rewrite Nat.add_0_r.
  - cbn [seq Copia.rise_scan]. cbv zeta.
    destruct (Htime k) as [Hlk Hpos]; [lia|].
    assert (Hset : is_minus_one (Some (aget time k)) = false)
      by by apply is_minus_one_set.
    assert (Hnext : ∀ a b, rise_marks time (S k) a b →
              rise_marks time (k + S m)
                (if negb (is_minus_one a) && negb (is_minus_one b) then (a, b)
                 else Copia.rise_scan output time val10 val90 (seq (S k) m) a b).1
                (if negb (is_minus_one a) && negb (is_minus_one b) then (a, b)
                 else Copia.rise_scan output time val10 val90 (seq (S k) m) a b).2).
    { intros a b Hab. destruct (negb (is_minus_one a) && negb (is_minus_one b)).
      - simpl. apply (rise_marks_mono time (S k)); [lia | done].
      - replace (k + S m)%nat with (S k + m)%nat by lia. apply IH; [lia | done]. }
    apply Hnext.
    destruct Hmarks as [[-> ->] | (j10 & Hj10 & -> & [-> | (j90 & Hj90 & ->)])].
    + rewrite !is_minus_one_unset. cbn [andb].
      destruct (leb val10 (aget output k)) eqn:H10;
        destruct (leb val90 (aget output k)) eqn:H90.
      * rewrite Hlk. right. exists k. split_and!; [lia | done |].
        right. exists k. split; [lia | done].
      * rewrite Hlk. right. exists k. split_and!; [lia | done | by left].
      * apply Rleb_true_iff in H90.
        assert (val10 <= aget output k) as H10' by lra.
        apply Rleb_true_iff in H10'. congruence.
      * by left.
    + destruct (Htime j10) as [_ Hpos10]; [lia|].
      rewrite (is_minus_one_set (aget time j10)) by done.
      rewrite is_minus_one_unset. cbn [andb].
      destruct (leb val90 (aget output k)).
      * rewrite Hlk. right. exists j10. split_and!; [lia | done |].
        right. exists k. split; [lia | done].
      * right. exists j10. split_and!; [lia | done | by left].
    + destruct (Htime j10) as [_ Hpos10]; [lia|].
      destruct (Htime j90) as [_ Hpos90]; [lia|].
      rewrite !is_minus_one_set by done. cbn [andb].
      right. exists j10. split_and!; [lia | done |].
      right. exists j90. split; [lia | done].
Qed.

(** Profesor's scan: its 90 percent mark is set, if at all, at a sample not
    before the one of the 10 percent mark. *)
Lemma Profesor_rise_scan_marks (output time : list R) (finalRef : R) :
  (∀ i, (i < length time)%nat → 0 <= aget time i) →
  ∀ m k t10, (k + m ≤ length time)%nat →
    (t10 = -1 ∨ ∃ j10, (j10 < k)%nat ∧ t10 = aget time j10) →
    let r := Profesor.rise_scan output time finalRef (seq k m) t10 (lit (-1)) in
    r.2 = -1
    ∨ ∃ j90, (j90 < k + m)%nat ∧ r.2 = aget time j90
        ∧ (r.1 = -1 ∨ ∃ j10, (j10 ≤ j90)%nat ∧ r.1 = aget time j10).
Proof.
  intros Htime m. induction m as [|m IH]; intros k t10 Hk Ht10; [by left|].
  cbn [seq Profesor.rise_scan]. cbv zeta.
  assert (Hunset : ltb (lit (-1)) (lit 0) = true)
    by (apply Rltb_lt; unfold lit; simpl; lra).
  rewrite Hunset. cbn [andb].
  set (t10' := if ltb t10 (lit 0) && leb (mul (dec 1 10) finalRef) (aget output k)
               then aget time k else t10).
  assert (Ht10' : t10' = -1 ∨ ∃ j10, (j10 < S k)%nat ∧ t10' = aget time j10).
  { subst t10'. destruct (_ && _).
    - right. exists k. split; [lia | done].
    - destruct Ht10 as [-> | (j10 & Hj10 & ->)]; [by left|].
      right. exists j10. split; [lia | done]. }
  destruct (leb (mul (dec 9 10) finalRef) (aget output k)).
  - right. exists k. split_and!; [lia | done |].
    destruct Ht10' as [-> | (j10 & Hj10 & ->)]; [by left|].
    right. exists j10. split; [lia | done].
  - replace (k + S m)%nat with (S k + m)%nat by lia. apply IH; [lia | done].
Qed.
End RiseFacts.

(** The rise time of a completed run with a positive step, over the reals.
    Copia's, when it displays one under a final reference that is not
    negative, is not negative; Profesor's never is. *)
Theorem rise_time_is_not_negative :
  (∀ (cfg : Copia.Config (num := R)) (rand : nat → R) d r,
     Copia.runSimulation cfg rand = Completed d →
     (0 < Copia.dt cfg)%R → (0 <= to_number (last (reference d)))%R →
     Copia.riseTime d = Some r → (0 <= r)%R)
  ∧ (∀ (cfg : Profesor.Config (num := R)) d,
       Profesor.runSimulation cfg = Completed d →
       (0 < Profesor.dt cfg)%R → (0 <= Profesor.riseTime d)%R).
Proof.
  split.
  - intros cfg rand d r Hd Hdt Hfinal.
    destruct (Copia_completed_shape cfg rand d Hd) as [steps Hs].
    destruct (run_shape_time_real steps _ d Hs) as (Hlen & Hlk & Hpos & Hmono); [lra|].
    destruct Hs as (_ & _ & Ho & _).
    unfold Copia.riseTime. rewrite Ho.
    set (final := to_number (last (reference d))) in *.
    pose proof (Copia_rise_scan_marks (output d) (time d)
                  (mul (dec 1 10) final) (mul (dec 9 10) final)) as Hscan.
    specialize (Hscan ltac:(unfold dec; simpl; lra)).
    specialize (Hscan ltac:(intros i Hi; split; [apply Hlk|apply Hpos]; lia)).
    specialize (Hscan steps 0%nat (Some (lit (-1))) (Some (lit (-1))) ltac:(lia)
                  ltac:(by left)).
    destruct (Copia.rise_scan _ _ _ _ _ _ _) as [t10 t90]. simpl in Hscan.
    destruct (negb (is_minus_one t10) && negb (is_minus_one t90)) eqn:Hboth; [|done].
    intros [= <-]. apply andb_prop in Hboth as [H10 H90].
    destruct Hscan as [[-> _] | (j10 & Hj10 & -> & [-> | (j90 & Hj90 & ->)])].
    + by rewrite is_minus_one_unset in H10.
    + by rewrite is_minus_one_unset in H90.
    + simpl. pose proof (Hmono j10 j90 ltac:(lia)). lra.
  - intros cfg d Hd Hdt.
    destruct (Profesor_completed_shape cfg d Hd) as [steps Hs].
    destruct (run_shape_time_real steps _ d Hs) as (Hlen & Hlk & Hpos & Hmono); [lra|].
    destruct Hs as (_ & _ & Ho & _).
    unfold Profesor.riseTime. rewrite Ho.
    pose proof (Profesor_rise_scan_marks (output d) (time d)
                  (to_number (last (reference d)))
                  ltac:(intros i Hi; apply Hpos; lia)
                  steps 0%nat (lit (-1)) ltac:(lia) ltac:(by left)) as Hscan.
    cbv zeta in Hscan.
    destruct (Profesor.rise_scan _ _ _ _ _ _) as [t10 t90]. simpl in Hscan.
    destruct (leb (lit 0) t10 && leb (lit 0) t90) eqn:Hboth;
      [|unfold lit; simpl; lra].
    apply andb_prop in Hboth as [H10 H90].
    apply Rleb_true_iff in H10, H90. unfold lit in H10, H90. simpl in H10, H90.
    destruct Hscan as [-> | (j90 & Hj90 & -> & [-> | (j10 & Hj10 & ->)])]; [lra..|].
    simpl. pose proof (Hmono j10 j90 ltac:(lia)). lra.
Qed.

(** On Profesor's PI loop around [1 / (s + 1)] under a unit step. *)
Lemma rise_time_is_not_negative_witness :
  ∃ d, Profesor.runSimulation (unit_lag_Profesor 1%R) = Completed d
       ∧ (0 <= Profesor.riseTime d)%R.
Proof.
  destruct (unit_lag_Profesor_completes 1%R) as (d & Hd & _).
  exists d. split; [done|].
  apply (proj2 rise_time_is_not_negative (unit_lag_Profesor 1%R) d Hd).
  simpl. lra.
Defined.

(** Under a negative final reference Copia's rise time can be negative: the
    90 percent level is then below the 10 percent level and is crossed
    first.  Here it is crossed at time 1, the 10 percent level at time 2. *)
Example Copia_riseTime_under_a_negative_reference :
  Copia.riseTime climbing_run = Some (-1)%float
  ∧ Profesor.riseTime climbing_run = 0%float.
Proof. split; vm_compute; reflexivity. Qed.

(** ** The metrics of Corregida *)

(** Corregida's overshoot over the reals.  Under a positive set point it is
    the overshoot Copia displays for a run whose final reference is that set
    point.  Under a negative set point that the output exceeds it is negative:
    the script divides the excess by the set point and does not clip. *)
Theorem Corregida_overshoot_against_Copia (setpoint : R) (d : SimulationData R) :
  to_number (last (reference d)) = setpoint →
  ((0 < setpoint)%R → Corregida.overshoot setpoint (output d) = Copia.overshoot d)
  ∧ ((setpoint < 0)%R → (setpoint < Math_max (output d))%R →
       (Corregida.overshoot setpoint (output d) < 0)%R
       ∧ Copia.overshoot d = 0%R).
Proof.
  intros Hfinal. unfold Corregida.overshoot, Copia.overshoot, to_number in *.
  rewrite Hfinal. generalize (Math_max (output d)). intros peak. split.
  - intros Hsp. rewrite (Rltb_lt (lit 0) setpoint) by done.
    destruct (Rlt_dec setpoint peak) as [Hp|Hp].
    + rewrite (Rltb_lt setpoint peak) by done. rewrite Rltb_ge; [done|].
      unfold lit. simpl.
      apply Rmult_le_pos; [|lra]. apply Rlt_le, Rdiv_lt_0_compat; lra.
    + rewrite (Rltb_ge setpoint peak) by lra.
      assert (Hv : ((peak - setpoint) / setpoint * 100 <= 0)%R).
      { assert (0 <= (setpoint - peak) / setpoint)%R
          by (apply Rle_mult_inv_pos; lra).
        assert (((peak - setpoint) / setpoint) = - ((setpoint - peak) / setpoint))%R
          by (field; lra).
        lra. }
      destruct (Rlt_dec ((peak - setpoint) / setpoint * 100) 0) as [Hlt|Hge].
      * by rewrite Rltb_lt.
      * rewrite Rltb_ge by (unfold lit; simpl; lra). unfold lit. simpl. lra.
  - intros Hsp Hp. rewrite (Rltb_lt setpoint peak) by done.
    rewrite (Rltb_ge (lit 0) setpoint) by (unfold lit; simpl; lra). split; [|done].
    assert (0 < (peak - setpoint) / - setpoint)%R
      by (apply Rdiv_lt_0_compat; lra).
    assert (((peak - setpoint) / setpoint) = - ((peak - setpoint) / - setpoint))%R
      by (field; lra).
    unfold lit. simpl. lra.
Qed.

Section CorregidaFacts.
Context {num : Type} `{Number num}.
Local Open Scope js_scope.

(** Corregida's scan below a sample that is in the band: it ends at the
    first sample of the stretch of samples in the band that ends there. *)
Lemma Corregida_settling_scan_settled (systemOutput time : list num)
    (lowerBand upperBand : num) n :
  let in_band i :=
    (aget systemOutput i >=? lowerBand) && (aget systemOutput i <=? upperBand) = true in
  (0 < n)%nat → in_band n →
  ∃ i, (i ≤ n)%nat ∧ (∀ l, (i ≤ l ≤ n)%nat → in_band l)
       ∧ (i = 0%nat ∨ ¬ in_band (i - 1)%nat)
       ∧ Corregida.settling_scan systemOutput time lowerBand upperBand n true
         = Some (time !! i).
Proof.
  intros in_band. induction n as [|n IH]; intros Hn Hin; [lia|].
  cbn [Corregida.settling_scan].
  destruct ((aget systemOutput n >=? lowerBand) && (aget systemOutput n <=? upperBand))
    eqn:Hband.
  - destruct n as [|n].
    + exists 0%nat. split_and!; [lia | | by left | done].
      intros l Hl. destruct (decide (l = 0%nat)) as [->|]; [done|].
      by replace l with 1%nat by lia.
    + cbn [Nat.eqb]. destruct (IH ltac:(lia) Hband) as (i & Hi & Hstretch & Hstart & ->).
      exists i. split_and!; [lia | | done | done].
      intros l Hl. destruct (decide (l = S (S n))) as [->|]; [done|].
      apply Hstretch. lia.
  - exists (S n). split_and!; [lia | | | by rewrite Nat.add_1_r].
    + intros l Hl. by replace l with (S n) by lia.
    + right. replace (S n - 1)%nat with n by lia. unfold in_band. by rewrite Hband.
Qed.

(** Corregida's scan with no sample in the band met yet. *)
Lemma Corregida_settling_scan_unsettled (systemOutput time : list num)
    (lowerBand upperBand : num) n :
  let in_band i :=
    (aget systemOutput i >=? lowerBand) && (aget systemOutput i <=? upperBand) = true in
  match Corregida.settling_scan systemOutput time lowerBand upperBand n false with
  | Some t =>
      ∃ i j, (i ≤ j < n)%nat ∧ (∀ l, (i ≤ l ≤ j)%nat → in_band l)
             ∧ (∀ l, (j < l < n)%nat → ¬ in_band l)
             ∧ (i = 0%nat ∨ ¬ in_band (i - 1)%nat)
             ∧ t = time !! i
  | None => ∀ l, (l < n)%nat → ¬ in_band l
  end.
Proof.
  intros in_band. induction n as [|n IH]; [intros l Hl; lia|].
  cbn [Corregida.settling_scan].
  destruct ((aget systemOutput n >=? lowerBand) && (aget systemOutput n <=? upperBand))
    eqn:Hband.
  - destruct n as [|n].
    + exists 0%nat, 0%nat. split; [lia|].
      split_and!; [| intros l Hl; lia | by left | done].
      intros l Hl. by replace l with 0%nat by lia.
    + cbn [Nat.eqb].
      destruct (Corregida_settling_scan_settled systemOutput time lowerBand upperBand
                  (S n) ltac:(lia) Hband) as (i & Hi & Hstretch & Hstart & ->).
      exists i, (S n). split; [lia|].
      split_and!; [done | intros l Hl; lia | done | done].
  - assert (Hn : ¬ in_band n) by (unfold in_band; by rewrite Hband).
    destruct (Corregida.settling_scan systemOutput time lowerBand upperBand n false)
      as [t|].
    + destruct IH as (i & j & Hij & Hstretch & Hafter & Hstart & ->).
      exists i, j. split; [lia|]. split_and!; [done | | done | done].
      intros l Hl. destruct (decide (l = n)) as [->|]; [done|]. apply Hafter. lia.
    + intros l Hl. destruct (decide (l = n)) as [->|]; [done|]. apply IH. lia.
Qed.

(** [indexOf] finds the first entry that is [===] the value, if there is one. *)
Lemma Corregida_indexOf_spec (l : list num) (v : num) :
  match Corregida.indexOf l v with
  | Some i => (i < length l)%nat ∧ (aget l i =? v) = true
              ∧ ∀ j, (j < i)%nat → (aget l j =? v) = false
  | None => ∀ j, (j < length l)%nat → (aget l j =? v) = false
  end.
Proof.
  induction l as [|a l IH]; [intros j Hj; simpl in Hj; lia|].
  cbn [Corregida.indexOf]. destruct (a =? v) eqn:Ha.
  - split_and!; [simpl; lia | done | intros j Hj; lia].
  - destruct (Corregida.indexOf l v) as [i|]; simpl.
    + destruct IH as (Hi & Hv & Hbefore). split_and!; [lia | done |].
      intros [|j] Hj; [done|]. apply Hbefore. lia.
    + intros [|j] Hj; [done|]. apply IH. lia.
Qed.
End CorregidaFacts.

(** The settling time Corregida displays.  The scan from the last sample
    skips the samples outside the 2 percent band that end the run, as many as
    there are, and takes the stretch of samples in the band that it meets
    then: the settling time is the time of the first sample of that stretch.
    It is "N/A" when no sample at all is in the band. *)
Theorem Corregida_settlingTime_is_the_start_of_a_stretch {num : Type} `{Number num}
    (setpoint : num) (systemOutput time : list num) :
  let tolerance := mul (dec 2 100) setpoint in
  let in_band i :=
    leb (sub setpoint tolerance) (aget systemOutput i)
    && leb (aget systemOutput i) (add setpoint tolerance) = true in
  match Corregida.settlingTime setpoint systemOutput time with
  | Some t =>
      ∃ i j, (i ≤ j < length systemOutput)%nat
             ∧ (∀ l, (i ≤ l ≤ j)%nat → in_band l)
             ∧ (∀ l, (j < l < length systemOutput)%nat → ¬ in_band l)
             ∧ (i = 0%nat ∨ ¬ in_band (i - 1)%nat)
             ∧ t = time !! i
  | None => ∀ l, (l < length systemOutput)%nat → ¬ in_band l
  end.
Proof.
  intros tolerance in_band. unfold Corregida.settlingTime.
  apply Corregida_settling_scan_unsettled.
Qed.

(** Under a negative set point, over the reals, Corregida finds no settling
    time: the tolerance [0.02 * setpoint] is negative, the band's upper end
    is below its lower end, and no sample is in it. *)
Theorem Corregida_settlingTime_of_a_negative_setpoint (setpoint : R)
    (systemOutput time : list R) :
  (setpoint < 0)%R → Corregida.settlingTime setpoint systemOutput time = None.
Proof.
  intros Hsp.
  pose proof (Corregida_settling_scan_unsettled systemOutput time
                (sub setpoint (mul (dec 2 100) setpoint))
                (add setpoint (mul (dec 2 100) setpoint))
                (length systemOutput)) as Hscan.
  unfold Corregida.settlingTime.
  destruct (Corregida.settling_scan _ _ _ _ _ _) as [t|]; [|done].
  destruct Hscan as (i & j & Hij & Hstretch & _). exfalso.
  specialize (Hstretch i ltac:(lia)). cbv beta in Hstretch.
  apply andb_prop in Hstretch as [Hlo Hhi].
  apply Rleb_true_iff in Hlo, Hhi. unfold dec in *. simpl in *. lra.
Qed.

(** The peak time Corregida displays, over the reals and for a series that
    is not empty: when the greatest output is above the set point, it is the
    time of the first sample at which the output is that greatest value;
    otherwise it is "N/A". *)
Theorem Corregida_peakTime_is_the_first_maximum (setpoint : R)
    (systemOutput time : list R) :
  systemOutput ≠ [] →
  match Corregida.peakTime setpoint systemOutput time with
  | Some t =>
      ∃ i, (i < length systemOutput)%nat
           ∧ (setpoint < aget systemOutput i)%R
           ∧ (∀ j, (j < length systemOutput)%nat →
                (aget systemOutput j <= aget systemOutput i)%R)
           ∧ (∀ j, (j < i)%nat → (aget systemOutput j < aget systemOutput i)%R)
           ∧ t = time !! i
  | None => ∀ j, (j < length systemOutput)%nat → (aget systemOutput j <= setpoint)%R
  end.
Proof.
  intros Hne. unfold Corregida.peakTime.
  destruct (Math_max_real systemOutput Hne) as [Helem Hmax].
  rewrite Forall_lookup in Hmax.
  assert (Hle : ∀ j, (j < length systemOutput)%nat →
            (aget systemOutput j <= Math_max systemOutput)%R).
  { intros j Hj. apply (Hmax j). by apply lookup_aget. }
  destruct (ltb setpoint (Math_max systemOutput)) eqn:Hsp.
  - apply Rltb_true_iff in Hsp.
    pose proof (Corregida_indexOf_spec systemOutput (Math_max systemOutput)) as Hidx.
    destruct (Corregida.indexOf _ _) as [i|].
    + destruct Hidx as (Hi & Hv & Hbefore).
      assert (Hvi : aget systemOutput i = Math_max systemOutput).
      { simpl in Hv. unfold Real.Reqb in Hv. by destruct (Req_dec_T _ _). }
      exists i. rewrite Hvi. split_and!; [done | done | done | | done].
      intros j Hj. specialize (Hbefore j Hj). specialize (Hle j ltac:(lia)).
      simpl in Hbefore. unfold Real.Reqb in Hbefore.
      destruct (Req_dec_T _ _); [done | lra].
    + exfalso. apply list_elem_of_lookup in Helem as [j Hj].
      specialize (Hidx j (lookup_lt_Some _ _ _ Hj)).
      rewrite (aget_lookup _ _ _ Hj) in Hidx. by rewrite Reqb_eq in Hidx.
  - apply not_true_iff_false in Hsp. rewrite Rltb_true_iff in Hsp.
    intros j Hj. specialize (Hle j Hj). lra.
Qed.

(** On the step of 1 with a peak of 3/2. *)
Lemma Corregida_overshoot_against_Copia_witness :
  Corregida.overshoot 1%R (output overshooting_run) = Copia.overshoot overshooting_run.
Proof.
  apply (proj1 (Corregida_overshoot_against_Copia 1%R overshooting_run eq_refl)).
  lra.
Defined.

(** Under the set point -1, on an output that reaches it and stays. *)
Lemma Corregida_settlingTime_of_a_negative_setpoint_witness :
  Corregida.settlingTime (-1)%R [0; -1; -1]%R [1; 2; 3]%R = None.
Proof.
  apply (Corregida_settlingTime_of_a_negative_setpoint (-1)%R [0; -1; -1]%R [1; 2; 3]%R).
  lra.
Defined.

(** On an output that is not empty, [(0, 3/2)]. *)
Lemma Corregida_peakTime_is_the_first_maximum_witness :
  match Corregida.peakTime 1%R (output overshooting_run) (time overshooting_run) with
  | Some t =>
      ∃ i, (i < length (output overshooting_run))%nat
           ∧ (1 < aget (output overshooting_run) i)%R
           ∧ (∀ j, (j < length (output overshooting_run))%nat →
                (aget (output overshooting_run) j <= aget (output overshooting_run) i)%R)
           ∧ (∀ j, (j < i)%nat →
                (aget (output overshooting_run) j < aget (output overshooting_run) i)%R)
           ∧ t = time overshooting_run !! i
  | None => ∀ j, (j < length (output overshooting_run))%nat →
                (aget (output overshooting_run) j <= 1)%R
  end.
Proof.
  apply (Corregida_peakTime_is_the_first_maximum 1%R (output overshooting_run)
           (time overshooting_run)).
  discriminate.
Defined.

(** ** The first step of Corregida *)

Section KickFacts.
Context {num : Type} `{Number num}.

End KickFacts.




(** ** The scans for peaks *)

Section PeakFacts.
Context {num : Type} `{Number num}.
Local Open Scope js_scope.

(** Profesor's scan pushes nothing over indices whose outputs are not above 1. *)
Lemma Profesor_scan_below_one (output time : list num) (l : list nat) :
  Forall (λ i, (aget output i >? lit 1) = false) l →
  foldl (λ peaks i,
           if (aget output i >? aget output (i - 1))
              && (aget output i >? aget output (i + 1))
              && (aget output i >? lit 1)
           then peaks ++ [aget time i] else peaks) [] l = [].
Proof.
  induction 1 as [|i l Hi _ IH]; [done|].
  simpl. by rewrite Hi, andb_false_r.
Qed.

(** Copia's scan over a series that never falls: no peak, and the value kept
    is the last one read. *)
Lemma Copia_scan_never_falling (output time : list num) (m : nat) (rising : bool) :
  (∀ i, (i < m)%nat → (aget output (S i) <? aget output i) = false) →
  ∃ rising',
    foldl (λ '(peaks, prevValue, rising) i,
             let '(peaks, rising) :=
               if aget output i >? prevValue then (peaks, true)
               else if (aget output i <? prevValue) && rising
                    then (peaks ++ [aget time i], false)
                    else (peaks, rising) in
             (peaks, aget output i, rising))
      ([], aget output 0, rising) (seq 1 m)
    = ([], aget output m, rising').
Proof.
  induction m as [|m IH]; intros Hmono; [by exists rising|].
  destruct IH as [r IH]; [intros i Hi; apply Hmono; lia|].
  rewrite seq_S, foldl_app, IH. cbn [foldl Nat.add].
  rewrite (Hmono m) by lia. cbn [andb].
  destruct (aget output m <? aget output (S m)); by eexists.
Qed.
End PeakFacts.

(** Profesor's [findTu] counts a peak only where the output is above 1: on
    an output that never exceeds 1 it finds no period, oscillate as it may. *)
Theorem Profesor_findTu_sees_no_peak_below_one {num : Type} `{Number num}
    (output time : list num) :
  Forall (λ y, ltb (lit 1) y = false) output →
  Profesor.findTu output time = lit 0.
Proof.
  intros Hlow. unfold Profesor.findTu, Profesor.findTu_peaks. cbv zeta.
  rewrite Profesor_scan_below_one; [done|].
  apply Forall_forall. intros i Hi. apply elem_of_seq in Hi.
  rewrite Forall_lookup in Hlow. apply (Hlow i).
  apply lookup_aget. lia.
Qed.

(** Copia's [findTu] on an output that never falls from one sample to the
    next: there is no peak, and the period is 0. *)
Theorem Copia_findTu_of_a_rising_output {num : Type} `{Number num}
    (output time : list num) :
  (∀ i, (S i < length output)%nat → ltb (aget output (S i)) (aget output i) = false) →
  Copia.findTu output time = lit 0.
Proof.
  intros Hmono. apply Copia_period_undefined.
  unfold Copia.findTu_peaks.
  destruct (Copia_scan_never_falling output time (length output - 1) false) as [r ->].
  - intros i Hi. apply Hmono. lia.
  - simpl. lia.
Qed.

(** Profesor's period, over the reals: the mean of the differences of
    consecutive peak times is the span from the first peak to the last
    divided by the number of intervals. *)
Theorem Profesor_period_is_the_span_over_the_intervals (peaks : list R) :
  (2 ≤ length peaks)%nat →
  Profesor.findTu_period peaks
  = ((aget peaks (length peaks - 1) - aget peaks 0) / INR (length peaks - 1))%R.
Proof.
  intros Hlen. unfold Profesor.findTu_period.
  rewrite (proj2 (Nat.leb_le _ _) Hlen).
  assert (Hsum : ∀ k,
            foldl (λ totalPeriod i, add totalPeriod (sub (aget peaks (i + 1)) (aget peaks i)))
              (lit 0) (seq 0 k)
            = (aget peaks k - aget peaks 0)%R).
  { induction k as [|k IH]; [unfold lit; simpl; lra|].
    rewrite seq_S, foldl_app, IH. simpl.
    replace (k + 1)%nat with (S k) by lia. lra. }
  rewrite Hsum. unfold of_nat. simpl. by rewrite INR_IZR_INZ.
Qed.

(** On an output that swings between 0 and 1 to the end. *)
Lemma Profesor_findTu_sees_no_peak_below_one_witness :
  Forall (λ y, PrimFloat.ltb 1 y = false) low_oscillation
  ∧ Profesor.findTu low_oscillation uneven_time = lit 0.
Proof.
  assert (Hlow : Forall (λ y, ltb (lit 1) y = false) low_oscillation)
    by (repeat constructor).
  split; [exact Hlow|].
  apply (Profesor_findTu_sees_no_peak_below_one low_oscillation uneven_time Hlow).
Defined.

(** On an output that climbs from 0 to 3 with plateaus. *)
Lemma Copia_findTu_of_a_rising_output_witness :
  Copia.findTu rising_output uneven_time = lit 0.
Proof.
  apply (Copia_findTu_of_a_rising_output rising_output uneven_time).
  intros i Hi. simpl in Hi.
  do 7 (destruct i as [|i]; [vm_compute; reflexivity|]). lia.
Defined.

(** On peaks at 2, 4 and 7: a span of 5 over two intervals. *)
Lemma Profesor_period_is_the_span_over_the_intervals_witness :
  Profesor.findTu_period [2; 4; 7]%R = ((7 - 2) / INR 2)%R.
Proof.
  apply (Profesor_period_is_the_span_over_the_intervals [2; 4; 7]%R).
  simpl. lia.
Defined.

(** ** The tuning rules *)

(** The tuning rules over the reals, for an ultimate period that is not 0.
    Copia's rule "ziegler-nichols", which is also what it applies to a method
    it does not know, and Profesor's rule PID give the same gains, those of
    the classic table: [Kp = 0.6 Ku], [Ki = Kp / (Tu / 2)], [Kd = Kp (Tu / 8)]. *)
Theorem Ziegler_Nichols_rules_agree (Ku Tu : R) :
  Tu ≠ 0%R →
  Copia.suggestZNPIDValues "ziegler-nichols" Ku Tu
  = Profesor.PID (Profesor.suggestZNPIDValues Ku Tu)
  ∧ Copia.suggestZNPIDValues "ziegler-nichols" Ku Tu
    = ((6 / 10 * Ku)%R, (6 / 10 * Ku / (Tu / 2))%R, (6 / 10 * Ku * (Tu / 8))%R)
  ∧ ∀ method, method ≠ "cohen-coon"%string → method ≠ "imc"%string →
      Copia.suggestZNPIDValues method Ku Tu
      = Copia.suggestZNPIDValues "ziegler-nichols" Ku Tu.
Proof.
  intros HTu. split_and!.
  - unfold Copia.suggestZNPIDValues, Profesor.suggestZNPIDValues, dec, lit.
    cbn [String.eqb Ascii.eqb Bool.eqb Profesor.PID]. simpl.
    f_equal; [f_equal|]; by field.
  - unfold Copia.suggestZNPIDValues, dec.
    cbn [String.eqb Ascii.eqb Bool.eqb]. simpl.
    f_equal; [f_equal|]; by field.
  - intros method Hcc Himc. unfold Copia.suggestZNPIDValues.
    rewrite (proj2 (String.eqb_neq _ _) Hcc), (proj2 (String.eqb_neq _ _) Himc).
    by destruct (String.eqb method "ziegler-nichols").
Qed.

(** For an ultimate gain of 10 and an ultimate period of 2. *)
Lemma Ziegler_Nichols_rules_agree_witness :
  Copia.suggestZNPIDValues "ziegler-nichols" 10%R 2%R
  = Profesor.PID (Profesor.suggestZNPIDValues 10%R 2%R)
  ∧ Copia.suggestZNPIDValues "ziegler-nichols" 10%R 2%R
    = ((6 / 10 * 10)%R, (6 / 10 * 10 / (2 / 2))%R, (6 / 10 * 10 * (2 / 8))%R)
  ∧ Copia.suggestZNPIDValues "tyreus-luyben" 10%R 2%R
    = Copia.suggestZNPIDValues "ziegler-nichols" 10%R 2%R.
Proof.
  assert (H2 : 2%R ≠ 0%R) by lra.
  destruct (Ziegler_Nichols_rules_agree 10%R 2%R H2) as (Hagree & Htable & Hother).
  split; [exact Hagree|]. split; [exact Htable|].
  apply Hother; discriminate.
Defined.

(** ** The slider ranges *)

(** [updateRange] over the reals.  The two scripts assign the same value to
    the slider.  A range whose minimum is above its maximum is refused; one
    that is applied leaves a value inside it alone and moves a value outside
    it to the nearer end, so that the slider ends inside the range. *)
Theorem updateRange_keeps_the_slider_in_range (min max currentValue : R) :
  Copia.updateRange min max currentValue = Profesor.updateRange min max currentValue
  ∧ ((max < min)%R → Copia.updateRange min max currentValue = None)
  ∧ ((min <= max)%R →
       ∃ assigned, Copia.updateRange min max currentValue = Some assigned
         ∧ (min <= default currentValue assigned <= max)%R
         ∧ ((min <= currentValue <= max)%R → assigned = None)
         ∧ ((currentValue < min)%R → assigned = Some min)
         ∧ ((max < currentValue)%R → assigned = Some max)).
Proof.
  unfold Copia.updateRange, Profesor.updateRange. rewrite !isNaN_real. cbn [negb andb].
  rewrite max2_real, Math_min_real.
  destruct (leb min max) eqn:Hrange.
  - apply Rleb_true_iff in Hrange.
    destruct (ltb currentValue min) eqn:Hlo; destruct (ltb max currentValue) eqn:Hhi;
      cbn [orb];
      try apply Rltb_true_iff in Hlo; try apply Rltb_true_iff in Hhi;
      try (apply not_true_iff_false in Hlo; rewrite Rltb_true_iff in Hlo);
      try (apply not_true_iff_false in Hhi; rewrite Rltb_true_iff in Hhi);
      try lra.
    + rewrite Rmin_right, Rmax_left by lra.
      split_and!; [done | intros; lra |]. intros _. eexists. split; [done|].
      simpl. split_and!; intros; (done || lra).
    + rewrite Rmin_left, Rmax_right by lra.
      split_and!; [done | intros; lra |]. intros _. eexists. split; [done|].
      simpl. split_and!; intros; (done || lra).
    + split_and!; [done | intros; lra |]. intros _. eexists. split; [done|].
      simpl. split_and!; intros; (done || lra).
  - apply not_true_iff_false in Hrange. rewrite Rleb_true_iff in Hrange.
    split_and!; [done | done | intros; lra].
Qed.

(** A slider at 12 when the range becomes [[0, 10]]. *)
Lemma updateRange_keeps_the_slider_in_range_witness :
  Copia.updateRange 0%R 10%R 12%R = Some (Some 10%R)
  ∧ Profesor.updateRange 0%R 10%R 12%R = Some (Some 10%R).
Proof.
  destruct (updateRange_keeps_the_slider_in_range 0%R 10%R 12%R)
    as (Hsame & _ & Hin).
  destruct Hin as (assigned & Hassigned & _ & _ & _ & Habove); [lra|].
  rewrite <- Hsame, Hassigned, Habove by lra. done.
Defined.
